(** * McCap: market-cap consensus, alert watcher and payment watcher

    A shallow embedding of the core of the [mccapbot] package
    ([helpers.py], [dex.py], [alerts.py], [payments.py], [storage.py])
    together with the properties its specification states about it.

    Modelling conventions.
    - A Python [float] is a real number ([R]).  The rounding of sums,
      products and quotients, infinities and the NaN values a feed could
      carry are outside the model; the one NaN the program writes itself
      (the value of a candidate that resolved to nothing) is the [None]
      of an [option R].  [math.log10] and [10**x], through which the
      consensus goes and whose rounding shows in it, are parameters of
      the model (class [Libm]).
    - A Python [int] is a [Z].
    - A decoded JSON document is a [json] tree; a [dict] is an association
      list looked up by key.
    - A Python [str] is a [string] of ASCII characters; [str.lower] and
      iteration over a string are modelled on such text.
    - A Python expression that may raise is a computation in the [exc]
      monad: [None] is "an exception was raised".
    - The two watchers are modelled one cycle at a time, with what the
      network, the clock and the file system do given as inputs; other
      tasks do not touch the collections while a cycle runs. *)

From Stdlib Require Import Reals Lra Lia ZArith List String Ascii Bool.
From Stdlib Require Import Permutation Sorted.
Import ListNotations.

Local Open Scope R_scope.
Local Open Scope string_scope.

(** ** Python values and built-ins *)

Module Py.

(** Computations that may raise. *)
Definition exc (A : Type) : Type := option A.
Definition ret {A} (a : A) : exc A := Some a.
Definition raise {A} : exc A := None.
Definition bind {A B} (m : exc A) (k : A -> exc B) : exc B :=
  match m with
  | Some a => k a
  | None => None
  end.

(** [try: body / except: handler] for a body whose value is returned. *)
Definition try_except {A} (body : exc A) (handler : A) : A :=
  match body with
  | Some a => a
  | None => handler
  end.

(** Comparison of floats, as booleans. *)
Definition Rleb (x y : R) : bool := if Rle_dec x y then true else false.
Definition Rltb (x y : R) : bool := if Rlt_dec x y then true else false.
Definition Reqb (x y : R) : bool := if Req_dec_T x y then true else false.

(** A decoded JSON value. *)
#[warnings="-register-all"]
Inductive json : Type :=
| JNull
| JBool (b : bool)
| JInt (z : Z)
| JFloat (r : R)
| JStr (s : string)
| JList (l : list json)
| JObj (kv : list (string * json)).

(** The parsers behind [float(str)] and [int(str)]; [None] is ValueError. *)
Class Builtins : Type := {
  float_of_str : string -> option R;
  int_of_str : string -> option Z
}.

Fixpoint lookup (kv : list (string * json)) (key : string) : option json :=
  match kv with
  | [] => None
  | (k, v) :: rest => if String.eqb k key then Some v else lookup rest key
  end.

(** [d.get(key, default)]; AttributeError when [d] is not a dict. *)
Definition get_default (d : json) (key : string) (default : json) : exc json :=
  match d with
  | JObj kv => ret (match lookup kv key with Some v => v | None => default end)
  | _ => raise
  end.

(** [d.get(key)] *)
Definition get (d : json) (key : string) : exc json := get_default d key JNull.

(** Truth value of an object. *)
Definition truthy (j : json) : bool :=
  match j with
  | JNull => false
  | JBool b => b
  | JInt z => negb (Z.eqb z 0)
  | JFloat r => negb (Reqb r 0)
  | JStr s => negb (String.eqb s "")
  | JList l => match l with [] => false | _ => true end
  | JObj kv => match kv with [] => false | _ => true end
  end.

(** [a or b] *)
Definition or_ (a b : json) : json := if truthy a then a else b.

(** [x == s] for a string [s]. *)
Definition eq_str (x : json) (s : string) : bool :=
  match x with
  | JStr t => String.eqb t s
  | _ => false
  end.

(** [int(x)] of a float: truncation towards zero. *)
Definition trunc (r : R) : Z :=
  if Rle_dec 0 r then Int_part r else (- Int_part (- r))%Z.

Section WithBuiltins.
Context `{Builtins}.

(** [float(x)] *)
Definition float (x : json) : exc R :=
  match x with
  | JBool b => ret (if b then 1 else 0)
  | JInt z => ret (IZR z)
  | JFloat r => ret r
  | JStr s => float_of_str s
  | JNull | JList _ | JObj _ => raise
  end.

(** [int(x)] *)
Definition int (x : json) : exc Z :=
  match x with
  | JBool b => ret (if b then 1 else 0)%Z
  | JInt z => ret z
  | JFloat r => ret (trunc r)
  | JStr s => int_of_str s
  | JNull | JList _ | JObj _ => raise
  end.

End WithBuiltins.

(** [str.lower()] on ASCII text. *)
Definition lower_ascii (c : ascii) : ascii :=
  let n := nat_of_ascii c in
  if (Nat.leb 65 n && Nat.leb n 90)%bool then ascii_of_nat (n + 32) else c.

Fixpoint lower_string (s : string) : string :=
  match s with
  | EmptyString => EmptyString
  | String c rest => String (lower_ascii c) (lower_string rest)
  end.

(** [x.lower()]; AttributeError unless [x] is a string. *)
Definition lower (x : json) : exc string :=
  match x with
  | JStr s => ret (lower_string s)
  | _ => raise
  end.

(** [l[i]] with Python's negative indices; IndexError out of range. *)
Definition index {A} (l : list A) (i : Z) : exc A :=
  let n := Z.of_nat (List.length l) in
  if (0 <=? i)%Z then nth_error l (Z.to_nat i)
  else if (0 <=? n + i)%Z then nth_error l (Z.to_nat (n + i))
  else raise.

End Py.

Declare Scope exc_scope.
Notation "x <- m ;; k" := (Py.bind m (fun x => k))
  (at level 61, m at next level, right associativity) : exc_scope.
Notation "' p <- m ;; k" := (Py.bind m (fun x => match x with p => k end))
  (at level 61, p pattern, m at next level, right associativity) : exc_scope.
Local Open Scope exc_scope.

(** ** helpers.py *)

Module Helpers.
Import Py.

Definition base58_char (c : ascii) : bool :=
  let n := nat_of_ascii c in
  (  (Nat.leb 49 n && Nat.leb n 57)      (* 1-9 *)
  || (Nat.leb 65 n && Nat.leb n 72)      (* A-H *)
  || (Nat.leb 74 n && Nat.leb n 78)      (* J-N *)
  || (Nat.leb 80 n && Nat.leb n 90)      (* P-Z *)
  || (Nat.leb 97 n && Nat.leb n 107)     (* a-k *)
  || (Nat.leb 109 n && Nat.leb n 122))%bool. (* m-z *)

Fixpoint all_chars (f : ascii -> bool) (s : string) : bool :=
  match s with
  | EmptyString => true
  | String c rest => (f c && all_chars f rest)%bool
  end.

Definition is_solana_address (addr : string) : bool :=
  if (String.eqb addr "" || String.prefix "0x" addr)%bool then false
  else (Nat.leb 32 (String.length addr) && Nat.leb (String.length addr) 44
        && (negb (String.eqb addr "") && all_chars base58_char addr))%bool.

Definition meets (dir_ : string) (current : option R) (target : R) : bool :=
  match current with
  | None => false
  | Some c => if String.eqb dir_ "above" then Rleb target c else Rleb c target
  end.

(** [sorted(vals)] on floats: the ascending rearrangement. *)
Fixpoint insert_sorted (x : R) (l : list R) : list R :=
  match l with
  | [] => [x]
  | y :: rest => if Rle_dec x y then x :: l else y :: insert_sorted x rest
  end.

Fixpoint sorted (l : list R) : list R :=
  match l with
  | [] => []
  | x :: rest => insert_sorted x (sorted rest)
  end.

(** [math.floor] and [math.ceil] *)
Definition floor (x : R) : Z := Int_part x.
Definition ceil (x : R) : Z := (- Int_part (- x))%Z.

Definition _percentile (sorted_vals : list R) (p : R) : exc R :=
  let k := IZR (Z.of_nat (List.length sorted_vals) - 1) * p in
  let f := floor k in
  let c := ceil k in
  if (f =? c)%Z then index sorted_vals (trunc k)
  else
    a <- index sorted_vals f ;;
    b <- index sorted_vals c ;;
    ret (a + (b - a) * (k - IZR f)).

Definition _median (vals : list R) : exc R :=
  let s := sorted vals in
  let n := Z.of_nat (List.length s) in
  if (n =? 0)%Z then ret 0
  else if negb (n mod 2 =? 0)%Z then index s (n / 2)
  else
    a <- index s (n / 2 - 1) ;;
    b <- index s (n / 2) ;;
    ret (0.5 * (a + b)).

End Helpers.

(** ** config.py *)

Module Config.

Definition SOLANA_USE_FDV : bool := true.
Definition DEX_BLACKLIST : list string := ["heaven"].

End Config.

(** ** dex.py *)

Module Dex.
Import Py Helpers Config.

(** The logarithm to base ten and the power of ten of real numbers. *)
Definition log10 (x : R) : R := ln x / ln 10.
Definition pow10 (x : R) : R := Rpower 10 x.

(** [math.log10], called on positive arguments only, and [10**x], as the
    C library computes them on floats.  Their results are rounded, so
    that [10**math.log10(v)] need not be [v]; nothing is assumed of
    them. *)
Class Libm : Type := {
  flog10 : R -> R;
  fpow10 : R -> R
}.

(** The two functions without rounding. *)
#[export] Instance reals : Libm := {| flog10 := log10; fpow10 := pow10 |}.

Section WithBuiltins.
Context `{Builtins} `{Libm}.

(** One turn of the loop [for key in (first, second)] of
    [resolve_mc_value]: the value of field [key] when it is present and
    converts to a float above zero. *)
Definition field_value (pair : json) (key : string) : exc (option R) :=
  val <- get pair key ;;
  ret (match val with
       | JNull => None
       | _ => try_except
                (f <- float val ;; ret (if Rltb 0 f then Some f else None))
                None
       end).

(** The last [try] block of [resolve_mc_value]. *)
Definition computed_value (pair : json) : option R :=
  try_except
    (p <- get pair "priceUsd" ;;
     price <- float (or_ p (JInt 0)) ;;
     b <- get pair "baseToken" ;;
     s <- get (or_ b (JObj [])) "circulatingSupply" ;;
     supply <- float (or_ s (JInt 0)) ;;
     ret (if (Rltb 0 price && Rltb 0 supply)%bool
          then Some (price * supply) else None))
    None.

Definition resolve_mc_value (pair : json) (ca : string)
  : exc (option R * string) :=
  chain <- get pair "chainId" ;;
  let is_sol := (eq_str chain "solana" || is_solana_address ca)%bool in
  let '(first, second) :=
    if (SOLANA_USE_FDV && is_sol)%bool
    then ("fdv", "marketCap") else ("marketCap", "fdv") in
  v1 <- field_value pair first ;;
  match v1 with
  | Some f => ret (Some f, first)
  | None =>
    v2 <- field_value pair second ;;
    match v2 with
    | Some f => ret (Some f, second)
    | None =>
      match computed_value pair with
      | Some v => ret (Some v, "computed")
      | None => ret (None, "none")
      end
    end
  end.

Definition _not_blacklisted (p : json) : exc bool :=
  d <- get p "dexId" ;;
  s <- lower (or_ d (JStr "")) ;;
  ret (negb (existsb (String.eqb s) DEX_BLACKLIST)).

Definition _liq_vol_tx (p : json) : exc (R * R * Z) :=
  l <- get p "liquidity" ;;
  lu <- get (or_ l (JObj [])) "usd" ;;
  liq <- float (or_ lu (JFloat 0)) ;;
  v <- get p "volume" ;;
  vh <- get (or_ v (JObj [])) "h24" ;;
  vol <- float (or_ vh (JFloat 0)) ;;
  t <- get p "txns" ;;
  th <- get (or_ t (JObj [])) "h24" ;;
  let tx := or_ th (JObj []) in
  b <- get tx "buys" ;;
  buys <- int (or_ b (JInt 0)) ;;
  s <- get tx "sells" ;;
  sells <- int (or_ s (JInt 0)) ;;
  ret (liq, vol, (buys + sells)%Z).

(** A list comprehension [[p for p in l if cond(p)]] whose condition may
    raise. *)
Fixpoint filter_exc {A} (cond : A -> exc bool) (l : list A) : exc (list A) :=
  match l with
  | [] => ret []
  | p :: rest =>
    b <- cond p ;;
    rest' <- filter_exc cond rest ;;
    ret (if b then p :: rest' else rest')
  end.

(** The two address tests of [choose_consensus_pair]. *)
Definition on_solana_with_address (ca : string) (p : json) : exc bool :=
  c <- get p "chainId" ;;
  if eq_str c "solana" then
    b <- get p "baseToken" ;;
    a <- get (or_ b (JObj [])) "address" ;;
    ret (eq_str a ca)
  else ret false.

Definition with_address_nocase (cal : string) (p : json) : exc bool :=
  b <- get p "baseToken" ;;
  a <- get_default (or_ b (JObj [])) "address" (JStr "") ;;
  s <- lower a ;;
  ret (String.eqb s cal).

Definition select_pairs (pairs : list json) (ca : string) : exc (list json) :=
  filtered <-
    (if is_solana_address ca
     then filter_exc (on_solana_with_address ca) pairs
     else filter_exc (with_address_nocase (lower_string ca)) pairs) ;;
  filter_exc _not_blacklisted filtered.

(** A candidate: the pair, its value ([None] is the NaN of a pair that
    resolved to nothing), liquidity, 24-hour volume and source tag. *)
Definition candidate : Type := json * option R * R * R * string.

(** The loop building [cands] and [valid]. *)
Fixpoint collect (filtered : list json) (ca : string)
                 (cands : list candidate) (valid : list R)
  : exc (list candidate * list R) :=
  match filtered with
  | [] => ret (cands, valid)
  | p :: rest =>
    '(mc, src) <- resolve_mc_value p ca ;;
    '(liq, vol, _tx) <- _liq_vol_tx p ;;
    match mc with
    | Some m =>
      if (negb (Reqb m 0) && Rltb 0 m)%bool
      then collect rest ca (cands ++ [(p, Some m, liq, vol, src)]) (valid ++ [m])
      else collect rest ca (cands ++ [(p, None, liq, vol, "none")]) valid
    | None => collect rest ca (cands ++ [(p, None, liq, vol, "none")]) valid
    end
  end.

(** The consensus value of the sample [valid]. *)
Definition consensus_of (valid : list R) : exc R :=
  let logs := sorted (map flog10 (filter (fun v => Rltb 0 v) valid)) in
  base_vals <-
    (if (3 <=? List.length logs)%nat then
       q1 <- _percentile logs 0.25 ;;
       q3 <- _percentile logs 0.75 ;;
       let iqr := q3 - q1 in
       let lo := q1 - 1.5 * iqr in
       let hi := q3 + 1.5 * iqr in
       let kept := map fpow10 (filter (fun x => (Rleb lo x && Rleb x hi)%bool) logs) in
       ret (if (2 <=? List.length kept)%nat then kept else valid)
     else ret valid) ;;
  _median base_vals.

(** Tuples [(rel, -liq, -vol)] under Python's [<]. *)
Definition key : Type := R * R * R.

Definition key_lt (a b : key) : bool :=
  let '(a1, a2, a3) := a in
  let '(b1, b2, b3) := b in
  if negb (Reqb a1 b1) then Rltb a1 b1
  else if negb (Reqb a2 b2) then Rltb a2 b2
  else Rltb a3 b3.

Definition key_of (consensus : R) (mc liq vol : R) : key :=
  let rel := if Rltb 0 consensus
             then Rabs (mc - consensus) / consensus
             else Rabs (mc - consensus) in
  (rel, - liq, - vol).

(** The loop choosing [best]; the state is [(best, best_key)]. *)
Fixpoint pick_best (cands : list candidate) (consensus : R)
                   (st : option (json * key)) : option (json * key) :=
  match cands with
  | [] => st
  | (p, mc, liq, vol, _src) :: rest =>
    match mc with
    | None => pick_best rest consensus st
    | Some m =>
      let k := key_of consensus m liq vol in
      match st with
      | None => pick_best rest consensus (Some (p, k))
      | Some (_, best_key) =>
        if key_lt k best_key
        then pick_best rest consensus (Some (p, k))
        else pick_best rest consensus st
      end
    end
  end.

Definition choose_consensus_pair (pairs : list json) (ca : string)
  : exc (option json * R * list candidate) :=
  match pairs with
  | [] => ret (None, 0, [])
  | _ =>
    filtered <- select_pairs pairs ca ;;
    match filtered with
    | [] => ret (None, 0, [])
    | _ =>
      '(cands, valid) <- collect filtered ca [] [] ;;
      match valid with
      | [] => ret (None, 0, cands)
      | _ =>
        consensus <- consensus_of valid ;;
        let best := option_map fst (pick_best cands consensus None) in
        ret (best, consensus, cands)
      end
    end
  end.

End WithBuiltins.

End Dex.

(** ** models.py *)

Module Models.
Import Py.

Record Reminder : Type := {
  rem_ca : string;
  rem_target_mc : R;
  rem_direction : string;
  rem_channel_id : Z;
  rem_creator_id : Z;
  rem_guild_id : Z;
  rem_name : string;
  rem_symbol : string;
  rem_note : string
}.

(** The fields of [TokenSnapshot] the watcher reads. *)
Record TokenSnapshot : Type := {
  snap_mc : option R;
  snap_url : string;
  snap_image_url : string
}.

Record Invoice : Type := {
  inv_id : string;
  inv_reference : string;
  inv_asset : string;
  inv_mint : option string;
  inv_amount_base : Z;
  inv_decimals : Z;
  inv_user_id : Z;
  inv_channel_id : Z;
  inv_guild_id : Z;
  inv_note : string;
  inv_created_ts : R;
  inv_status : string;          (* pending|paid|expired *)
  inv_tx_sig : json             (* set when confirmed *)
}.

Record AlertEvent : Type := {
  ev_ts : R;
  ev_ca : string;
  ev_name : string;
  ev_symbol : string;
  ev_direction : string;        (* "above"|"below" *)
  ev_target_mc : R;
  ev_current_mc : option R;
  ev_channel_id : Z;
  ev_guild_id : Z;
  ev_creator_id : Z
}.

(** [==] of two [Reminder]s: the dataclass compares field by field. *)
Definition Reminder_eqb (a b : Reminder) : bool :=
  (String.eqb (rem_ca a) (rem_ca b)
   && Reqb (rem_target_mc a) (rem_target_mc b)
   && String.eqb (rem_direction a) (rem_direction b)
   && Z.eqb (rem_channel_id a) (rem_channel_id b)
   && Z.eqb (rem_creator_id a) (rem_creator_id b)
   && Z.eqb (rem_guild_id a) (rem_guild_id b)
   && String.eqb (rem_name a) (rem_name b)
   && String.eqb (rem_symbol a) (rem_symbol b)
   && String.eqb (rem_note a) (rem_note b))%bool.

End Models.

(** ** alerts.py: the evaluation part of one [watcher] cycle *)

Module Alerts.
Import Py Helpers Models.

(** What the outside world does during the [k]-th firing of a cycle:
    whether the notification goes out (channel lookup, name lookup and
    [send] all return), the reading of [time.time()], and whether
    [save_reminders] returns. *)
Record World : Type := {
  delivered : nat -> bool;
  clock : nat -> R;
  reminders_saved : nat -> bool
}.

(** The in-memory collections [reminders] and [alert_events]. *)
Record Store : Type := {
  reminders : list Reminder;
  alert_events : list AlertEvent
}.

(** One firing, as the cycle reports it. *)
Record Fire : Type := {
  fire_rule : Reminder;
  fire_delivered : bool;
  fire_events : list AlertEvent   (* the events recorded by this firing *)
}.

Definition __build_event (now : R) (rem : Reminder) (curr_mc : option R)
  : AlertEvent :=
  {| ev_ts := now; ev_ca := rem_ca rem; ev_name := rem_name rem;
     ev_symbol := rem_symbol rem; ev_direction := rem_direction rem;
     ev_target_mc := rem_target_mc rem; ev_current_mc := curr_mc;
     ev_channel_id := rem_channel_id rem; ev_guild_id := rem_guild_id rem;
     ev_creator_id := rem_creator_id rem |}.

(** [alert_events.insert(0, e)] followed by the capacity check. *)
Definition record_event (e : AlertEvent) (events : list AlertEvent)
  : list AlertEvent :=
  let events := e :: events in
  if (1000 <? List.length events)%nat then removelast events else events.

(** [reminders.remove(rem)]: drops the first equal element, ValueError
    when there is none. *)
Fixpoint remove (rem : Reminder) (l : list Reminder) : exc (list Reminder) :=
  match l with
  | [] => raise
  | r :: rest =>
    if Reminder_eqb r rem then ret rest
    else rest' <- remove rem rest ;; ret (r :: rest')
  end.

(** [curr = s.mc if s else None] for [s = snap.get(rem.ca)] *)
Definition current (snap : string -> option TokenSnapshot) (rem : Reminder)
  : option R :=
  match snap (rem_ca rem) with
  | Some s => snap_mc s
  | None => None
  end.

Definition fires (snap : string -> option TokenSnapshot) (rem : Reminder)
  : bool :=
  meets (rem_direction rem) (current snap rem) (rem_target_mc rem).

(** The loop [for rem in reminders[:]].  [todo] is what is left of the
    copy, [k] counts the firings so far; the result is the store, the
    firings in order, and whether the loop ran to its end ([false] when
    an exception left it for the handler of the cycle). *)
Fixpoint evaluate (w : World) (snap : string -> option TokenSnapshot)
                  (todo : list Reminder) (k : nat) (st : Store)
  : Store * list Fire * bool :=
  match todo with
  | [] => (st, [], true)
  | rem :: rest =>
    if fires snap rem then
      let curr := current snap rem in
      (* try: deliver, record the event, save the history / except: log.
         An exception in [save_alerts] comes after the event is recorded
         and is logged by the same handler. *)
      let recorded :=
        if delivered w k then [__build_event (clock w k) rem curr] else [] in
      let events :=
        fold_left (fun evs e => record_event e evs) recorded (alert_events st) in
      let fire := {| fire_rule := rem; fire_delivered := delivered w k;
                     fire_events := recorded |} in
      match remove rem (reminders st) with
      | None => ({| reminders := reminders st; alert_events := events |},
                 [fire], false)
      | Some rems =>
        let st' := {| reminders := rems; alert_events := events |} in
        if reminders_saved w k then
          let '(st'', log, finished) := evaluate w snap rest (S k) st' in
          (st'', fire :: log, finished)
        else (st', [fire], false)
      end
    else evaluate w snap rest k st
  end.

Definition watcher_cycle (w : World) (snap : string -> option TokenSnapshot)
                         (st : Store) : Store * list Fire * bool :=
  evaluate w snap (reminders st) 0 st.

(** Successive cycles, each with its own world and snapshot of the cache. *)
Fixpoint watcher (cycles : list (World * (string -> option TokenSnapshot)))
                 (st : Store) : Store * list Fire :=
  match cycles with
  | [] => (st, [])
  | (w, snap) :: rest =>
    let '(st', log, _) := watcher_cycle w snap st in
    let '(st'', log') := watcher rest st' in
    (st'', (log ++ log')%list)
  end.

End Alerts.

(** ** storage.py: the alert history *)

Module Storage.
Import Py Models.

(** [sorted(events, key=lambda x: x.ts, reverse=True)]: newest first,
    events with equal time stamps in their original order. *)
Fixpoint insert_by_ts (e : AlertEvent) (l : list AlertEvent) : list AlertEvent :=
  match l with
  | [] => [e]
  | y :: rest =>
    if Rltb (ev_ts e) (ev_ts y) then y :: insert_by_ts e rest else e :: l
  end.

Fixpoint newest_first (l : list AlertEvent) : list AlertEvent :=
  match l with
  | [] => []
  | e :: rest => insert_by_ts e (newest_first rest)
  end.

(** The loop that builds an [AlertEvent] from every record of the file
    and appends it to the cleared list.  A record is [Some e] when the
    constructor accepts it, with fields of the declared types, and [None]
    when it raises (a key that is missing or unknown, a record that is no
    object); a file that holds no list gives the same as a first record
    that is refused.  The events appended, and whether the loop came to
    its end. *)
Fixpoint append_records (data : list (option AlertEvent))
  : list AlertEvent * bool :=
  match data with
  | [] => ([], true)
  | Some e :: rest => let (l, ok) := append_records rest in (e :: l, ok)
  | None :: _ => ([], false)
  end.

(** The history [load_alerts] leaves in memory.  [file] is [None] when
    the file cannot be opened or decoded, which leaves the list as it
    was, and the records of the file otherwise.  When a record is refused
    the handler logs the exception and the list stays as the loop left
    it: the events before that record, neither sorted nor capped. *)
Definition load_alerts (file : option (list (option AlertEvent)))
                       (alert_events : list AlertEvent) : list AlertEvent :=
  match file with
  | None => alert_events
  | Some data =>
    let (events, ok) := append_records data in
    if ok then firstn 1000 (newest_first events) else events
  end.

End Storage.

(** ** payments.py *)

Module Payments.
Import Py Helpers Models.

(** Values read from the process environment by [config.py]. *)
Class Settings : Type := {
  DONATION_WALLET : string;
  PAY_EXPIRY_SEC : Z
}.

(** The ledger as [sol_rpc] shows it: the reply to
    [getSignaturesForAddress] and, for each signature, the reply to
    [getTransaction]; [JNull] stands for the [None] of a failed call. *)
Record Ledger : Type := {
  signatures : json;
  transaction : json -> json
}.

(** Iteration over a value: the elements of a list, the keys of a dict,
    the characters of a string; TypeError otherwise. *)
Definition iter (x : json) : exc (list json) :=
  match x with
  | JList l => ret l
  | JObj kv => ret (map (fun e => JStr (fst e)) kv)
  | JStr s => ret (map (fun c => JStr (String c EmptyString)) (list_ascii_of_string s))
  | _ => raise
  end.

(** [len(x)] *)
Definition len (x : json) : exc nat :=
  match x with
  | JList l => ret (List.length l)
  | JObj kv => ret (List.length kv)
  | JStr s => ret (String.length s)
  | _ => raise
  end.

(** [x[i]] for an index [i] known to be below [len(x)]: a dict decoded
    from JSON has string keys only, so an integer key is a KeyError. *)
Definition item (x : json) (i : nat) : exc json :=
  match x with
  | JList l => nth_error l i
  | JStr s => match String.get i s with
              | Some c => ret (JStr (String c EmptyString))
              | None => raise
              end
  | _ => raise
  end.

(** The number a value stands for in arithmetic; TypeError otherwise. *)
Definition number (x : json) : exc R :=
  match x with
  | JBool b => ret (if b then 1 else 0)
  | JInt z => ret (IZR z)
  | JFloat r => ret r
  | _ => raise
  end.

Fixpoint is_infix (sub s : string) : bool :=
  (String.prefix sub s
   || match s with
      | EmptyString => false
      | String _ rest => is_infix sub rest
      end)%bool.

(** [key in x] for a string [key] *)
Definition contains (x : json) (key : string) : exc bool :=
  match x with
  | JObj kv => ret (match lookup kv key with Some _ => true | None => false end)
  | JList l => ret (existsb (fun e => eq_str e key) l)
  | JStr s => ret (is_infix key s)
  | _ => raise
  end.

(** [x[key]] for a string [key] *)
Definition item_str (x : json) (key : string) : exc json :=
  match x with
  | JObj kv => lookup kv key
  | _ => raise
  end.

Fixpoint map_exc {A B} (f : A -> exc B) (l : list A) : exc (list B) :=
  match l with
  | [] => ret []
  | a :: rest => b <- f a ;; rest' <- map_exc f rest ;; ret (b :: rest')
  end.

(** The comprehension computing [keys] from [msg]. *)
Definition account_keys (msg : json) : exc (list json) :=
  m <- get msg "message" ;;
  ak <- get_default (or_ m (JObj [])) "accountKeys" (JList []) ;;
  ks <- iter ak ;;
  map_exc (fun k => match k with JObj _ => get k "pubkey" | _ => ret k end) ks.

(** [x != mint] for the [mint] of an invoice ([None] or a string). *)
Definition differs_from_mint (x : json) (mint : option string) : bool :=
  match x, mint with
  | JNull, None => false
  | JStr s, Some m => negb (String.eqb s m)
  | _, _ => true
  end.

(** Keys of the dict built by [_tb_map]: values that hash, compared as
    Python compares them. *)
Definition hashable (x : json) : bool :=
  match x with
  | JList _ | JObj _ => false
  | _ => true
  end.

Definition key_eqb (a b : json) : bool :=
  match a, b with
  | JNull, JNull => true
  | JStr s, JStr t => String.eqb s t
  | JInt x, JInt y => Z.eqb x y
  | _, _ =>
    match number a, number b with
    | Some x, Some y => Reqb x y
    | _, _ => false
    end
  end.

(** An entry [(owner, amt, dec)] of that dict. *)
Definition tb_entry : Type := json * Z * Z.
Definition tb_dict : Type := list (json * tb_entry).

Fixpoint tb_get (d : tb_dict) (idx : json) : option tb_entry :=
  match d with
  | [] => None
  | (k, v) :: rest => if key_eqb k idx then Some v else tb_get rest idx
  end.

(** [out[idx] = v]: the value of an existing key is replaced in place, a
    new key goes to the end. *)
Fixpoint tb_set (d : tb_dict) (idx : json) (v : tb_entry) : tb_dict :=
  match d with
  | [] => [(idx, v)]
  | (k, v0) :: rest =>
    if key_eqb k idx then (k, v) :: rest else (k, v0) :: tb_set rest idx v
  end.

Section WithBuiltins.
Context `{Builtins} `{Settings}.

(** The body of the [try] in [_tb_map] for one balance record: [Some
    None] is the [continue] of a record for another mint. *)
Definition tb_record (mint : option string) (tb : json)
  : exc (option (json * tb_entry)) :=
  m <- get tb "mint" ;;
  if differs_from_mint m mint then ret None
  else
    idx <- get tb "accountIndex" ;;
    owner <- get tb "owner" ;;
    u <- get tb "uiTokenAmount" ;;
    d <- get (or_ u (JObj [])) "decimals" ;;
    dec <- int (or_ d (JInt 0)) ;;
    u' <- get tb "uiTokenAmount" ;;
    a <- get (or_ u' (JObj [])) "amount" ;;
    amt <- int (or_ a (JStr "0")) ;;
    if hashable idx then ret (Some (idx, (owner, amt, dec))) else raise.

Fixpoint _tb_map_loop (mint : option string) (tbs : list json) (out : tb_dict)
  : tb_dict :=
  match tbs with
  | [] => out
  | tb :: rest =>
    match tb_record mint tb with
    | Some (Some (idx, v)) => _tb_map_loop mint rest (tb_set out idx v)
    | Some None | None => _tb_map_loop mint rest out
    end
  end.

Definition _tb_map (mint : option string) (tbs : json) : exc tb_dict :=
  l <- iter tbs ;;
  ret (_tb_map_loop mint l []).

(** The indices of [set(pre_map.keys()) | set(post_map.keys())], each
    once. *)
Definition union_keys (pre_map post_map : tb_dict) : list json :=
  (map fst pre_map
   ++ filter (fun k => match tb_get pre_map k with Some _ => false | None => true end)
             (map fst post_map))%list.

(** The contribution of one index to [delta_total]. *)
Definition delta_at (pre_map post_map : tb_dict) (owner_wallet : string)
                    (idx : json) : Z :=
  let pre_t := tb_get pre_map idx in
  let post_t := tb_get post_map idx in
  let owner := match post_t with
               | Some (o, _, _) => o
               | None => match pre_t with Some (o, _, _) => o | None => JNull end
               end in
  if negb (eq_str owner owner_wallet) then 0%Z
  else
    let pre_amt := match pre_t with Some (_, a, _) => a | None => 0%Z end in
    let post_amt := match post_t with Some (_, a, _) => a | None => 0%Z end in
    let dec := match post_t with
               | Some (_, _, d) => d
               | None => match pre_t with Some (_, _, d) => d | None => 0%Z end
               end in
    if negb (dec =? 6)%Z then 0%Z
    else
      let delta := (post_amt - pre_amt)%Z in
      if (0 <? delta)%Z then delta else 0%Z.

Definition _sum_usdc_delta_for_wallet (meta msg : json) (mint : option string)
                                      (owner_wallet : string) : exc Z :=
  _keys <- account_keys msg ;;
  pre0 <- get meta "preTokenBalances" ;;
  let pre := or_ pre0 (JList []) in
  post0 <- get meta "postTokenBalances" ;;
  let post := or_ post0 (JList []) in
  pre_map <- _tb_map mint pre ;;
  post_map <- _tb_map mint post ;;
  ret (fold_left (fun total idx =>
                    (total + delta_at pre_map post_map owner_wallet idx)%Z)
                 (union_keys pre_map post_map) 0%Z).

(** The first index [i] with [keys[i] == DONATION_WALLET]. *)
Fixpoint wallet_index (keys : list json) (i : nat) : option nat :=
  match keys with
  | [] => None
  | k :: rest => if eq_str k DONATION_WALLET then Some i else wallet_index rest (S i)
  end.

(** [x[idx] if idx < len(x) else None] *)
Definition balance_at (x : json) (idx : nat) : exc json :=
  n <- len x ;;
  if (idx <? n)%nat then item x idx else ret JNull.

(** The body of the [try] of [_find_matching_tx] for the reply [tx]:
    [true] is [return sig], [false] is a [continue] or the end of the
    body. *)
Definition tx_matches (reference : string) (inv : Invoice) (tx : json)
  : exc bool :=
  r <- get (or_ tx (JObj [])) "result" ;;
  let res := or_ r (JObj []) in
  t <- get res "transaction" ;;
  let msg := or_ t (JObj []) in
  m <- get res "meta" ;;
  let meta := or_ m (JObj []) in
  keys <- account_keys msg ;;
  if negb (existsb (fun k => eq_str k reference) keys) then ret false
  else if String.eqb (inv_asset inv) "SOL" then
    pre0 <- get meta "preBalances" ;;
    let pre := or_ pre0 (JList []) in
    post0 <- get meta "postBalances" ;;
    let post := or_ post0 (JList []) in
    match wallet_index keys 0 with
    | None => ret false
    | Some idx =>
      pre_bal <- balance_at pre idx ;;
      post_bal <- balance_at post idx ;;
      match pre_bal, post_bal with
      | JNull, _ | _, JNull => ret false
      | _, _ =>
        a <- number post_bal ;;
        b <- number pre_bal ;;
        ret (Rleb (IZR (inv_amount_base inv)) (a - b))
      end
    end
  else
    delta <- _sum_usdc_delta_for_wallet meta msg (inv_mint inv) DONATION_WALLET ;;
    ret (inv_amount_base inv <=? delta)%Z.

(** The loop [for ent in sigs["result"]]. *)
Fixpoint scan (ledger : Ledger) (reference : string) (inv : Invoice)
              (entries : list json) : exc (option json) :=
  match entries with
  | [] => ret None
  | ent :: rest =>
    sig <- get ent "signature" ;;
    let tx := transaction ledger sig in
    if try_except (tx_matches reference inv tx) false
    then ret (Some sig)
    else scan ledger reference inv rest
  end.

Definition _find_matching_tx (ledger : Ledger) (reference : string)
                             (inv : Invoice) : exc (option json) :=
  if negb (is_solana_address DONATION_WALLET) then ret None
  else
    let sigs := signatures ledger in
    if negb (truthy sigs) then ret None
    else
      has <- contains sigs "result" ;;
      if negb has then ret None
      else
        result <- item_str sigs "result" ;;
        entries <- iter result ;;
        scan ledger reference inv entries.

Definition set_status (inv : Invoice) (status : string) (sig : json) : Invoice :=
  {| inv_id := inv_id inv; inv_reference := inv_reference inv;
     inv_asset := inv_asset inv; inv_mint := inv_mint inv;
     inv_amount_base := inv_amount_base inv; inv_decimals := inv_decimals inv;
     inv_user_id := inv_user_id inv; inv_channel_id := inv_channel_id inv;
     inv_guild_id := inv_guild_id inv; inv_note := inv_note inv;
     inv_created_ts := inv_created_ts inv;
     inv_status := status; inv_tx_sig := sig |}.

(** The body of the loop [for inv in list(invoices)]: the invoice as the
    body leaves it and whether it set [changed]. *)
Definition check_invoice (now : R) (ledger : Ledger) (inv : Invoice)
  : exc (Invoice * bool) :=
  if negb (String.eqb (inv_status inv) "pending") then ret (inv, false)
  else if Rltb (IZR PAY_EXPIRY_SEC) (now - inv_created_ts inv) then
    ret (set_status inv "expired" (inv_tx_sig inv), true)
  else
    found <- _find_matching_tx ledger (inv_reference inv) inv ;;
    match found with
    | Some sig =>
      if truthy sig then ret (set_status inv "paid" sig, true)
      else ret (inv, false)
    | None => ret (inv, false)
    end.

(** One cycle of [payments_watcher] over the invoices, the [i]-th of them
    seeing the ledger [ledgers i]: the invoices as the cycle leaves them,
    whether one changed, and whether the cycle ran to its end ([false]
    when [_find_matching_tx] raised, which ends the watcher). *)
Fixpoint payments_cycle (now : R) (ledgers : nat -> Ledger) (i : nat)
                        (invoices : list Invoice)
  : list Invoice * bool * bool :=
  match invoices with
  | [] => ([], false, true)
  | inv :: rest =>
    match check_invoice now (ledgers i) inv with
    | None => (inv :: rest, false, false)
    | Some (inv', changed) =>
      let '(rest', changed', finished) := payments_cycle now ledgers (S i) rest in
      (inv' :: rest', (changed || changed')%bool, finished)
    end
  end.

End WithBuiltins.

End Payments.

(** * Specification-level notions *)

Module Spec.
Import Py Helpers Config Dex Models Alerts Storage Payments.

(** How many times a rule stands in a collection of rules. *)
Definition occurrences (rem : Reminder) (l : list Reminder) : nat :=
  List.length (filter (Reminder_eqb rem) l).

(** The events a sequence of firings recorded, oldest first. *)
Definition recorded_events (log : list Fire) : list AlertEvent :=
  flat_map fire_events log.

(** A firing recorded one event if its notification went out, none
    otherwise. *)
Definition one_event_if_delivered (f : Fire) : Prop :=
  List.length (fire_events f) = if fire_delivered f then 1%nat else 0%nat.

(** Newest first: no event is followed by a more recent one. *)
Definition newest_first_ordered (h : list AlertEvent) : Prop :=
  StronglySorted (fun a b => ev_ts b <= ev_ts a) h.

(** The components of a candidate. *)
Definition cand_pair (c : candidate) : json := let '(p, _, _, _, _) := c in p.
Definition cand_value (c : candidate) : option R := let '(_, mc, _, _, _) := c in mc.
Definition cand_liq (c : candidate) : R := let '(_, _, liq, _, _) := c in liq.
Definition cand_vol (c : candidate) : R := let '(_, _, _, vol, _) := c in vol.
Definition cand_src (c : candidate) : string := let '(_, _, _, _, src) := c in src.

(** The statistical sample of a candidate list: the values of the
    candidates that have one, in order. *)
Definition sample_of (cands : list candidate) : list R :=
  flat_map (fun c => match cand_value c with Some m => [m] | None => [] end) cands.

(** The median of a sample: the middle order statistic, the mean of the
    two middle ones for an even count. *)
Definition median (sample : list R) : R :=
  let s := sorted sample in
  let n := List.length s in
  if Nat.even n then (nth (n / 2 - 1) s 0 + nth (n / 2) s 0) / 2
  else nth (n / 2) s 0.

(** The [p]-quantile of an ascending sample [s] by linear interpolation
    between the two order statistics around position [(n - 1) p]. *)
Definition quantile (s : list R) (p : R) : R :=
  let k := (INR (List.length s) - 1) * p in
  let i := Z.to_nat (Int_part k) in
  nth i s 0 + (nth (S i) s 0 - nth i s 0) * (k - INR i).

(** With the logarithm taken without rounding: the values of a sample
    whose logarithm lies within one and a half inter-quartile ranges of
    the quartiles of the log-sample. *)
Definition surviving (sample : list R) : list R :=
  let logs := sorted (map log10 sample) in
  let q1 := quantile logs 0.25 in
  let q3 := quantile logs 0.75 in
  let iqr := q3 - q1 in
  filter (fun v => (Rleb (q1 - 1.5 * iqr) (log10 v)
                    && Rleb (log10 v) (q3 + 1.5 * iqr))%bool) sample.

(** The consensus of a sample of positive values in the words of the
    specification, when restoring a logarithm from log scale gives the
    value back. *)
Definition consensus (sample : list R) : R :=
  if (3 <=? List.length sample)%nat then
    if (2 <=? List.length (surviving sample))%nat
    then median (surviving sample)
    else median sample
  else median sample.



(** The value [collect] keeps of what [resolve_mc_value] returned. *)
Definition usable (mc : option R) : option R :=
  match mc with
  | Some m => if (negb (Reqb m 0) && Rltb 0 m)%bool then Some m else None
  | None => None
  end.

(** Deviation of a value from the consensus: relative when the consensus
    is positive, absolute otherwise. *)
Definition deviation (consensus m : R) : R :=
  if Rltb 0 consensus then Rabs (m - consensus) / consensus
  else Rabs (m - consensus).

(** A candidate with value [m] is at least as good a representative as
    one with value [m']: it deviates less, or as much with more
    liquidity, or as much with the same liquidity and no less volume. *)
Definition at_least_as_good (consensus : R) (m : R) (c : candidate)
                            (m' : R) (c' : candidate) : Prop :=
  deviation consensus m < deviation consensus m'
  \/ (deviation consensus m = deviation consensus m'
      /\ (cand_liq c > cand_liq c'
          \/ (cand_liq c = cand_liq c' /\ cand_vol c >= cand_vol c'))).

(** Keys in lexicographic order. *)
Definition key_less (a b : key) : Prop :=
  let '(a1, a2, a3) := a in
  let '(b1, b2, b3) := b in
  a1 < b1 \/ (a1 = b1 /\ (a2 < b2 \/ (a2 = b2 /\ a3 < b3))).

Definition key_le (a b : key) : Prop :=
  let '(a1, a2, a3) := a in
  let '(b1, b2, b3) := b in
  a1 < b1 \/ (a1 = b1 /\ (a2 < b2 \/ (a2 = b2 /\ a3 <= b3))).

(** [float] and [int] of strings restricted to unsigned decimal numerals:
    enough of the two parsers to run the program on concrete feeds. *)
Definition digit (c : ascii) : option Z :=
  let n := nat_of_ascii c in
  if (Nat.leb 48 n && Nat.leb n 57)%bool then Some (Z.of_nat (n - 48)) else None.

Fixpoint numeral (s : string) (acc : Z) : option Z :=
  match s with
  | EmptyString => Some acc
  | String c rest =>
    match digit c with
    | Some d => numeral rest (10 * acc + d)%Z
    | None => None
    end
  end.

Definition unsigned (s : string) : option Z :=
  match s with
  | EmptyString => None
  | _ => numeral s 0%Z
  end.

#[export] Instance decimal : Builtins := {|
  float_of_str s := option_map IZR (unsigned s);
  int_of_str := unsigned
|}.

Section Resolver.
Context `{Builtins}.

(** Field [key] of the pair is accepted with value [f]: it is present and
    converts to the float [f], strictly positive. *)
Definition accepted (kv : list (string * json)) (key : string) (f : R) : Prop :=
  exists v, lookup kv key = Some v /\ float v = Some f /\ 0 < f.



(** Diluted valuation is the configured preference for the chain the
    pair names. *)
Definition chain_prefers_fdv (kv : list (string * json)) : bool :=
  (SOLANA_USE_FDV
   && match lookup kv "chainId" with
      | Some c => eq_str c "solana"
      | None => false
      end)%bool.

(** The same, a token identifier in the Solana alphabet counting as a
    pair on that chain. *)
Definition prefers_fdv (kv : list (string * json)) (ca : string) : bool :=
  (chain_prefers_fdv kv || (SOLANA_USE_FDV && is_solana_address ca))%bool.

End Resolver.

Section Transactions.
Context `{Builtins} `{Settings}.

(** The message and the balance metadata of a [getTransaction] reply. *)
Definition tx_parts (tx : json) : exc (json * json) :=
  r <- get (or_ tx (JObj [])) "result" ;;
  let res := or_ r (JObj []) in
  t <- get res "transaction" ;;
  m <- get res "meta" ;;
  ret (or_ t (JObj []), or_ m (JObj [])).

(** The account-key list of a transaction includes the reference. *)
Definition includes_reference (tx : json) (reference : string) : bool :=
  match ('(msg, _) <- tx_parts tx ;; account_keys msg) with
  | Some keys => existsb (fun k => eq_str k reference) keys
  | None => false
  end.

(** Post-minus-pre balance of the recipient wallet in the native asset. *)
Definition native_delta (tx : json) : exc R :=
  '(msg, meta) <- tx_parts tx ;;
  keys <- account_keys msg ;;
  pre0 <- get meta "preBalances" ;;
  post0 <- get meta "postBalances" ;;
  match wallet_index keys 0 with
  | None => raise
  | Some idx =>
    pre_bal <- balance_at (or_ pre0 (JList [])) idx ;;
    post_bal <- balance_at (or_ post0 (JList [])) idx ;;
    post <- number post_bal ;;
    pre <- number pre_bal ;;
    ret (post - pre)
  end.

(** The token balances of a transaction for a mint, before and after, by
    account index. *)
Definition token_maps (tx : json) (mint : option string) : exc (tb_dict * tb_dict) :=
  '(_, meta) <- tx_parts tx ;;
  pre0 <- get meta "preTokenBalances" ;;
  post0 <- get meta "postTokenBalances" ;;
  pre_map <- _tb_map mint (or_ pre0 (JList [])) ;;
  post_map <- _tb_map mint (or_ post0 (JList [])) ;;
  ret (pre_map, post_map).

(** Post-minus-pre token balance of one account, when the account is
    owned by the wallet and quoted with six decimals. *)
Definition owned_delta (pre_map post_map : tb_dict) (wallet : string)
                       (idx : json) : option Z :=
  let pre_t := tb_get pre_map idx in
  let post_t := tb_get post_map idx in
  let latest := match post_t with Some t => Some t | None => pre_t end in
  match latest with
  | Some (owner, _, dec) =>
    if (eq_str owner wallet && (dec =? 6)%Z)%bool then
      Some (match post_t with Some (_, a, _) => a | None => 0 end
            - match pre_t with Some (_, a, _) => a | None => 0 end)%Z
    else None
  | None => None
  end.

(** The summed delta over the accounts of the wallet, and the sum of the
    deltas that are gains. *)
Definition net_delta (pre_map post_map : tb_dict) (wallet : string) : Z :=
  fold_right Z.add 0%Z
    (map (fun idx => match owned_delta pre_map post_map wallet idx with
                     | Some d => d
                     | None => 0%Z
                     end) (union_keys pre_map post_map)).

Definition gains (pre_map post_map : tb_dict) (wallet : string) : Z :=
  fold_right Z.add 0%Z
    (map (fun idx => match owned_delta pre_map post_map wallet idx with
                     | Some d => Z.max 0 d
                     | None => 0%Z
                     end) (union_keys pre_map post_map)).


End Transactions.

End Spec.

(** * Concrete feeds *)

Module Examples.
Import Py Helpers Config Dex Models Alerts Storage Payments Spec.

(** A token identifier in the Solana alphabet and one that is not. *)
Definition sol_ca : string := "So11111111111111111111111111111111111111112".
Definition evm_ca : string := "0xabc".



(** A feed with one pair for [evm_ca] that carries no valuation. *)
Definition bare_pair : json :=
  JObj [("baseToken", JObj [("address", JStr "0xabc")])].

(** A pair for [evm_ca] quoting the market cap [mc] with liquidity [liq]
    and 24-hour volume [vol]. *)
Definition quoted (mc liq vol : Z) : json :=
  JObj [("chainId", JStr "ethereum"); ("dexId", JStr "uniswap");
        ("baseToken", JObj [("address", JStr "0xAbC")]);
        ("marketCap", JInt mc);
        ("liquidity", JObj [("usd", JInt liq)]);
        ("volume", JObj [("h24", JInt vol)])].

(** Four quotes, one of them far off. *)
Definition feed : list json :=
  [quoted 100 5 1; quoted 105 7 1; quoted 110 1 1; quoted 1000000 9 1].





(** Two quotes as far from their consensus, the second with more
    liquidity. *)
Definition tied_feed : list json := [quoted 100 5 1; quoted 110 7 1].

Definition tied_candidates : list candidate :=
  [(quoted 100 5 1, Some 100, 5, 1, "marketCap");
   (quoted 110 7 1, Some 110, 7, 1, "marketCap")].

(** A rule on [evm_ca], a cache in which the token is above its target,
    and a world in which no notification goes out. *)
Definition rule : Reminder :=
  {| rem_ca := evm_ca; rem_target_mc := 100; rem_direction := "above";
     rem_channel_id := 1; rem_creator_id := 3; rem_guild_id := 2;
     rem_name := "Token"; rem_symbol := "TKN"; rem_note := "" |}.

Definition cache_above (ca : string) : option TokenSnapshot :=
  Some {| snap_mc := Some 120; snap_url := "https://dexscreener.com";
          snap_image_url := "" |}.

Definition unreachable_channel : World :=
  {| delivered := fun _ => false; clock := fun _ => 0;
     reminders_saved := fun _ => true |}.

Definition reachable_channel : World :=
  {| delivered := fun _ => true; clock := fun _ => 0;
     reminders_saved := fun _ => true |}.

Definition rule_event : AlertEvent :=
  {| ev_ts := 0; ev_ca := evm_ca; ev_name := "Token"; ev_symbol := "TKN";
     ev_direction := "above"; ev_target_mc := 100; ev_current_mc := Some 120;
     ev_channel_id := 1; ev_guild_id := 2; ev_creator_id := 3 |}.

Definition rule_fire : Fire :=
  {| fire_rule := rule; fire_delivered := true; fire_events := [rule_event] |}.

Definition watching : Store := {| reminders := [rule]; alert_events := [] |}.
Definition fired : Store := {| reminders := []; alert_events := [rule_event] |}.

(** The payment watcher of a bot whose wallet is [sol_ca]. *)
#[export] Instance settings : Settings := {|
  DONATION_WALLET := sol_ca;
  PAY_EXPIRY_SEC := 1800
|}.

Definition usdc : string := "EPjFWdd5AufqSSqeM2qN1xzybapC8G4wEGGkZwyTDt1v".

Definition sol_invoice : Invoice :=
  {| inv_id := "a1b2c3"; inv_reference := "ref-1"; inv_asset := "SOL";
     inv_mint := None; inv_amount_base := 5000; inv_decimals := 9;
     inv_user_id := 3; inv_channel_id := 1; inv_guild_id := 2; inv_note := "";
     inv_created_ts := 0; inv_status := "pending"; inv_tx_sig := JStr "" |}.

Definition usdc_invoice : Invoice :=
  {| inv_id := "d4e5f6"; inv_reference := "ref-2"; inv_asset := "USDC";
     inv_mint := Some usdc; inv_amount_base := 5; inv_decimals := 6;
     inv_user_id := 3; inv_channel_id := 1; inv_guild_id := 2; inv_note := "";
     inv_created_ts := 0; inv_status := "pending"; inv_tx_sig := JStr "" |}.

(** The reply for a transaction that carries [ref-1] and moves the native
    balance of the wallet from [pre] to [post]. *)
Definition transfer (pre post : Z) : json :=
  JObj [("result",
    JObj [("transaction",
             JObj [("message",
                      JObj [("accountKeys", JList [JStr sol_ca; JStr "ref-1"])])]);
          ("meta",
             JObj [("preBalances", JList [JInt pre; JInt 0]);
                   ("postBalances", JList [JInt post; JInt 0])])])].

(** A ledger on which [ref-1] was paid twice. *)
Definition paid_twice : Ledger :=
  {| signatures :=
       JObj [("result", JList [JObj [("signature", JStr "sig-1")];
                               JObj [("signature", JStr "sig-2")]])];
     transaction := fun sig =>
       if eq_str sig "sig-1" then transfer 1000 6000
       else if eq_str sig "sig-2" then transfer 6000 11000
       else JNull |}.


Definition token_balance (idx : Z) (amount : string) : json :=
  JObj [("accountIndex", JInt idx); ("mint", JStr usdc); ("owner", JStr sol_ca);
        ("uiTokenAmount", JObj [("amount", JStr amount); ("decimals", JInt 6)])].

(** The reply for a transaction that carries [ref-2] and moves ten base
    units of the token from one account of the wallet to another. *)
Definition shuffle : json :=
  JObj [("result",
    JObj [("transaction",
             JObj [("message",
                      JObj [("accountKeys", JList [JStr sol_ca; JStr "ref-2"])])]);
          ("meta",
             JObj [("preTokenBalances",
                      JList [token_balance 1 "10"; token_balance 2 "0"]);
                   ("postTokenBalances",
                      JList [token_balance 1 "0"; token_balance 2 "10"])])])].

Definition shuffle_before : tb_dict :=
  [(JInt 1, (JStr sol_ca, 10%Z, 6%Z)); (JInt 2, (JStr sol_ca, 0%Z, 6%Z))].
Definition shuffle_after : tb_dict :=
  [(JInt 1, (JStr sol_ca, 0%Z, 6%Z)); (JInt 2, (JStr sol_ca, 10%Z, 6%Z))].

(** An event recorded when the clock read [ts]. *)
Definition event_at (ts : R) : AlertEvent :=
  {| ev_ts := ts; ev_ca := evm_ca; ev_name := "Token"; ev_symbol := "TKN";
     ev_direction := "above"; ev_target_mc := 100; ev_current_mc := Some 120;
     ev_channel_id := 1; ev_guild_id := 2; ev_creator_id := 3 |}.

Definition some_event : AlertEvent :=
  {| ev_ts := 0; ev_ca := evm_ca; ev_name := "Token"; ev_symbol := "TKN";
     ev_direction := "above"; ev_target_mc := 100; ev_current_mc := Some 120;
     ev_channel_id := 1; ev_guild_id := 2; ev_creator_id := 3 |}.

End Examples.

(** ** dex.py: links and images *)

Module Links.
Import Py Helpers Dex.

(** [str.upper()] on ASCII text. *)
Definition upper_ascii (c : ascii) : ascii :=
  let n := nat_of_ascii c in
  if (Nat.leb 97 n && Nat.leb n 122)%bool then ascii_of_nat (n - 32) else c.

Fixpoint upper_string (s : string) : string :=
  match s with
  | EmptyString => EmptyString
  | String c rest => String (upper_ascii c) (upper_string rest)
  end.

(** [x.upper()]; AttributeError unless [x] is a string. *)
Definition upper (x : json) : exc string :=
  match x with
  | JStr s => ret (upper_string s)
  | _ => raise
  end.

Definition get_image_url (pair : json) (ca : string) : exc string :=
  i <- get pair "info" ;;
  iu <- get (or_ i (JObj [])) "imageUrl" ;;
  img <- (if truthy iu then ret iu
          else b <- get pair "baseToken" ;; get (or_ b (JObj [])) "logoURI") ;;
  ret (match img with
       | JStr s =>
         if (truthy img && String.prefix "http" s)%bool then s
         else "https://robohash.org/" ++ ca ++ ".png?size=200x200&set=set1"
       | _ => "https://robohash.org/" ++ ca ++ ".png?size=200x200&set=set1"
       end).

Definition build_token_url (ca : string) (pair : option json) : exc json :=
  if is_solana_address ca then ret (JStr ("https://gmgn.ai/sol/token/" ++ ca))
  else
    match pair with
    | Some p =>
      if truthy p then
        u <- get p "url" ;;
        if truthy u then get p "url" else ret (JStr "https://dexscreener.com")
      else ret (JStr "https://dexscreener.com")
    | None => ret (JStr "https://dexscreener.com")
    end.

End Links.

(** ** dex.py: liquidity venues *)

Module Venues.
Import Py Helpers Dex Links.

(** The tables of [constants.py] the aggregator reads: the venues it
    reports on and the aliases of venue identifiers. *)
Class Tables : Type := {
  LP_VENUES : list string;
  DEX_ALIASES : list (string * string)
}.

(** What is added up for one venue. *)
Record Totals : Type := {
  pools : Z;
  liq : R;
  vol : R;
  tx : Z;
  quotes : list (string * Z);
  best_url : json;
  best_liq : R
}.

(** [math.log10]: ValueError unless the argument is positive. *)
Definition math_log10 (x : R) : exc R :=
  if Rltb 0 x then ret (log10 x) else raise.

Definition _lp_score (liq vol : R) (tx : Z) : exc R :=
  a <- math_log10 (1 + liq) ;;
  b <- math_log10 (1 + vol) ;;
  c <- math_log10 (1 + IZR tx) ;;
  ret (a * 0.5 + b * 0.4 + c * 0.2).

Fixpoint alias_of (aliases : list (string * string)) (key : string) : option string :=
  match aliases with
  | [] => None
  | (k, v) :: rest => if String.eqb k key then Some v else alias_of rest key
  end.

(** [quotes[quote] = quotes.get(quote, 0) + 1] *)
Fixpoint count_quote (quotes : list (string * Z)) (quote : string)
  : list (string * Z) :=
  match quotes with
  | [] => [(quote, 1%Z)]
  | (q, n) :: rest =>
    if String.eqb q quote then (q, (n + 1)%Z) :: rest
    else (q, n) :: count_quote rest quote
  end.

(** The updates of the entry [a] of a venue for one pool. *)
Definition add_pool (a : Totals) (liq' vol' : R) (txc : Z) (quote : string)
                    (url : json) : Totals :=
  let quotes' := if negb (String.eqb quote "") then count_quote (quotes a) quote
                 else quotes a in
  let better := Rltb (best_liq a) liq' in
  {| pools := pools a + 1; liq := liq a + liq'; vol := vol a + vol';
     tx := tx a + txc; quotes := quotes';
     best_url := if better then url else best_url a;
     best_liq := if better then liq' else best_liq a |}.

(** [agg.setdefault(venue, init)] followed by the updates [step] of the
    entry: a new venue goes to the end. *)
Fixpoint upsert (agg : list (string * Totals)) (venue : string)
                (init : Totals) (step : Totals -> Totals)
  : list (string * Totals) :=
  match agg with
  | [] => [(venue, step init)]
  | (v, a) :: rest =>
    if String.eqb v venue then (v, step a) :: rest
    else (v, a) :: upsert rest venue init step
  end.

Section WithTables.
Context `{Builtins} `{Tables}.

Definition _dex_alias (p : json) : exc string :=
  d <- get p "dexId" ;;
  key <- lower (or_ d (JStr "")) ;;
  d' <- get p "dexId" ;;
  default <- lower (or_ d' (JStr "")) ;;
  ret (match alias_of DEX_ALIASES key with
       | Some v => v
       | None => default
       end).

(** The first loop of [summarize_lp_venues]. *)
Fixpoint aggregate (flt : list json) (ca : string) (agg : list (string * Totals))
  : exc (list (string * Totals)) :=
  match flt with
  | [] => ret agg
  | p :: rest =>
    venue <- _dex_alias p ;;
    if negb (existsb (String.eqb venue) LP_VENUES) then aggregate rest ca agg
    else
      '(liq', vol', txc) <- _liq_vol_tx p ;;
      q <- get p "quoteToken" ;;
      sym <- get (or_ q (JObj [])) "symbol" ;;
      quote <- upper (or_ sym (JStr "")) ;;
      u <- get p "url" ;;
      url <- (if truthy u then ret u else build_token_url ca (Some p)) ;;
      let init := {| pools := 0; liq := 0; vol := 0; tx := 0; quotes := [];
                     best_url := url; best_liq := 0 |} in
      aggregate rest ca
        (upsert agg venue init (fun a => add_pool a liq' vol' txc quote url))
  end.

(** The second loop: the score of every venue. *)
Fixpoint with_scores (agg : list (string * Totals))
  : exc (list (string * (Totals * R))) :=
  match agg with
  | [] => ret []
  | (v, a) :: rest =>
    s <- _lp_score (liq a) (vol a) (tx a) ;;
    rest' <- with_scores rest ;;
    ret ((v, (a, s)) :: rest')
  end.

(** The sort key [(-score, -liq, -vol)] of a scored venue. *)
Definition rank_key (e : string * (Totals * R)) : key :=
  let '(_, (a, s)) := e in (- s, - liq a, - vol a).

(** [sorted(agg.items(), key=...)]: ascending in the key, venues with
    the same key in their order. *)
Fixpoint insert_ranked (e : string * (Totals * R))
                       (l : list (string * (Totals * R)))
  : list (string * (Totals * R)) :=
  match l with
  | [] => [e]
  | y :: rest =>
    if key_lt (rank_key y) (rank_key e) then y :: insert_ranked e rest
    else e :: l
  end.

Fixpoint ranked (l : list (string * (Totals * R)))
  : list (string * (Totals * R)) :=
  match l with
  | [] => []
  | e :: rest => insert_ranked e (ranked rest)
  end.

Definition summarize_lp_venues (pairs : list json) (ca : string)
  : exc (list (string * (Totals * R)) * option (string * (Totals * R))) :=
  flt <- select_pairs pairs ca ;;
  match flt with
  | [] => ret ([], None)
  | _ =>
    agg <- aggregate flt ca [] ;;
    scored <- with_scores agg ;;
    ret (scored, hd_error (ranked scored))
  end.

End WithTables.

End Venues.

(** ** solana.py: references *)

Module Solana.
Import Py Helpers.

Section WithAlphabet.

(** [BASE58_ALPHABET] of [constants.py]. *)
Variable BASE58_ALPHABET : string.

(** [int.from_bytes(raw, "big")] *)
Definition from_bytes (raw : list Byte.byte) : Z :=
  fold_left (fun acc b => (acc * 256 + Z.of_N (Byte.to_N b))%Z) raw 0%Z.

(** [s[i]] on a string; IndexError out of range. *)
Definition char_at (s : string) (i : Z) : exc ascii :=
  Py.index (list_ascii_of_string s) i.

(** The [while n > 0] loop, which [fuel] iterations are enough for. *)
Fixpoint encode (fuel : nat) (n : Z) (out : string) : exc string :=
  if (0 <? n)%Z then
    match fuel with
    | O => raise
    | S fuel' =>
      c <- char_at BASE58_ALPHABET (n mod 58) ;;
      encode fuel' (n / 58) (String c out)
    end
  else ret out.

(** [raw.lstrip(b"\x00")] *)
Fixpoint lstrip_zeros (raw : list Byte.byte) : list Byte.byte :=
  match raw with
  | b :: rest => if Byte.eqb b Byte.x00 then lstrip_zeros rest else raw
  | [] => []
  end.

(** ["1" * k] *)
Fixpoint ones (k : nat) : string :=
  match k with
  | O => ""
  | S k' => String "1"%char (ones k')
  end.

(** [_random_pubkey] on the bytes [raw] drawn by [secrets.token_bytes]. *)
Definition _random_pubkey (raw : list Byte.byte) : exc string :=
  let n := from_bytes raw in
  out <- encode (8 * List.length raw)%nat n "" ;;
  let lead_zeros := (List.length raw - List.length (lstrip_zeros raw))%nat in
  ret (ones lead_zeros ++ (if String.eqb out "" then "1" else out)).

(** payments.py: [new_invoice_id]. *)
Definition new_invoice_id (raw : list Byte.byte) : exc string :=
  s <- _random_pubkey raw ;;
  ret (substring 0 6 s).

End WithAlphabet.

End Solana.

(** ** alerts.py: the refresh part of one [watcher] cycle *)

Module Refresh.
Import Py Helpers Dex Links.

(** A [TokenSnapshot] as the watcher builds it. *)
Record Snapshot : Type := {
  tok_mc : option R;
  tok_url : json;
  tok_updated_ts : R;
  tok_source : string;
  tok_dex : json;
  tok_chain : json;
  tok_quote : string;
  tok_consensus : R;
  tok_delta : option R;
  tok_image_url : string
}.

Section WithBuiltins.
Context `{Builtins} `{Libm}.

(** [choose_consensus_pair] on the value of ["pairs"], which is not empty:
    the loop over anything but a list of pairs raises at its first turn. *)
Definition choose_on (pairs : json) (ca : string)
  : exc (option json * R * list candidate) :=
  match pairs with
  | JList l => choose_consensus_pair l ca
  | _ => raise
  end.

(** [abs((mc_val or 0) - cons) if mc_val and cons else None] *)
Definition deviation_of (mc_val : option R) (cons' : R) : option R :=
  match mc_val with
  | Some m =>
    if (negb (Reqb m 0) && negb (Reqb cons' 0))%bool then Some (Rabs (m - cons'))
    else None
  | None => None
  end.

(** The snapshot written to the cache for [ca] from the reply [data] of
    the provider ([JNull] for a fetch that gave nothing). *)
Definition refresh (now : R) (data : json) (ca : string) : exc Snapshot :=
  '(mc_val, src, link, dex, chain, quote, cons', img) <-
    match data with
    | JObj kv =>
      pairs <- get data "pairs" ;;
      if truthy pairs then
        '(best, consensus, _) <- choose_on pairs ca ;;
        match best with
        | Some b =>
          if truthy b then
            '(mc_val, src) <- resolve_mc_value b ca ;;
            link <- build_token_url ca (Some b) ;;
            dex <- get_default b "dexId" (JStr "") ;;
            chain <- get_default b "chainId" (JStr "") ;;
            q <- get b "quoteToken" ;;
            sym <- get (or_ q (JObj [])) "symbol" ;;
            quote <- upper (or_ sym (JStr "")) ;;
            img <- get_image_url b ca ;;
            ret (mc_val, src, link, dex, chain, quote, consensus,
                 if String.eqb img "" then "" else img)
          else ret (None, "none", JNull, JStr "", JStr "", "", consensus, "")
        | None => ret (None, "none", JNull, JStr "", JStr "", "", consensus, "")
        end
      else ret (None, "none", JNull, JStr "", JStr "", "", 0, "")
    | _ => ret (None, "none", JNull, JStr "", JStr "", "", 0, "")
    end ;;
  url <- (if truthy link then ret link else build_token_url ca None) ;;
  ret {| tok_mc := mc_val; tok_url := url; tok_updated_ts := now;
         tok_source := src; tok_dex := dex; tok_chain := chain;
         tok_quote := quote; tok_consensus := cons';
         tok_delta := deviation_of mc_val cons'; tok_image_url := img |}.

End WithBuiltins.

End Refresh.

(** ** bot.py: the alert commands *)

Module Bot.
Import Py Helpers Models Alerts Storage.

(** The direction [/mc] gives a new alert for the target and the value
    the token has at that time. *)
Definition alert_direction (target_val : R) (mc_now_val : option R) : string :=
  match mc_now_val with
  | None => "above"
  | Some mc => if Rltb target_val mc then "below" else "above"
  end.

(** How [/mc_remove] ends. *)
Inductive Removal : Type :=
| Invalid
| Denied
| Removed (rem : Reminder).

(** [/mc_remove] for the guild [gid], asked by [user_id], who may or may
    not manage the guild: the rules left in memory and how the command
    ended.  The replies sent to the user and the saving of the file are
    left out. *)
Definition mc_remove (gid index user_id : Z) (can_manage : bool)
                     (reminders : list Reminder)
  : exc (list Reminder * Removal) :=
  let sr := filter (fun r => (rem_guild_id r =? gid)%Z) reminders in
  if ((index <? 1) || (Z.of_nat (List.length sr) <? index))%Z%bool
  then ret (reminders, Invalid)
  else
    rem <- Py.index sr (index - 1) ;;
    if (negb (user_id =? rem_creator_id rem)%Z && negb can_manage)%bool
    then ret (reminders, Denied)
    else
      reminders' <- remove rem reminders ;;
      ret (reminders', Removed rem).

(** The events [/mc_recent] shows for the guild [gid], the optional
    creator [user] and the optional [count]. *)
Definition mc_recent (gid : Z) (user : option Z) (count : option Z)
                     (alert_events : list AlertEvent) : list AlertEvent :=
  let evs := filter (fun e => (ev_guild_id e =? gid)%Z) alert_events in
  let evs := match user with
             | Some uid => filter (fun e => (ev_creator_id e =? uid)%Z) evs
             | None => evs
             end in
  let evs := newest_first evs in
  let wanted := match count with
                | Some c => if (c =? 0)%Z then 5%Z else c
                | None => 5%Z
                end in
  let n := Z.max 1 (Z.min wanted 50) in
  firstn (Z.to_nat n) evs.

(** [enumerate(l, start)] *)
Fixpoint enumerate {A} (l : list A) (start : Z) : list (Z * A) :=
  match l with
  | [] => []
  | x :: rest => (start, x) :: enumerate rest (start + 1)
  end.

(** [/mc_list] for the guild [gid] and the optional creator [user]: the
    alerts behind the rows of the two tables, breakouts and pullbacks,
    each with the index its row shows; [None] when there is no alert to
    list. *)
Definition mc_list (gid : Z) (user : option Z) (reminders : list Reminder)
  : option (list (Z * Reminder) * list (Z * Reminder)) :=
  let sr := filter (fun r => (rem_guild_id r =? gid)%Z) reminders in
  let sr := match user with
            | Some uid => filter (fun r => (rem_creator_id r =? uid)%Z) sr
            | None => sr
            end in
  match sr with
  | [] => None
  | _ =>
    let rows := enumerate sr 1 in
    Some (filter (fun ir => String.eqb (rem_direction (snd ir)) "above") rows,
          filter (fun ir => negb (String.eqb (rem_direction (snd ir)) "above")) rows)
  end.

(** [max(mine, key=lambda x: x.created_ts)] on a list that is not empty:
    the first of the most recent invoices. *)
Fixpoint latest_from (best : Invoice) (l : list Invoice) : Invoice :=
  match l with
  | [] => best
  | x :: rest =>
    if Rltb (inv_created_ts best) (inv_created_ts x) then latest_from x rest
    else latest_from best rest
  end.

(** [/pay_status] asked by [user_id] in the guild [gid]: the invoice
    reported, [None] when the user has no payment there. *)
Definition pay_status (gid user_id : Z) (invoice_id : option string)
                      (invoices : list Invoice) : option Invoice :=
  let mine := filter (fun i => ((inv_guild_id i =? gid)%Z
                                && (inv_user_id i =? user_id)%Z)%bool) invoices in
  match mine with
  | [] => None
  | first :: rest =>
    let inv := match invoice_id with
               | Some id =>
                 if negb (String.eqb id "")
                 then find (fun i => String.eqb (inv_id i) id) mine
                 else None
               | None => None
               end in
    match inv with
    | Some i => Some i
    | None => Some (latest_from first rest)
    end
  end.

(** [records.sort(key=lambda x: x.created_ts, reverse=True)]: newest
    first, invoices of the same time in their order. *)
Fixpoint insert_by_created (i : Invoice) (l : list Invoice) : list Invoice :=
  match l with
  | [] => [i]
  | y :: rest =>
    if Rltb (inv_created_ts i) (inv_created_ts y) then y :: insert_by_created i rest
    else i :: l
  end.

Fixpoint newest_invoices (l : list Invoice) : list Invoice :=
  match l with
  | [] => []
  | i :: rest => insert_by_created i (newest_invoices rest)
  end.

(** [l[:k]] *)
Definition slice_to {A} (l : list A) (k : Z) : list A :=
  if (0 <=? k)%Z then firstn (Z.to_nat k) l
  else firstn (Z.to_nat (Z.of_nat (List.length l) + k)) l.

(** How [/pay_list] ends. *)
Inductive Listing : Type :=
| Refused
| Nothing
| Shown (records : list Invoice).

(** [/pay_list] asked by [user_id] in the guild [gid]; [member_ok] tells
    whether the user manages or administers the guild. *)
Definition pay_list (gid user_id : Z) (member_ok : bool)
                    (scope status : option string) (limit : option Z)
                    (invoices : list Invoice) : Listing :=
  let scope_val := match scope with Some v => v | None => "mine" end in
  if (String.eqb scope_val "server" && negb member_ok)%bool then Refused
  else
    let records := filter (fun i => (inv_guild_id i =? gid)%Z) invoices in
    let records :=
      if String.eqb scope_val "mine"
      then filter (fun i => (inv_user_id i =? user_id)%Z) records
      else records in
    let records := match status with
                   | Some v => filter (fun i => String.eqb (inv_status i) v) records
                   | None => records
                   end in
    let records := newest_invoices records in
    let wanted := match limit with
                  | Some l => if (l =? 0)%Z then 15%Z else l
                  | None => 15%Z
                  end in
    match slice_to records wanted with
    | [] => Nothing
    | shown => Shown shown
    end.

End Bot.

(** * Further notions *)

Module Notions.
Import Py Helpers Config Dex Models Alerts Storage Payments Spec Links Refresh.

(** The address test [choose_consensus_pair] applies for a token
    identifier, and the pairs it lets through. *)
Definition address_test (ca : string) (p : json) : exc bool :=
  if is_solana_address ca then on_solana_with_address ca p
  else with_address_nocase (lower_string ca) p.

Definition selected (ca : string) (p : json) : bool :=
  match address_test ca p, _not_blacklisted p with
  | Some true, Some true => true
  | _, _ => false
  end.

(** The reply of the provider carries no pairs: it is not a dict, or its
    ["pairs"] are missing or empty. *)
Definition no_pairs (data : json) : Prop :=
  match data with
  | JObj kv =>
    match lookup kv "pairs" with
    | Some v => truthy v = false
    | None => True
    end
  | _ => True
  end.

(** The link of a token when no pair supplies one. *)
Definition default_link (ca : string) : json :=
  if is_solana_address ca then JStr ("https://gmgn.ai/sol/token/" ++ ca)
  else JStr "https://dexscreener.com".

(** Sums over pairs, added up from zero in the order of the pairs. *)
Definition sum_R (f : json -> R) (ps : list json) : R :=
  fold_left (fun acc p => acc + f p) ps 0.

Definition sum_Z (f : json -> Z) (ps : list json) : Z :=
  fold_left (fun acc p => (acc + f p)%Z) ps 0%Z.

Section Ranking.
Context `{Builtins} `{Venues.Tables}.

(** The pair is listed on venue [v], once aliases are resolved. *)
Definition on_venue (v : string) (p : json) : bool :=
  match Venues._dex_alias p with
  | Some v' => String.eqb v' v
  | None => false
  end.

(** Liquidity, 24-hour volume and 24-hour transaction count of a pair. *)
Definition liq_of (p : json) : R :=
  match _liq_vol_tx p with Some (l, _, _) => l | None => 0 end.

Definition vol_of (p : json) : R :=
  match _liq_vol_tx p with Some (_, v, _) => v | None => 0 end.

Definition tx_of (p : json) : Z :=
  match _liq_vol_tx p with Some (_, _, t) => t | None => 0%Z end.

(** What the aggregator holds once the pairs [done] are through: one
    entry for each reported venue with a pair among them, holding their
    number and their sums. *)
Definition tallied (done : list json) (agg : list (string * Venues.Totals)) : Prop :=
  NoDup (map fst agg)
  /\ (forall v, In v (map fst agg)
                <-> In v Venues.LP_VENUES /\ existsb (on_venue v) done = true)
  /\ (forall v a, In (v, a) agg ->
        let ps := filter (on_venue v) done in
        Venues.pools a = Z.of_nat (List.length ps)
        /\ Venues.liq a = sum_R liq_of ps
        /\ Venues.vol a = sum_R vol_of ps
        /\ Venues.tx a = sum_Z tx_of ps).

End Ranking.

(** A scored venue is at least as good a recommendation as another: a
    higher score, or the same score with more liquidity, or the same score
    and liquidity with no less volume. *)
Definition ranks_before (e e' : string * (Venues.Totals * R)) : Prop :=
  let '(_, (a, s)) := e in
  let '(_, (a', s')) := e' in
  s > s'
  \/ (s = s'
      /\ (Venues.liq a > Venues.liq a'
          \/ (Venues.liq a = Venues.liq a' /\ Venues.vol a >= Venues.vol a'))).

(** The digit a character stands for, as its first position in the
    alphabet, and the number a string of such digits writes in base 58. *)
Fixpoint digit_of (c : ascii) (alphabet : list ascii) : Z :=
  match alphabet with
  | [] => 0
  | d :: rest => if Ascii.eqb d c then 0 else 1 + digit_of c rest
  end%Z.

Definition base58_value (alphabet : string) (s : string) : Z :=
  fold_left (fun acc c => (acc * 58 + digit_of c (list_ascii_of_string alphabet))%Z)
            (list_ascii_of_string s) 0%Z.

(** Invoices newest first: none is followed by a more recent one. *)
Definition newest_invoices_ordered (h : list Invoice) : Prop :=
  StronglySorted (fun a b => inv_created_ts b <= inv_created_ts a) h.

(** An invoice of the collection that the user [user_id] made in the
    guild [gid]. *)
Definition own_invoice (gid user_id : Z) (invoices : list Invoice) (i : Invoice) : Prop :=
  In i invoices /\ inv_guild_id i = gid /\ inv_user_id i = user_id.

(** An invoice of the collection that a [/pay_list] request is about: of
    the guild, of the user unless the request is server-wide, and with
    the status asked for. *)
Definition requested_invoice (gid user_id : Z) (scope status : option string)
                             (invoices : list Invoice) (i : Invoice) : Prop :=
  In i invoices /\ inv_guild_id i = gid
  /\ (scope <> Some "server" -> inv_user_id i = user_id)
  /\ (forall v, status = Some v -> inv_status i = v).

Section Scans.
Context `{Builtins} `{Settings}.

(** The entries [_find_matching_tx] goes through for a ledger: those of
    the ["result"] of the signature reply. *)
Definition scanned (ledger : Ledger) : exc (list json) :=
  result <- item_str (signatures ledger) "result" ;;
  iter result.

(** The transaction behind an entry matches the invoice. *)
Definition entry_matches (ledger : Ledger) (inv : Invoice) (ent : json) : Prop :=
  exists sig,
    get ent "signature" = Some sig
    /\ try_except (tx_matches (inv_reference inv) inv (transaction ledger sig)) false
       = true.

(** The token balance records of a transaction, before and after. *)
Definition token_records (tx : json) : exc (list json * list json) :=
  '(_, meta) <- tx_parts tx ;;
  pre0 <- get meta "preTokenBalances" ;;
  post0 <- get meta "postTokenBalances" ;;
  pre <- iter (or_ pre0 (JList [])) ;;
  post <- iter (or_ post0 (JList [])) ;;
  ret (pre, post).

(** A balance record that is for another mint or for an account of
    another owner. *)
Definition foreign (mint : option string) (tb : json) : Prop :=
  forall m o,
    get tb "mint" = Some m -> get tb "owner" = Some o ->
    differs_from_mint m mint = true \/ eq_str o DONATION_WALLET = false.

End Scans.

(** The fields of an invoice the watcher never writes. *)
Definition same_request (a b : Invoice) : Prop :=
  inv_id a = inv_id b /\ inv_reference a = inv_reference b
  /\ inv_asset a = inv_asset b /\ inv_mint a = inv_mint b
  /\ inv_amount_base a = inv_amount_base b /\ inv_decimals a = inv_decimals b
  /\ inv_user_id a = inv_user_id b /\ inv_channel_id a = inv_channel_id b
  /\ inv_guild_id a = inv_guild_id b /\ inv_note a = inv_note b
  /\ inv_created_ts a = inv_created_ts b.

End Notions.

(** * Further concrete inputs *)

Module Cases.
Import Py Helpers Config Dex Models Alerts Storage Payments Spec Examples Notions Links Refresh.

(** The reply for a transaction that carries [ref-2] and pays ten base
    units of the token into an account of somebody else. *)
Definition to_stranger : json :=
  JObj [("result",
    JObj [("transaction",
             JObj [("message",
                      JObj [("accountKeys", JList [JStr sol_ca; JStr "ref-2"])])]);
          ("meta",
             JObj [("preTokenBalances", JList []);
                   ("postTokenBalances",
                      JList [JObj [("accountIndex", JInt 1); ("mint", JStr usdc);
                                   ("owner", JStr "stranger");
                                   ("uiTokenAmount",
                                      JObj [("amount", JStr "10");
                                            ("decimals", JInt 6)])]])])])].

(** The reply of the provider carrying [tied_feed], and the snapshot the
    refresh makes of it at time 7. *)
Definition tied_reply : json := JObj [("pairs", JList tied_feed)].

Definition tied_snapshot : Snapshot :=
  {| tok_mc := Some 110; tok_url := JStr "https://dexscreener.com";
     tok_updated_ts := 7; tok_source := "marketCap";
     tok_dex := JStr "uniswap"; tok_chain := JStr "ethereum"; tok_quote := "";
     tok_consensus := 105; tok_delta := Some (Rabs (110 - 105));
     tok_image_url := "https://robohash.org/0xabc.png?size=200x200&set=set1" |}.

(** A pair for [evm_ca] listed on venue [dex] with liquidity [liq],
    24-hour volume [vol], two buys and one sell. *)
Definition listed (dex : string) (liq vol : Z) : json :=
  JObj [("chainId", JStr "ethereum"); ("dexId", JStr dex);
        ("baseToken", JObj [("address", JStr "0xAbC")]);
        ("quoteToken", JObj [("symbol", JStr "weth")]);
        ("liquidity", JObj [("usd", JInt liq)]);
        ("volume", JObj [("h24", JInt vol)]);
        ("txns", JObj [("h24", JObj [("buys", JInt 2); ("sells", JInt 1)])])].

(** Two venues reported on, one of them under a second identifier, and a
    feed with two pools on the first, one on the second and one on a
    venue that is not reported on. *)
#[export] Instance venues : Venues.Tables :=
  {| Venues.LP_VENUES := ["uniswap"; "sushiswap"];
     Venues.DEX_ALIASES := [("uniswap_v3", "uniswap")] |}.

Definition venue_feed : list json :=
  [listed "Uniswap_V3" 4 1; listed "sushiswap" 99 2; listed "uniswap" 5 1;
   listed "elsewhere" 50 50].

Definition uniswap_entry : string * (Venues.Totals * R) :=
  ("uniswap",
   ({| Venues.pools := 2; Venues.liq := 0 + 4 + 5; Venues.vol := 0 + 1 + 1;
       Venues.tx := 6; Venues.quotes := [("WETH", 2%Z)];
       Venues.best_url := JStr "https://dexscreener.com";
       Venues.best_liq := 5 |},
    log10 (1 + (0 + 4 + 5)) * 0.5 + log10 (1 + (0 + 1 + 1)) * 0.4
    + log10 (1 + 6) * 0.2)).

Definition sushiswap_entry : string * (Venues.Totals * R) :=
  ("sushiswap",
   ({| Venues.pools := 1; Venues.liq := 0 + 99; Venues.vol := 0 + 2;
       Venues.tx := 3; Venues.quotes := [("WETH", 1%Z)];
       Venues.best_url := JStr "https://dexscreener.com";
       Venues.best_liq := 99 |},
    log10 (1 + (0 + 99)) * 0.5 + log10 (1 + (0 + 2)) * 0.4
    + log10 (1 + 3) * 0.2)).

(** The alphabet of Bitcoin and Solana addresses, and 32 bytes of which
    the last is one and the others zero. *)
Definition base58 : string :=
  "123456789ABCDEFGHJKLMNPQRSTUVWXYZabcdefghijkmnopqrstuvwxyz".

Definition one_raw : list Byte.byte := (repeat Byte.x00 31 ++ [Byte.x01])%list.

(** A bot started without a wallet. *)
Definition no_wallet : Settings := {| DONATION_WALLET := ""; PAY_EXPIRY_SEC := 1800 |}.

End Cases.

(** * Properties *)

Import Py Helpers Config Dex Models Alerts Storage Payments Spec Examples.

(** ** Comparisons of floats *)

Lemma Rleb_true (x y : R) : Rleb x y = true <-> x <= y.
Proof. unfold Rleb. destruct (Rle_dec x y); split; intros; try discriminate; tauto. Qed.

Lemma Rleb_false (x y : R) : Rleb x y = false <-> y < x.
Proof.
  unfold Rleb. destruct (Rle_dec x y); split; intros;
    try discriminate; try reflexivity; lra.
Qed.

Lemma Rltb_true (x y : R) : Rltb x y = true <-> x < y.
Proof. unfold Rltb. destruct (Rlt_dec x y); split; intros; try discriminate; tauto. Qed.

Lemma Rltb_false (x y : R) : Rltb x y = false <-> y <= x.
Proof.
  unfold Rltb. destruct (Rlt_dec x y); split; intros;
    try discriminate; try reflexivity; lra.
Qed.

Lemma Reqb_true (x y : R) : Reqb x y = true <-> x = y.
Proof. unfold Reqb. destruct (Req_dec_T x y); split; intros; try discriminate; tauto. Qed.

Lemma Reqb_false (x y : R) : Reqb x y = false <-> x <> y.
Proof.
  unfold Reqb. destruct (Req_dec_T x y); split; intros;
    try discriminate; try reflexivity; tauto.
Qed.

Lemma Reqb_refl (x : R) : Reqb x x = true.
Proof. apply Reqb_true. reflexivity. Qed.

(** Decides a comparison between float constants. *)
Ltac float_cmp :=
  repeat match goal with
  | |- context [Rleb ?x ?y] =>
    first [ replace (Rleb x y) with true by (symmetry; apply Rleb_true; lra)
          | replace (Rleb x y) with false by (symmetry; apply Rleb_false; lra) ]
  | |- context [Rltb ?x ?y] =>
    first [ replace (Rltb x y) with true by (symmetry; apply Rltb_true; lra)
          | replace (Rltb x y) with false by (symmetry; apply Rltb_false; lra) ]
  | |- context [Reqb ?x ?y] =>
    first [ replace (Reqb x y) with true by (symmetry; apply Reqb_true; lra)
          | replace (Reqb x y) with false by (symmetry; apply Reqb_false; lra) ]
  end.

(** ** The firing predicate *)

(** C7. [meets] with direction [above] holds exactly when the current
    value is defined and at least the target; with direction [below]
    exactly when it is defined and at most the target; an undefined
    current value never meets, whatever the direction and the target. *)
Theorem meets_spec (current : option R) (target : R) :
  (meets "above" current target = true
     <-> exists c, current = Some c /\ c >= target)
  /\ (meets "below" current target = true
     <-> exists c, current = Some c /\ c <= target)
  /\ (forall dir_, meets dir_ None target = false).
Proof.
  split; [|split].
  - destruct current as [c|]; simpl.
    + rewrite Rleb_true. split.
      * intros Hc. exists c. split; [reflexivity | lra].
      * intros [c' [Heq Hc]]. injection Heq as ->. lra.
    + split; [discriminate | intros [c [Heq _]]; discriminate].
  - destruct current as [c|]; simpl.
    + rewrite Rleb_true. split.
      * intros Hc. exists c. split; [reflexivity | lra].
      * intros [c' [Heq Hc]]. injection Heq as ->. lra.
    + split; [discriminate | intros [c [Heq _]]; discriminate].
  - reflexivity.
Qed.

(** ** The alert history *)

Lemma record_event_firstn (e : AlertEvent) (h : list AlertEvent) :
  (List.length h <= 1000)%nat -> record_event e h = firstn 1000 (e :: h).
Proof.
  intros Hlen. unfold record_event.
  destruct (Nat.ltb_spec 1000 (List.length (e :: h))) as [Hlt|Hle].
  - rewrite removelast_firstn_len.
    replace (Nat.pred (List.length (e :: h))) with 1000%nat by (simpl in *; lia).
    reflexivity.
  - symmetry. apply firstn_all2. exact Hle.
Qed.

Lemma record_event_shape (e : AlertEvent) (h : list AlertEvent) :
  record_event e h
  = if (List.length h <? 1000)%nat then e :: h else e :: removelast h.
Proof.
  unfold record_event. cbn [List.length].
  destruct (Nat.ltb_spec (List.length h) 1000) as [Hroom|Hfull].
  - replace (1000 <? S (List.length h))%nat with false
      by (symmetry; apply Nat.ltb_ge; lia).
    reflexivity.
  - replace (1000 <? S (List.length h))%nat with true
      by (symmetry; apply Nat.ltb_lt; lia).
    destruct h as [|x h']; [simpl in Hfull; lia | reflexivity].
Qed.

Lemma StronglySorted_firstn {A} (R' : A -> A -> Prop) (n : nat) (l : list A) :
  StronglySorted R' l -> StronglySorted R' (firstn n l).
Proof.
  intros Hs. revert n. induction Hs as [|a l Hs IH Hall]; intros [|n]; simpl;
    try constructor.
  - apply IH.
  - rewrite Forall_forall in *. intros x Hx. apply Hall.
    rewrite <- (firstn_skipn n l). apply in_or_app. left. exact Hx.
Qed.

Lemma append_records_accepted (data : list AlertEvent) :
  append_records (map Some data) = (data, true).
Proof.
  induction data as [|e data IH]; [reflexivity|].
  cbn [map append_records]. rewrite IH. reflexivity.
Qed.

Lemma append_records_refused (before : list AlertEvent)
                             (after : list (option AlertEvent)) :
  append_records (map Some before ++ None :: after)%list = (before, false).
Proof.
  induction before as [|e before IH]; [reflexivity|].
  cbn [map app append_records]. rewrite IH. reflexivity.
Qed.

Lemma load_alerts_accepted (data old : list AlertEvent) :
  load_alerts (Some (map Some data)) old = firstn 1000 (newest_first data).
Proof. unfold load_alerts. rewrite append_records_accepted. reflexivity. Qed.

Lemma load_alerts_refused (before : list AlertEvent)
                          (after : list (option AlertEvent))
                          (old : list AlertEvent) :
  load_alerts (Some (map Some before ++ None :: after)%list) old = before.
Proof. unfold load_alerts. rewrite append_records_refused. reflexivity. Qed.

Lemma repeat_ordered (e : AlertEvent) (n : nat) :
  newest_first_ordered (repeat e n).
Proof.
  unfold newest_first_ordered. induction n as [|n IH]; [constructor|].
  cbn [repeat]. constructor; [exact IH|].
  rewrite Forall_forall. intros x Hx. apply repeat_spec in Hx. subst x. lra.
Qed.

(** C8, as amended.  Recording an event puts it at the front of the
    history, leaves the older entries in their order and drops the last
    one when the history held 1000 entries or more.  A history of at most
    1000 entries, as the program starts with and as a load that went
    through leaves, therefore stays within 1000 entries; one that held
    more keeps its length.  A history that was ordered newest-first by
    time stamp stays so when the new event is at least as recent as those
    it holds. *)
Theorem history_capped_newest_first (e : AlertEvent) (h : list AlertEvent) :
  record_event e h
  = (if (List.length h <? 1000)%nat then e :: h else e :: removelast h)
  /\ ((List.length h <= 1000)%nat ->
      (List.length (record_event e h) <= 1000)%nat
      /\ record_event e h = firstn 1000 (e :: h))
  /\ ((1000 < List.length h)%nat ->
      List.length (record_event e h) = List.length h)
  /\ (newest_first_ordered h ->
      (forall x, In x h -> ev_ts x <= ev_ts e) ->
      newest_first_ordered (record_event e h))
  /\ (forall data old,
        (List.length (load_alerts (Some (map Some data)) old) <= 1000)%nat).
Proof.
  split; [apply record_event_shape|]. split; [|split; [|split]].
  - intros Hlen. split; [|apply record_event_firstn; exact Hlen].
    rewrite (record_event_firstn e h Hlen). apply firstn_le_length.
  - intros Hover. rewrite record_event_shape.
    replace (List.length h <? 1000)%nat with false
      by (symmetry; apply Nat.ltb_ge; lia).
    cbn [List.length]. rewrite removelast_firstn_len, length_firstn. lia.
  - intros Hsorted Hnew. rewrite record_event_shape.
    assert (Hfront : newest_first_ordered (e :: h)).
    { constructor; [exact Hsorted|]. rewrite Forall_forall. exact Hnew. }
    destruct (List.length h <? 1000)%nat; [exact Hfront|].
    destruct h as [|x h']; [exact Hfront|].
    change (e :: removelast (x :: h')) with (removelast (e :: x :: h')).
    rewrite removelast_firstn_len. apply StronglySorted_firstn. exact Hfront.
  - intros data old. rewrite load_alerts_accepted. apply firstn_le_length.
Qed.

Lemma history_capped_newest_first_witness :
  (List.length (record_event (event_at 7) (repeat some_event 1000)) <= 1000)%nat
  /\ record_event (event_at 7) (repeat some_event 1000)
     = firstn 1000 (event_at 7 :: repeat some_event 1000)
  /\ newest_first_ordered (record_event (event_at 7) (repeat some_event 1000)).
Proof.
  destruct (history_capped_newest_first (event_at 7) (repeat some_event 1000))
    as (_ & Hcap & _ & Hord & _).
  assert (Hlen : (List.length (repeat some_event 1000) <= 1000)%nat)
    by (rewrite repeat_length; lia).
  destruct (Hcap Hlen) as [Hle Hfirst].
  split; [exact Hle|]. split; [exact Hfirst|].
  apply Hord; [apply repeat_ordered|].
  intros x Hx. apply repeat_spec in Hx. subst x. simpl. lra.
Defined.

(** C8, as stated, fails.  After a load that a refused record cut short
    behind 1001 events, the history holds 1001 entries after an insertion;
    and an event recorded while the clock reads less than the time stamp
    of an event of the history stands before that event. *)
Lemma history_exceeds_capacity :
  (1000 < List.length
            (record_event some_event
               (load_alerts (Some (map Some (repeat some_event 1001) ++ [None])%list) [])))%nat
  /\ ~ newest_first_ordered
         (record_event (event_at 5) (load_alerts (Some [Some (event_at 10)]) [])).
Proof.
  split.
  - rewrite load_alerts_refused, record_event_shape, repeat_length.
    change (1001 <? 1000)%nat with false. cbn [List.length].
    rewrite removelast_firstn_len, length_firstn, repeat_length. lia.
  - change (load_alerts (Some [Some (event_at 10)]) []) with [event_at 10].
    change (record_event (event_at 5) [event_at 10]) with [event_at 5; event_at 10].
    intros Hs. inversion Hs as [|a l _ Hall]; subst.
    inversion Hall as [|b l' Hle _]; subst. simpl in Hle. lra.
Qed.

(** ** The market-cap value of one pair *)

Section ResolverFacts.
Context `{Builtins}.

Lemma field_value_accepted kv key f :
  accepted kv key f -> field_value (JObj kv) key = Some (Some f).
Proof.
  intros [v [Hl [Hf Hpos]]]. unfold field_value, get, get_default. simpl.
  rewrite Hl. destruct v; simpl in *; try discriminate;
    rewrite ?Hf; simpl;
    try (injection Hf as <-);
    replace (Rltb 0 _) with true by (symmetry; apply Rltb_true; exact Hpos);
    reflexivity.
Qed.




Lemma resolve_order kv ca :
  exists first second,
    (first, second) = (if prefers_fdv kv ca
                       then ("fdv", "marketCap") else ("marketCap", "fdv"))
    /\ resolve_mc_value (JObj kv) ca =
       (v1 <- field_value (JObj kv) first ;;
        match v1 with
        | Some f => ret (Some f, first)
        | None =>
          v2 <- field_value (JObj kv) second ;;
          match v2 with
          | Some f => ret (Some f, second)
          | None =>
            match computed_value (JObj kv) with
            | Some v => ret (Some v, "computed")
            | None => ret (None, "none")
            end
          end
        end).
Proof.
  unfold resolve_mc_value, prefers_fdv, chain_prefers_fdv, get, get_default.
  simpl. destruct (lookup kv "chainId") as [c|]; simpl.
  - destruct (eq_str c "solana"); simpl.
    + eexists _, _. split; reflexivity.
    + destruct (is_solana_address ca); eexists _, _; split; reflexivity.
  - destruct (is_solana_address ca); eexists _, _; split; reflexivity.
Qed.


End ResolverFacts.

Lemma accepted_int kv key z :
  lookup kv key = Some (JInt z) -> (0 < z)%Z -> accepted (H := decimal) kv key (IZR z).
Proof.
  intros Hl Hz. exists (JInt z). split; [exact Hl|]. split; [reflexivity|].
  apply IZR_lt in Hz. exact Hz.
Qed.



(** ** Candidates and the sample *)

Section CandidateFacts.
Context `{Builtins} {libm : Libm}.

Lemma filter_exc_In {A} (cond : A -> exc bool) (l l' : list A) (a : A) :
  filter_exc cond l = Some l' -> In a l' -> In a l /\ cond a = Some true.
Proof.
  revert l'. induction l as [|x l IH]; intros l' Hf Hin; simpl in Hf.
  - injection Hf as <-. destruct Hin.
  - destruct (cond x) as [b|] eqn:Hx; [|discriminate]. cbn [bind] in Hf.
    destruct (filter_exc cond l) as [r|] eqn:Hr; [|discriminate]. cbn [bind ret] in Hf.
    injection Hf as <-. destruct b.
    + destruct Hin as [<-|Hin]; [split; [left; reflexivity | exact Hx]|].
      destruct (IH r eq_refl Hin) as [H1 H2]. split; [right; exact H1 | exact H2].
    + destruct (IH r eq_refl Hin) as [H1 H2]. split; [right; exact H1 | exact H2].
Qed.

(** A pair that went through [select_pairs] is a dict. *)
Lemma selected_is_dict pairs ca filtered p :
  select_pairs pairs ca = Some filtered -> In p filtered -> exists kv, p = JObj kv.
Proof.
  unfold select_pairs. intros Hs Hin.
  destruct (if is_solana_address ca
            then filter_exc (on_solana_with_address ca) pairs
            else filter_exc (with_address_nocase (lower_string ca)) pairs)
    as [f0|]; [|discriminate].
  cbn [bind] in Hs. destruct (filter_exc_In _ _ _ _ Hs Hin) as [_ Hnb].
  destruct p; try discriminate. eexists; reflexivity.
Qed.

Lemma select_pairs_nil ca : select_pairs [] ca = Some [].
Proof. unfold select_pairs. destruct (is_solana_address ca); reflexivity. Qed.

Lemma field_value_total kv key : exists r, field_value (JObj kv) key = Some r.
Proof. unfold field_value, get, get_default. cbn [bind ret]. eexists; reflexivity. Qed.

Lemma field_value_positive kv key f :
  field_value (JObj kv) key = Some (Some f) -> 0 < f.
Proof.
  unfold field_value, get, get_default. cbn [bind ret]. intros Hf.
  injection Hf as Hf.
  destruct (match lookup kv key with Some v => v | None => JNull end);
    try discriminate; simpl in Hf;
    try (destruct (float_of_str s); simpl in Hf; [|discriminate]);
    match type of Hf with
    | (if Rltb 0 ?x then _ else _) = _ =>
      destruct (Rltb 0 x) eqn:Hx; [|discriminate];
      injection Hf as <-; apply Rltb_true; exact Hx
    end.
Qed.

Lemma computed_value_positive kv v :
  computed_value (JObj kv) = Some v -> 0 < v.
Proof.
  unfold computed_value.
  destruct (get (JObj kv) "priceUsd") as [p|]; [cbn [bind]|discriminate].
  destruct (float (or_ p (JInt 0))) as [price|]; [cbn [bind]|discriminate].
  destruct (get (JObj kv) "baseToken") as [b|]; [cbn [bind]|discriminate].
  destruct (get (or_ b (JObj [])) "circulatingSupply") as [s|];
    [cbn [bind]|discriminate].
  destruct (float (or_ s (JInt 0))) as [supply|]; [cbn [bind]|discriminate].
  cbn [ret try_except].
  destruct (Rltb 0 price) eqn:Hp; [|discriminate].
  destruct (Rltb 0 supply) eqn:Hs; [|discriminate]. simpl.
  intros Hv. injection Hv as <-. rewrite Rltb_true in Hp, Hs.
  apply Rmult_lt_0_compat; assumption.
Qed.

(** On a dict [resolve_mc_value] returns, and a value it returns is
    strictly positive. *)
Lemma resolve_mc_value_total kv ca :
  exists mc src, resolve_mc_value (JObj kv) ca = Some (mc, src)
                 /\ (forall m, mc = Some m -> 0 < m).
Proof.
  destruct (resolve_order kv ca) as (a & b & _ & ->).
  destruct (field_value_total kv a) as [[f|] Ha]; rewrite Ha; cbn [bind ret].
  - exists (Some f), a. split; [reflexivity|]. intros m Hm. injection Hm as <-.
    exact (field_value_positive _ _ _ Ha).
  - destruct (field_value_total kv b) as [[f|] Hb]; rewrite Hb; cbn [bind ret].
    + exists (Some f), b. split; [reflexivity|]. intros m Hm. injection Hm as <-.
      exact (field_value_positive _ _ _ Hb).
    + destruct (computed_value (JObj kv)) as [v|] eqn:Hc.
      * exists (Some v), "computed". split; [reflexivity|].
        intros m Hm. injection Hm as <-. exact (computed_value_positive _ _ Hc).
      * exists None, "none". split; [reflexivity|]. discriminate.
Qed.

(** What [collect] adds to [cands] and [valid]: one candidate per pair,
    in order, and the values of the new candidates. *)
Lemma collect_spec filtered ca cands valid cands' valid' :
  collect filtered ca cands valid = Some (cands', valid') ->
  exists new,
    cands' = (cands ++ new)%list
    /\ valid' = (valid ++ sample_of new)%list
    /\ map cand_pair new = filtered
    /\ Forall (fun c => match cand_value c with
                        | Some m => 0 < m
                        | None => cand_src c = "none"
                        end) new.
Proof.
  revert cands valid. induction filtered as [|p rest IH]; intros cands valid Hc.
  - simpl in Hc. injection Hc as <- <-. exists []. rewrite !app_nil_r.
    repeat split. constructor.
  - simpl in Hc.
    destruct (resolve_mc_value p ca) as [[mc src]|]; [|discriminate].
    cbn [bind] in Hc.
    destruct (_liq_vol_tx p) as [[[liq vol] tx]|]; [|discriminate].
    cbn [bind] in Hc.
    assert (Hstep : forall c,
      collect rest ca (cands ++ [c]) (valid ++ sample_of [c]) = Some (cands', valid') ->
      cand_pair c = p ->
      match cand_value c with Some m => 0 < m | None => cand_src c = "none" end ->
      exists new, cands' = (cands ++ new)%list
        /\ valid' = (valid ++ sample_of new)%list
        /\ map cand_pair new = p :: rest
        /\ Forall (fun c => match cand_value c with
                            | Some m => 0 < m
                            | None => cand_src c = "none"
                            end) new).
    { intros c Hrec Hp Hv. destruct (IH _ _ Hrec) as (new & -> & -> & Hm & Hall).
      exists (c :: new). split; [rewrite <- app_assoc; reflexivity|]. split.
      - unfold sample_of. simpl. rewrite app_nil_r, <- app_assoc. reflexivity.
      - split; [simpl; rewrite Hp, Hm; reflexivity | constructor; assumption]. }
    destruct mc as [m|].
    + destruct (negb (Reqb m 0) && Rltb 0 m)%bool eqn:Hpos.
      * apply (Hstep (p, Some m, liq, vol, src)); [exact Hc | reflexivity |].
        simpl. apply andb_prop in Hpos. apply Rltb_true. tauto.
      * apply (Hstep (p, None, liq, vol, "none")); [|reflexivity|reflexivity].
        simpl. rewrite app_nil_r. exact Hc.
    + apply (Hstep (p, None, liq, vol, "none")); [|reflexivity|reflexivity].
      simpl. rewrite app_nil_r. exact Hc.
Qed.

End CandidateFacts.

(** ** No consensus *)

Section NoConsensus.
Context `{Builtins} {libm : Libm}.

Lemma collect_no_value filtered ca cands :
  (forall p, In p filtered -> exists kv, p = JObj kv) ->
  (forall p, In p filtered -> _liq_vol_tx p <> None) ->
  (forall p m src, In p filtered ->
     resolve_mc_value p ca = Some (Some m, src) -> ~ 0 < m) ->
  exists new,
    collect filtered ca cands [] = Some ((cands ++ new)%list, [])
    /\ map cand_pair new = filtered
    /\ Forall (fun c => cand_value c = None /\ cand_src c = "none"
                        /\ exists tx, _liq_vol_tx (cand_pair c)
                                      = Some (cand_liq c, cand_vol c, tx)) new.
Proof.
  revert cands. induction filtered as [|p rest IH]; intros cands Hdict Hliq Hno.
  - exists []. rewrite app_nil_r. repeat split. constructor.
  - destruct (Hdict p (or_introl eq_refl)) as [kv ->].
    destruct (resolve_mc_value_total kv ca) as (mc & src & Hres & Hpos).
    destruct (_liq_vol_tx (JObj kv)) as [[[liq vol] tx]|] eqn:Hlv;
      [|exfalso; exact (Hliq _ (or_introl eq_refl) Hlv)].
    assert (mc = None) as ->.
    { destruct mc as [m|]; [|reflexivity]. exfalso.
      apply (Hno (JObj kv) m src (or_introl eq_refl) Hres). apply Hpos. reflexivity. }
    destruct (IH (cands ++ [(JObj kv, None, liq, vol, "none")])%list) as (new & Hc & Hm & Hall).
    + intros q Hq. apply Hdict. right. exact Hq.
    + intros q Hq. apply Hliq. right. exact Hq.
    + intros q m s Hq. apply Hno. right. exact Hq.
    + exists ((JObj kv, None, liq, vol, "none") :: new). split; [|split].
      * simpl. rewrite Hres. cbn [bind]. rewrite Hlv. cbn [bind].
        rewrite Hc, <- app_assoc. reflexivity.
      * simpl. rewrite Hm. reflexivity.
      * constructor; [|exact Hall]. simpl. repeat split. exists tx. exact Hlv.
Qed.

(** C2, as amended.  When the selected pairs are not empty and none of
    them yields a positive value, [choose_consensus_pair] returns no best
    pair, the consensus zero, and a candidate list with one entry per
    selected pair, each without a value and tagged "none" (so the list is
    not empty); the liquidity and volume figures of the pairs are assumed
    readable. *)
Theorem no_value_no_consensus (pairs : list json) (ca : string)
                              (filtered : list json) :
  select_pairs pairs ca = Some filtered ->
  filtered <> [] ->
  (forall p, In p filtered -> _liq_vol_tx p <> None) ->
  (forall p m src, In p filtered ->
     resolve_mc_value p ca = Some (Some m, src) -> ~ 0 < m) ->
  exists cands,
    choose_consensus_pair pairs ca = Some (None, 0, cands)
    /\ map cand_pair cands = filtered
    /\ cands <> []
    /\ Forall (fun c => cand_value c = None /\ cand_src c = "none"
                        /\ exists tx, _liq_vol_tx (cand_pair c)
                                      = Some (cand_liq c, cand_vol c, tx)) cands.
Proof.
  intros Hsel Hne Hliq Hno.
  destruct (collect_no_value filtered ca []) as (cands & Hc & Hm & Hall);
    [intros p Hp; exact (selected_is_dict _ _ _ _ Hsel Hp) | exact Hliq | exact Hno |].
  exists cands. split; [|split; [exact Hm | split; [|exact Hall]]].
  - unfold choose_consensus_pair. destruct pairs as [|p0 pairs'].
    + rewrite select_pairs_nil in Hsel. injection Hsel as <-. contradiction.
    + rewrite Hsel. cbn [bind]. destruct filtered as [|q rest]; [contradiction|].
      rewrite Hc. reflexivity.
  - intros ->. destruct filtered; [contradiction | discriminate].
Qed.

End NoConsensus.

Lemma bare_pair_unvalued :
  select_pairs [bare_pair] evm_ca = Some [bare_pair]
  /\ resolve_mc_value bare_pair evm_ca = Some (None, "none")
  /\ _liq_vol_tx bare_pair = Some (0, 0, 0%Z).
Proof.
  split; [reflexivity|]. split.
  - unfold resolve_mc_value, bare_pair. cbn.
    unfold computed_value. cbn. float_cmp. reflexivity.
  - unfold _liq_vol_tx, bare_pair. cbn. float_cmp. cbn. float_cmp. reflexivity.
Qed.

Lemma no_value_no_consensus_witness :
  exists cands,
    choose_consensus_pair [bare_pair] evm_ca = Some (None, 0, cands)
    /\ map cand_pair cands = [bare_pair]
    /\ cands <> []
    /\ Forall (fun c => cand_value c = None /\ cand_src c = "none"
                        /\ exists tx, _liq_vol_tx (cand_pair c)
                                      = Some (cand_liq c, cand_vol c, tx)) cands.
Proof.
  apply (no_value_no_consensus [bare_pair] evm_ca [bare_pair]).
  - reflexivity.
  - discriminate.
  - intros p [<-|[]]. rewrite (proj2 (proj2 bare_pair_unvalued)). discriminate.
  - intros p m src [<-|[]] Hr.
    rewrite (proj1 (proj2 bare_pair_unvalued)) in Hr. discriminate.
Defined.

(** C2, as stated, fails: for a feed whose only selected pair carries no
    valuation the candidate list returned holds that pair, it is not
    empty. *)
Lemma no_consensus_keeps_candidates :
  select_pairs [bare_pair] evm_ca = Some [bare_pair]
  /\ resolve_mc_value bare_pair evm_ca = Some (None, "none")
  /\ choose_consensus_pair [bare_pair] evm_ca
     = Some (None, 0, [(bare_pair, None, 0, 0, "none")])
  /\ choose_consensus_pair [bare_pair] evm_ca <> Some (None, 0, []).
Proof.
  destruct bare_pair_unvalued as (Hsel & Hres & Hlv).
  assert (Hc : choose_consensus_pair [bare_pair] evm_ca
               = Some (None, 0, [(bare_pair, None, 0, 0, "none")])).
  { unfold choose_consensus_pair. rewrite Hsel. cbn [bind].
    cbn [collect]. rewrite Hres. cbn [bind]. rewrite Hlv. reflexivity. }
  repeat split; try assumption.
  rewrite Hc. discriminate.
Qed.

(** ** The best pair *)

Lemma key_lt_true a b : key_lt a b = true -> key_less a b.
Proof.
  destruct a as [[a1 a2] a3], b as [[b1 b2] b3]. unfold key_lt, key_less.
  destruct (Reqb a1 b1) eqn:H1; simpl.
  - apply Reqb_true in H1. destruct (Reqb a2 b2) eqn:H2; simpl.
    + apply Reqb_true in H2. rewrite Rltb_true. tauto.
    + rewrite Rltb_true. tauto.
  - rewrite Rltb_true. tauto.
Qed.

Lemma key_lt_false a b : key_lt a b = false -> key_le b a.
Proof.
  destruct a as [[a1 a2] a3], b as [[b1 b2] b3]. unfold key_lt, key_le.
  destruct (Reqb a1 b1) eqn:H1; simpl.
  - apply Reqb_true in H1. destruct (Reqb a2 b2) eqn:H2; simpl.
    + apply Reqb_true in H2. rewrite Rltb_false. intros. right. split; [auto|].
      right. split; auto.
    + apply Reqb_false in H2. rewrite Rltb_false. intros. right. split; [auto|].
      left. lra.
  - apply Reqb_false in H1. rewrite Rltb_false. intros. left. lra.
Qed.

Lemma key_less_le a b : key_less a b -> key_le a b.
Proof.
  destruct a as [[a1 a2] a3], b as [[b1 b2] b3]. unfold key_less, key_le.
  intros [?|[? [?|[? ?]]]]; [left; assumption | right; split; auto | right; split; auto].
  right. split; [assumption | lra].
Qed.

Lemma key_le_refl a : key_le a a.
Proof.
  destruct a as [[a1 a2] a3]. unfold key_le. right. split; [reflexivity|].
  right. split; [reflexivity | lra].
Qed.

Lemma key_le_trans a b c : key_le a b -> key_le b c -> key_le a c.
Proof.
  destruct a as [[a1 a2] a3], b as [[b1 b2] b3], c as [[c1 c2] c3].
  unfold key_le. intros [H|[-> [H|[-> H]]]] [H'|[<- [H'|[<- H']]]];
    try (left; lra); try (left; assumption).
  - right. split; [reflexivity|]. left. lra.
  - right. split; [reflexivity|]. left. assumption.
  - right. split; [reflexivity|]. left. assumption.
  - right. split; [reflexivity|]. right. split; [reflexivity | lra].
Qed.

Lemma key_le_good consensus m c m' c' :
  key_le (key_of consensus m (cand_liq c) (cand_vol c))
         (key_of consensus m' (cand_liq c') (cand_vol c')) ->
  at_least_as_good consensus m c m' c'.
Proof.
  unfold key_le, key_of, at_least_as_good, deviation.
  destruct (Rltb 0 consensus); intros [Hd|[Hd [Hl|[Hl Hv]]]];
    try (left; exact Hd); right; (split; [exact Hd|]);
    try (left; lra); right; split; lra.
Qed.

Lemma pick_best_none cands consensus st :
  pick_best cands consensus st = None ->
  st = None /\ forall c, In c cands -> cand_value c = None.
Proof.
  revert st. induction cands as [|[[[[p mc] liq] vol] src] rest IH]; intros st Hp.
  - cbn [pick_best] in Hp. split; [exact Hp | intros c []].
  - cbn [pick_best] in Hp. destruct mc as [m|].
    + exfalso. destruct st as [[p0 k0]|].
      * destruct (key_lt _ k0); apply IH in Hp; destruct Hp; discriminate.
      * apply IH in Hp. destruct Hp. discriminate.
    + destruct (IH _ Hp) as [Hst Hall]. split; [exact Hst|].
      intros c [<-|Hc]; [reflexivity | apply Hall; exact Hc].
Qed.

Lemma pick_best_some cands consensus st p k :
  pick_best cands consensus st = Some (p, k) ->
  (st = Some (p, k)
   \/ exists c m, In c cands /\ cand_pair c = p /\ cand_value c = Some m
                  /\ k = key_of consensus m (cand_liq c) (cand_vol c))
  /\ (forall p0 k0, st = Some (p0, k0) -> key_le k k0)
  /\ (forall c m, In c cands -> cand_value c = Some m ->
        key_le k (key_of consensus m (cand_liq c) (cand_vol c))).
Proof.
  revert st. induction cands as [|[[[[q mc] liq] vol] src] rest IH]; intros st Hp.
  - cbn [pick_best] in Hp. subst st. split; [left; reflexivity|]. split.
    + intros p0 k0 Heq. injection Heq as <- <-. apply key_le_refl.
    + intros c m [].
  - cbn [pick_best] in Hp. destruct mc as [m|].
    + set (c0 := (q, Some m, liq, vol, src)) in *.
      set (k1 := key_of consensus m liq vol) in *.
      assert (Htake : pick_best rest consensus (Some (q, k1)) = Some (p, k) ->
                      (forall p0 k0, st = Some (p0, k0) -> key_le k1 k0) ->
              (st = Some (p, k)
               \/ exists c m, In c (c0 :: rest) /\ cand_pair c = p
                      /\ cand_value c = Some m
                      /\ k = key_of consensus m (cand_liq c) (cand_vol c))
              /\ (forall p0 k0, st = Some (p0, k0) -> key_le k k0)
              /\ (forall c m, In c (c0 :: rest) -> cand_value c = Some m ->
                    key_le k (key_of consensus m (cand_liq c) (cand_vol c)))).
      { intros Hrec Hst. destruct (IH _ Hrec) as (Hsrc & Hle & Hall).
        pose proof (Hle q k1 eq_refl) as Hk1. split; [|split].
        - right. destruct Hsrc as [Heq|(c & m0 & Hin & Hcp & Hcv & Hk)].
          + injection Heq as <- <-. exists c0, m. simpl. auto.
          + exists c, m0. simpl. auto.
        - intros p0 k0 Heq. eapply key_le_trans; [exact Hk1 | eapply Hst; exact Heq].
        - intros c m0 [<-|Hin] Hv.
          + simpl in Hv. injection Hv as <-. exact Hk1.
          + apply Hall; assumption. }
      destruct st as [[p0 k0]|].
      * destruct (key_lt k1 k0) eqn:Hlt.
        -- apply Htake; [exact Hp|]. intros p1 k2 Heq. injection Heq as <- <-.
           apply key_less_le, key_lt_true. exact Hlt.
        -- destruct (IH _ Hp) as (Hsrc & Hle & Hall).
           pose proof (Hle p0 k0 eq_refl) as Hk0. split; [|split].
           ++ destruct Hsrc as [Heq|(c & m0 & Hin & Hcp & Hcv & Hk)];
                [left; exact Heq | right; exists c, m0; simpl; auto].
           ++ exact Hle.
           ++ intros c m0 [<-|Hin] Hv.
              ** simpl in Hv. injection Hv as <-.
                 eapply key_le_trans; [exact Hk0 | apply key_lt_false; exact Hlt].
              ** apply Hall; assumption.
      * apply Htake; [exact Hp|]. intros p0 k0 Heq. discriminate.
    + destruct (IH _ Hp) as (Hsrc & Hle & Hall). split; [|split].
      * destruct Hsrc as [Heq|(c & m0 & Hin & Hcp & Hcv & Hk)];
          [left; exact Heq | right; exists c, m0; simpl; auto].
      * exact Hle.
      * intros c m0 [<-|Hin] Hv; [discriminate | apply Hall; assumption].
Qed.

Section BestPair.
Context `{Builtins} {libm : Libm}.

Lemma collect_resolved filtered ca cands valid cands' valid' :
  let resolved c :=
    exists mc src, resolve_mc_value (cand_pair c) ca = Some (mc, src)
                   /\ cand_value c = usable mc in
  collect filtered ca cands valid = Some (cands', valid') ->
  Forall resolved cands -> Forall resolved cands'.
Proof.
  intros resolved. revert cands valid.
  induction filtered as [|p rest IH]; intros cands valid Hc Hall.
  - simpl in Hc. injection Hc as <- <-. exact Hall.
  - simpl in Hc.
    destruct (resolve_mc_value p ca) as [[mc src]|] eqn:Hres; [|discriminate].
    cbn [bind] in Hc.
    destruct (_liq_vol_tx p) as [[[liq vol] tx]|]; [|discriminate].
    cbn [bind] in Hc.
    assert (Hnew : forall v s, v = usable mc ->
              Forall resolved (cands ++ [(p, v, liq, vol, s)])).
    { intros v s Hv. apply Forall_app. split; [exact Hall|].
      constructor; [|constructor]. exists mc, src. simpl. auto. }
    destruct mc as [m|].
    + destruct (negb (Reqb m 0) && Rltb 0 m)%bool eqn:Hpos;
        apply IH in Hc; try exact Hc; apply Hnew; simpl; rewrite Hpos; reflexivity.
    + apply IH in Hc; [exact Hc|]. apply Hnew. reflexivity.
Qed.

Lemma sample_of_nil cands c :
  sample_of cands = [] -> In c cands -> cand_value c = None.
Proof.
  induction cands as [|c0 rest IH]; intros Hs Hin; [destruct Hin|].
  unfold sample_of in Hs. simpl in Hs. apply app_eq_nil in Hs. destruct Hs as [H0 Hr].
  destruct Hin as [<-|Hin]; [|exact (IH Hr Hin)].
  destruct (cand_value c0); [discriminate | reflexivity].
Qed.

(** C9.  The best pair returned with a consensus is the pair of a
    candidate that has a value and is at least as good as every other
    candidate with a value: least deviation from the consensus (relative
    when the consensus is positive, absolute otherwise), then higher
    liquidity, then higher 24-hour volume.  No candidate without a value
    is the best pair, and there is no best pair only when no candidate has
    a value. *)
Theorem best_pair_minimises_deviation
    (pairs : list json) (ca : string)
    (best : option json) (consensus : R) (cands : list candidate) :
  choose_consensus_pair pairs ca = Some (best, consensus, cands) ->
  match best with
  | Some p =>
    (exists c m,
       In c cands /\ cand_pair c = p /\ cand_value c = Some m
       /\ forall c' m', In c' cands -> cand_value c' = Some m' ->
                        at_least_as_good consensus m c m' c')
    /\ (forall c, In c cands -> cand_pair c = p -> cand_value c <> None)
  | None => forall c, In c cands -> cand_value c = None
  end.
Proof.
  unfold choose_consensus_pair. destruct pairs as [|p0 pairs'].
  { intros Hc. injection Hc as <- _ <-. intros c []. }
  destruct (select_pairs (p0 :: pairs') ca) as [filtered|]; [|discriminate].
  cbn [bind]. destruct filtered as [|q rest].
  { intros Hc. injection Hc as <- _ <-. intros c []. }
  destruct (collect (q :: rest) ca [] []) as [[cs valid]|] eqn:Hcol; [|discriminate].
  cbn [bind].
  destruct (collect_spec _ _ _ _ _ _ Hcol) as (new & Hcs & Hvalid & _ & _).
  simpl in Hcs, Hvalid. subst new.
  assert (Hres := collect_resolved _ _ _ _ _ _ Hcol (Forall_nil _)).
  rewrite Forall_forall in Hres.
  destruct valid as [|v valid'].
  { intros Hc. injection Hc as <- _ <-. intros c Hin.
    apply (sample_of_nil cs); [symmetry; exact Hvalid | exact Hin]. }
  destruct (consensus_of (v :: valid')) as [cons|]; [|discriminate].
  cbn [bind ret]. intros Hc. injection Hc as <- <- <-.
  destruct (pick_best cs cons None) as [[p k]|] eqn:Hpick; simpl.
  - destruct (pick_best_some _ _ _ _ _ Hpick) as ([Heq|(c & m & Hin & Hcp & Hcv & Hk)] & _ & Hall);
      [discriminate|].
    split.
    + exists c, m. repeat split; try assumption.
      intros c' m' Hin' Hv'. apply key_le_good. rewrite <- Hk. apply Hall; assumption.
    + intros c' Hin' Hp' Hnone.
      destruct (Hres c Hin) as (mc & src & Hr & Hu).
      destruct (Hres c' Hin') as (mc' & src' & Hr' & Hu').
      rewrite Hp', <- Hcp, Hr in Hr'. injection Hr' as <- <-.
      rewrite Hcv in Hu. rewrite Hnone in Hu'. rewrite <- Hu' in Hu. discriminate.
  - intros c Hin. exact (proj2 (pick_best_none _ _ _ Hpick) c Hin).
Qed.

End BestPair.

(** ** Sorting floats *)

Lemma insert_sorted_perm (x : R) (l : list R) :
  Permutation (x :: l) (insert_sorted x l).
Proof.
  induction l as [|y rest IH]; simpl; [reflexivity|].
  destruct (Rle_dec x y); [reflexivity|].
  rewrite perm_swap. apply perm_skip. exact IH.
Qed.

Lemma sorted_perm (l : list R) : Permutation l (sorted l).
Proof.
  induction l as [|x rest IH]; simpl; [constructor|].
  rewrite <- insert_sorted_perm. apply perm_skip. exact IH.
Qed.

Lemma sorted_length (l : list R) : List.length (sorted l) = List.length l.
Proof. symmetry. apply Permutation_length, sorted_perm. Qed.

Lemma insert_sorted_ascending (x : R) (l : list R) :
  StronglySorted Rle l -> StronglySorted Rle (insert_sorted x l).
Proof.
  induction 1 as [|y rest Hs IH Hall]; simpl.
  - constructor; constructor.
  - destruct (Rle_dec x y) as [Hle|Hgt].
    + constructor; [constructor; assumption|].
      constructor; [exact Hle|].
      rewrite Forall_forall in *. intros z Hz. specialize (Hall z Hz). lra.
    + constructor; [exact IH|].
      rewrite Forall_forall in *. intros z Hz.
      apply (Permutation_in z (Permutation_sym (insert_sorted_perm x rest))) in Hz.
      destruct Hz as [<-|Hz]; [lra | apply Hall; exact Hz].
Qed.

Lemma sorted_ascending (l : list R) : StronglySorted Rle (sorted l).
Proof.
  induction l as [|x rest IH]; simpl; [constructor|].
  apply insert_sorted_ascending. exact IH.
Qed.

(** An ascending list is the only ascending arrangement of its elements. *)
Lemma ascending_unique (l l' : list R) :
  StronglySorted Rle l -> StronglySorted Rle l' -> Permutation l l' -> l = l'.
Proof.
  intros Hl. revert l'. induction Hl as [|x rest Hs IH Hall]; intros l' Hl' Hp.
  - apply Permutation_nil in Hp. symmetry. exact Hp.
  - destruct Hl' as [|y rest' Hs' Hall'].
    + apply Permutation_sym, Permutation_nil in Hp. discriminate.
    + assert (x = y) as <-.
      { rewrite Forall_forall in Hall, Hall'.
        assert (Hy : In y (x :: rest))
          by (apply (Permutation_in y (Permutation_sym Hp)); left; reflexivity).
        assert (Hx : In x (y :: rest'))
          by (apply (Permutation_in x Hp); left; reflexivity).
        destruct Hy as [Hy|Hy]; [exact Hy|].
        destruct Hx as [Hx|Hx]; [symmetry; exact Hx|].
        specialize (Hall y Hy). specialize (Hall' x Hx). lra. }
      f_equal. apply IH; [exact Hs'|]. apply Permutation_cons_inv with x. exact Hp.
Qed.

Lemma sorted_of_perm (l l' : list R) : Permutation l l' -> sorted l = sorted l'.
Proof.
  intros Hp. apply ascending_unique; try apply sorted_ascending.
  rewrite <- (sorted_perm l), <- (sorted_perm l'). exact Hp.
Qed.

Lemma sorted_of_ascending (l : list R) : StronglySorted Rle l -> sorted l = l.
Proof.
  intros Hs. apply ascending_unique; [apply sorted_ascending | exact Hs|].
  symmetry. apply sorted_perm.
Qed.

(** ** Indexing, median and quartiles *)

Lemma index_in_range {A} (l : list A) (i : Z) (d : A) :
  (0 <= i < Z.of_nat (List.length l))%Z ->
  index l i = Some (nth (Z.to_nat i) l d).
Proof.
  intros Hi. unfold index.
  destruct (Z.leb_spec 0 i) as [_|Hneg]; [|lia].
  apply nth_error_nth'. lia.
Qed.

Lemma median_refines (vals : list R) : _median vals = Some (median vals).
Proof.
  unfold _median, median. set (s := sorted vals). set (n := List.length s).
  destruct (Z.eqb_spec (Z.of_nat n) 0) as [Hz|Hnz].
  - assert (n = 0%nat) as Hn by lia. rewrite Hn. simpl.
    destruct s; [|discriminate Hn]. simpl. unfold ret. f_equal. lra.
  - assert (Hdiv : Z.to_nat (Z.of_nat n / 2) = (n / 2)%nat).
    { rewrite <- (Nat2Z.id (n / 2)). f_equal. rewrite Nat2Z.inj_div. reflexivity. }
    assert (Hhalf : (0 <= Z.of_nat n / 2 < Z.of_nat (List.length s))%Z).
    { fold n. split; [apply Z.div_pos; lia | apply Z.div_lt; lia]. }
    destruct (Nat.even n) eqn:He.
    + apply Nat.even_spec in He. destruct He as [h Hh].
      assert (Hmod : (Z.of_nat n mod 2 = 0)%Z).
      { rewrite Hh, Nat2Z.inj_mul, Z.mul_comm. apply Z_mod_mult. }
      assert (Hone : (1 <= Z.of_nat n / 2)%Z).
      { rewrite Hh, Nat2Z.inj_mul, Z.mul_comm, Z_div_mult by lia. lia. }
      rewrite Hmod, Z.eqb_refl. cbn [negb].
      rewrite (index_in_range s (Z.of_nat n / 2 - 1) 0) by lia.
      rewrite (index_in_range s (Z.of_nat n / 2) 0) by lia.
      cbn [bind]. unfold ret. f_equal. rewrite Z2Nat.inj_sub, Hdiv by lia.
      change (Z.to_nat 1) with 1%nat. lra.
    + assert (Hmod : (Z.of_nat n mod 2 =? 0)%Z = false).
      { apply Z.eqb_neq. intros Hm.
        assert (Nat.even n = true); [|congruence].
        apply Nat.even_spec. exists (Z.to_nat (Z.of_nat n / 2)).
        pose proof (Z_div_mod_eq_full (Z.of_nat n) 2). lia. }
      rewrite Hmod. cbn [negb].
      rewrite (index_in_range s (Z.of_nat n / 2) 0) by lia.
      rewrite Hdiv. reflexivity.
Qed.

Lemma Int_part_bounds (k : R) : IZR (Int_part k) <= k < IZR (Int_part k) + 1.
Proof. destruct (base_Int_part k). lra. Qed.

Lemma ceil_of_integer (k : R) : k = IZR (Int_part k) -> ceil k = floor k.
Proof.
  intros Hk. unfold ceil, floor.
  assert (Int_part (- k) = (- Int_part k)%Z) as ->; [|lia].
  symmetry. apply Int_part_spec. rewrite opp_IZR. lra.
Qed.

Lemma ceil_of_fraction (k : R) : k <> IZR (Int_part k) -> ceil k = (floor k + 1)%Z.
Proof.
  intros Hk. unfold ceil, floor. pose proof (Int_part_bounds k) as Hb.
  assert (Int_part (- k) = (- Int_part k - 1)%Z) as ->; [|lia].
  symmetry. apply Int_part_spec. rewrite minus_IZR, opp_IZR. lra.
Qed.

Lemma percentile_refines (s : list R) (p : R) :
  s <> [] -> 0 <= p <= 1 -> _percentile s p = Some (quantile s p).
Proof.
  intros Hne Hp. unfold _percentile, quantile.
  set (n := List.length s).
  assert (Hn : (1 <= n)%nat)
    by (subst n; destruct s; [contradiction | simpl; lia]).
  assert (Hk : IZR (Z.of_nat n - 1) = INR n - 1)
    by (rewrite minus_IZR, <- INR_IZR_INZ; reflexivity).
  rewrite Hk. set (k := (INR n - 1) * p).
  assert (Hn1 : 0 <= INR n - 1).
  { assert (1 <= INR n); [|lra]. replace 1 with (INR 1) by reflexivity.
    apply le_INR. exact Hn. }
  assert (Hk0 : 0 <= k) by (apply Rmult_le_pos; lra).
  assert (Hk1 : k <= INR n - 1).
  { unfold k. rewrite <- (Rmult_1_r (INR n - 1)) at 2.
    apply Rmult_le_compat_l; lra. }
  pose proof (Int_part_bounds k) as Hb. set (f := Int_part k) in *.
  assert (Hf0 : (0 <= f)%Z).
  { assert (-1 < f)%Z; [|lia]. apply lt_IZR. lra. }
  assert (Hf1 : (f <= Z.of_nat n - 1)%Z).
  { apply le_IZR. rewrite Hk. lra. }
  assert (Hif : INR (Z.to_nat f) = IZR f).
  { rewrite INR_IZR_INZ, Z2Nat.id by exact Hf0. reflexivity. }
  rewrite Hif. unfold floor. fold f.
  destruct (Req_dec_T k (IZR f)) as [Hint|Hfrac].
  - rewrite (ceil_of_integer k Hint). unfold floor. fold f. rewrite Z.eqb_refl.
    assert (trunc k = f) as ->.
    { unfold trunc. destruct (Rle_dec 0 k); [reflexivity | contradiction]. }
    rewrite (index_in_range s f 0) by (fold n; lia).
    f_equal. assert (k - IZR f = 0) as -> by lra. lra.
  - rewrite (ceil_of_fraction k Hfrac). unfold floor. fold f.
    destruct (Z.eqb_spec f (f + 1)) as [Habs|_]; [lia|].
    assert (Hf2 : (f + 1 <= Z.of_nat n - 1)%Z).
    { assert (f < Z.of_nat n - 1)%Z; [|lia]. apply lt_IZR. rewrite Hk. lra. }
    rewrite (index_in_range s f 0), (index_in_range s (f + 1) 0) by (fold n; lia).
    cbn [bind ret]. replace (Z.to_nat (f + 1)) with (S (Z.to_nat f)) by lia.
    reflexivity.
Qed.

(** ** Logarithms *)

Lemma ln_10_pos : 0 < ln 10.
Proof. rewrite <- ln_1. apply ln_increasing; lra. Qed.

Lemma pow10_log10 (v : R) : 0 < v -> pow10 (log10 v) = v.
Proof.
  intros Hv. unfold pow10, log10, Rpower.
  replace (ln v / ln 10 * ln 10) with (ln v)
    by (field; apply Rgt_not_eq, ln_10_pos).
  apply exp_ln. exact Hv.
Qed.

Lemma log10_10 : log10 10 = 1.
Proof. unfold log10. field. apply Rgt_not_eq, ln_10_pos. Qed.

Lemma log10_mult (x y : R) : 0 < x -> 0 < y -> log10 (x * y) = log10 x + log10 y.
Proof.
  intros Hx Hy. unfold log10. rewrite ln_mult by assumption.
  field. apply Rgt_not_eq, ln_10_pos.
Qed.

Lemma log10_increasing (x y : R) : 0 < x -> x < y -> log10 x < log10 y.
Proof.
  intros Hx Hxy. unfold log10. apply Rmult_lt_compat_r.
  - apply Rinv_0_lt_compat, ln_10_pos.
  - apply ln_increasing; assumption.
Qed.

(** ** The consensus value *)

Lemma filter_positive (valid : list R) :
  Forall (fun v => 0 < v) valid -> filter (fun v => Rltb 0 v) valid = valid.
Proof.
  induction 1 as [|v rest Hv _ IH]; simpl; [reflexivity|].
  replace (Rltb 0 v) with true by (symmetry; apply Rltb_true; exact Hv).
  rewrite IH. reflexivity.
Qed.

Lemma Permutation_filter {A} (f : A -> bool) (l l' : list A) :
  Permutation l l' -> Permutation (filter f l) (filter f l').
Proof.
  induction 1 as [|x l l' _ IH|x y l|l l' l'' _ IH1 _ IH2]; simpl.
  - constructor.
  - destruct (f x); [apply perm_skip|]; exact IH.
  - destruct (f x), (f y); try reflexivity. apply perm_swap.
  - etransitivity; eassumption.
Qed.

Lemma restored_filter (inside : R -> bool) (valid : list R) :
  Forall (fun v => 0 < v) valid ->
  map pow10 (filter inside (map log10 valid))
  = filter (fun v => inside (log10 v)) valid.
Proof.
  induction 1 as [|v rest Hv _ IH]; simpl; [reflexivity|].
  destruct (inside (log10 v)); simpl; rewrite IH; [|reflexivity].
  rewrite pow10_log10 by exact Hv. reflexivity.
Qed.

(** The values kept by the program are those that survive, in some
    order. *)
Lemma kept_survive (inside : R -> bool) (valid : list R) :
  Forall (fun v => 0 < v) valid ->
  Permutation (map pow10 (filter inside (sorted (map log10 valid))))
              (filter (fun v => inside (log10 v)) valid).
Proof.
  intros Hpos. rewrite <- (restored_filter inside valid Hpos).
  apply Permutation_map, Permutation_filter, Permutation_sym, sorted_perm.
Qed.

Lemma median_of_perm (l l' : list R) : Permutation l l' -> median l = median l'.
Proof. intros Hp. unfold median. rewrite (sorted_of_perm l l' Hp). reflexivity. Qed.

(** With logarithm and power taken without rounding, on a sample of
    positive values the program computes the consensus of the
    specification. *)
Lemma consensus_refines (valid : list R) :
  Forall (fun v => 0 < v) valid -> consensus_of valid = Some (consensus valid).
Proof.
  intros Hpos. unfold consensus_of, consensus. cbn [flog10 fpow10 reals].
  rewrite (filter_positive valid Hpos), sorted_length, length_map.
  destruct (Nat.leb_spec 3 (List.length valid)) as [H3|H3];
    [|cbn [bind ret]; apply median_refines].
  set (logs := sorted (map log10 valid)).
  assert (Hne : logs <> []).
  { intros Hnil. apply (f_equal (@List.length R)) in Hnil.
    unfold logs in Hnil. rewrite sorted_length, length_map in Hnil. simpl in Hnil. lia. }
  rewrite (percentile_refines logs 0.25 Hne) by lra. cbn [bind].
  rewrite (percentile_refines logs 0.75 Hne) by lra. cbn [bind ret].
  set (q1 := quantile logs 0.25). set (q3 := quantile logs 0.75).
  set (inside := fun x => (Rleb (q1 - 1.5 * (q3 - q1)) x
                           && Rleb x (q3 + 1.5 * (q3 - q1)))%bool).
  pose proof (kept_survive inside valid Hpos) as Hperm. fold logs in Hperm.
  change (filter (fun v => inside (log10 v)) valid) with (surviving valid) in Hperm.
  rewrite (Permutation_length Hperm).
  destruct (2 <=? List.length (surviving valid))%nat.
  - rewrite median_refines. rewrite (median_of_perm _ _ Hperm). reflexivity.
  - apply median_refines.
Qed.

(** ** The two samples of the specification *)


Lemma log10_of_samples :
  log10 100 = 2 /\ log10 1000000 = 6
  /\ 2 < log10 105 /\ log10 105 < log10 110 /\ log10 110 < 2.5.
Proof.
  assert (H100 : log10 100 = 2).
  { replace 100 with (10 * 10) by lra. rewrite log10_mult, log10_10 by lra. lra. }
  assert (H5 : log10 100000 = 5).
  { replace 100000 with (10 * (10 * (10 * (10 * 10)))) by lra.
    rewrite !log10_mult, log10_10 by lra. lra. }
  assert (H6 : log10 1000000 = 6).
  { replace 1000000 with (10 * 100000) by lra.
    rewrite log10_mult, log10_10, H5 by lra. lra. }
  assert (Hsq : log10 (110 * 110) < log10 100000)
    by (apply log10_increasing; lra).
  rewrite log10_mult, H5 in Hsq by lra.
  repeat split; try assumption.
  - rewrite <- H100. apply log10_increasing; lra.
  - apply log10_increasing; lra.
  - lra.
Qed.




Lemma median_of_two (a b : R) : a <= b -> median [a; b] = (a + b) / 2.
Proof.
  intros Hab. unfold median. rewrite sorted_of_ascending; [reflexivity|].
  repeat (constructor; [|repeat (constructor; try lra)]). constructor.
Qed.


Lemma quoted_resolves (mc liq vol : Z) :
  (0 < mc)%Z ->
  resolve_mc_value (quoted mc liq vol) evm_ca = Some (Some (IZR mc), "marketCap")
  /\ _liq_vol_tx (quoted mc liq vol) = Some (IZR liq, IZR vol, 0%Z).
Proof.
  intros Hmc. split.
  - destruct (resolve_order
                [("chainId", JStr "ethereum"); ("dexId", JStr "uniswap");
                 ("baseToken", JObj [("address", JStr "0xAbC")]);
                 ("marketCap", JInt mc);
                 ("liquidity", JObj [("usd", JInt liq)]);
                 ("volume", JObj [("h24", JInt vol)])] evm_ca)
      as (a & b & Hab & Hres).
    unfold quoted. rewrite Hres. injection Hab as -> ->.
    rewrite (field_value_accepted _ "marketCap" (IZR mc)); [reflexivity|].
    apply accepted_int; [reflexivity | exact Hmc].
  - destruct liq, vol; reflexivity.
Qed.


Section Consensus.
Context `{Builtins}.

Lemma sample_of_positive (cands : list candidate) :
  Forall (fun c => match cand_value c with
                   | Some m => 0 < m
                   | None => cand_src c = "none"
                   end) cands ->
  Forall (fun v => 0 < v) (sample_of cands).
Proof.
  induction 1 as [|c rest Hc _ IH]; [constructor|].
  unfold sample_of. simpl. destruct (cand_value c); [constructor|]; assumption.
Qed.

End Consensus.

Section Restored.
Context `{Builtins} {libm : Libm}.






End Restored.




Lemma tied_feed_best :
  choose_consensus_pair tied_feed evm_ca
  = Some (Some (quoted 110 7 1), 105, tied_candidates).
Proof.
  assert (Hcol : collect tied_feed evm_ca [] [] = Some (tied_candidates, [100; 110])).
  { unfold tied_feed. cbn [collect].
    repeat match goal with
    | |- context [resolve_mc_value (quoted ?mc ?liq ?vol) evm_ca] =>
      rewrite (proj1 (quoted_resolves mc liq vol ltac:(lia))),
              (proj2 (quoted_resolves mc liq vol ltac:(lia)));
      cbn [bind]; float_cmp; cbn [negb andb app]
    end.
    reflexivity. }
  assert (Hcons : consensus_of [100; 110] = Some 105).
  { rewrite consensus_refines by (repeat constructor; lra).
    unfold consensus. cbn [List.length Nat.leb]. rewrite median_of_two by lra.
    f_equal. lra. }
  unfold choose_consensus_pair.
  replace (select_pairs tied_feed evm_ca) with (Some tied_feed) by reflexivity.
  unfold tied_feed at 1 2. cbn [bind]. fold tied_feed. rewrite Hcol. cbn [bind].
  rewrite Hcons. cbn [bind]. unfold ret. do 3 f_equal.
  unfold tied_candidates. cbn [pick_best]. unfold key_of. float_cmp.
  replace (Rabs (100 - 105)) with 5 by (unfold Rabs; destruct (Rcase_abs _); lra).
  replace (Rabs (110 - 105)) with 5 by (unfold Rabs; destruct (Rcase_abs _); lra).
  unfold key_lt. float_cmp. reflexivity.
Qed.

Lemma best_pair_minimises_deviation_witness :
  (exists c m,
     In c tied_candidates /\ cand_pair c = quoted 110 7 1 /\ cand_value c = Some m
     /\ forall c' m', In c' tied_candidates -> cand_value c' = Some m' ->
                      at_least_as_good 105 m c m' c')
  /\ (forall c, In c tied_candidates -> cand_pair c = quoted 110 7 1 ->
        cand_value c <> None).
Proof.
  exact (best_pair_minimises_deviation tied_feed evm_ca
           (Some (quoted 110 7 1)) 105 tied_candidates tied_feed_best).
Defined.

(** ** The alert watcher *)

Lemma Reminder_eqb_eq (a b : Reminder) : Reminder_eqb a b = true <-> a = b.
Proof.
  unfold Reminder_eqb. rewrite !andb_true_iff, !String.eqb_eq, !Z.eqb_eq, Reqb_true.
  split.
  - destruct a, b. simpl. intros [[[[[[[[? ?] ?] ?] ?] ?] ?] ?] ?]. subst. reflexivity.
  - intros ->. tauto.
Qed.

Lemma Reminder_eqb_refl (a : Reminder) : Reminder_eqb a a = true.
Proof. apply Reminder_eqb_eq. reflexivity. Qed.

Lemma Reminder_eqb_sym (a b : Reminder) : Reminder_eqb a b = Reminder_eqb b a.
Proof.
  destruct (Reminder_eqb a b) eqn:Hab, (Reminder_eqb b a) eqn:Hba; try reflexivity.
  - apply Reminder_eqb_eq in Hab. subst. rewrite Reminder_eqb_refl in Hba. discriminate.
  - apply Reminder_eqb_eq in Hba. subst. rewrite Reminder_eqb_refl in Hab. discriminate.
Qed.

Lemma occurrences_cons (r x : Reminder) (l : list Reminder) :
  occurrences r (x :: l)
  = ((if Reminder_eqb r x then 1 else 0) + occurrences r l)%nat.
Proof. unfold occurrences. simpl. destruct (Reminder_eqb r x); reflexivity. Qed.

Lemma occurrences_app (r : Reminder) (l l' : list Reminder) :
  occurrences r (l ++ l') = (occurrences r l + occurrences r l')%nat.
Proof. unfold occurrences. rewrite filter_app, length_app. reflexivity. Qed.

Lemma occurrences_In (r : Reminder) (l : list Reminder) :
  In r l <-> (0 < occurrences r l)%nat.
Proof.
  induction l as [|x l IH]; [simpl; split; [intros [] | unfold occurrences; simpl; lia]|].
  rewrite occurrences_cons. simpl. rewrite IH. split.
  - intros [->|Hin]; [rewrite Reminder_eqb_refl|]; lia.
  - destruct (Reminder_eqb r x) eqn:Heq; [|intros; right; lia].
    apply Reminder_eqb_eq in Heq. intros _. left. symmetry. exact Heq.
Qed.

(** [remove] finds a rule that is there and takes out one occurrence. *)
Lemma remove_present (rem : Reminder) (l : list Reminder) :
  (0 < occurrences rem l)%nat ->
  exists l',
    remove rem l = Some l'
    /\ forall r, (occurrences r l' + (if Reminder_eqb r rem then 1 else 0)
                 = occurrences r l)%nat.
Proof.
  induction l as [|x l IH]; intros Hocc; [unfold occurrences in Hocc; simpl in Hocc; lia|].
  simpl. destruct (Reminder_eqb x rem) eqn:Hx.
  - exists l. split; [reflexivity|]. intros r. rewrite occurrences_cons.
    apply Reminder_eqb_eq in Hx. subst x. lia.
  - rewrite occurrences_cons, Reminder_eqb_sym, Hx in Hocc.
    destruct (IH Hocc) as (l' & Hrem & Hcount). rewrite Hrem. cbn [bind ret].
    exists (x :: l'). split; [reflexivity|]. intros r.
    rewrite !occurrences_cons. specialize (Hcount r). lia.
Qed.

Lemma evaluate_conserves w snap todo k st st' log finished :
  (forall r, (occurrences r todo <= occurrences r (reminders st))%nat) ->
  evaluate w snap todo k st = (st', log, finished) ->
  (forall r, (occurrences r (reminders st') + occurrences r (map fire_rule log)
              = occurrences r (reminders st))%nat)
  /\ Forall one_event_if_delivered log
  /\ alert_events st'
     = fold_left (fun evs e => record_event e evs) (recorded_events log)
                 (alert_events st).
Proof.
  revert k st st' log finished.
  induction todo as [|rem rest IH]; intros k st st' log finished Hsub Hev.
  - simpl in Hev. injection Hev as <- <- <-. split; [|split].
    + intros r. unfold occurrences. simpl. lia.
    + constructor.
    + reflexivity.
  - cbn [evaluate] in Hev. destruct (fires snap rem) eqn:Hf.
    + destruct (remove_present rem (reminders st)) as (rems & Hrem & Hcount).
      { specialize (Hsub rem). rewrite occurrences_cons, Reminder_eqb_refl in Hsub. lia. }
      rewrite Hrem in Hev.
      set (recorded := if delivered w k
                       then [__build_event (clock w k) rem (current snap rem)]
                       else []) in *.
      set (fire := {| fire_rule := rem; fire_delivered := delivered w k;
                      fire_events := recorded |}) in *.
      assert (Hone : one_event_if_delivered fire).
      { unfold one_event_if_delivered, fire, recorded. simpl.
        destruct (delivered w k); reflexivity. }
      destruct (reminders_saved w k).
      * destruct (evaluate w snap rest (S k) _) as [[st2 log2] fin2] eqn:Hrec.
        injection Hev as <- <- <-.
        edestruct IH as (Hc & Hall & Hevs); [|exact Hrec|].
        -- intros r. simpl. specialize (Hsub r). specialize (Hcount r).
           rewrite occurrences_cons in Hsub. lia.
        -- simpl in Hc, Hevs. split; [|split].
           ++ intros r. specialize (Hc r). specialize (Hcount r).
              cbn [map fire_rule fire]. rewrite occurrences_cons. lia.
           ++ constructor; assumption.
           ++ rewrite Hevs. unfold recorded_events. cbn [flat_map fire_events fire].
              rewrite fold_left_app. reflexivity.
      * injection Hev as <- <- <-. simpl. split; [|split].
        -- intros r. specialize (Hcount r). rewrite occurrences_cons.
           change (occurrences r []) with 0%nat. lia.
        -- constructor; [exact Hone | constructor].
        -- unfold recorded_events. simpl. rewrite app_nil_r. reflexivity.
    + eapply IH; [|exact Hev].
      intros r. specialize (Hsub r). rewrite occurrences_cons in Hsub. lia.
Qed.

Lemma watcher_conserves cycles st st' log :
  watcher cycles st = (st', log) ->
  (forall r, (occurrences r (reminders st') + occurrences r (map fire_rule log)
              = occurrences r (reminders st))%nat)
  /\ Forall one_event_if_delivered log
  /\ alert_events st'
     = fold_left (fun evs e => record_event e evs) (recorded_events log)
                 (alert_events st).
Proof.
  revert st st' log. induction cycles as [|[w snap] rest IH]; intros st st' log Hw.
  - simpl in Hw. injection Hw as <- <-. split; [|split].
    + intros r. unfold occurrences. simpl. lia.
    + constructor.
    + reflexivity.
  - cbn [watcher] in Hw.
    destruct (watcher_cycle w snap st) as [[st1 log1] fin1] eqn:Hc.
    destruct (watcher rest st1) as [st2 log2] eqn:Hr.
    injection Hw as <- <-.
    destruct (evaluate_conserves _ _ _ _ _ _ _ _ (fun r => le_n _) Hc)
      as (Hc1 & Hall1 & Hev1).
    destruct (IH _ _ _ Hr) as (Hc2 & Hall2 & Hev2).
    split; [|split].
    + intros r. specialize (Hc1 r). specialize (Hc2 r).
      rewrite map_app, occurrences_app. lia.
    + apply Forall_app. split; assumption.
    + rewrite Hev2, Hev1. unfold recorded_events.
      rewrite flat_map_app, fold_left_app. reflexivity.
Qed.

Lemma remove_after (rem : Reminder) (kept rest : list Reminder) :
  (forall r, In r kept -> Reminder_eqb r rem = false) ->
  remove rem (kept ++ rem :: rest) = Some (kept ++ rest)%list.
Proof.
  induction kept as [|x kept IH]; intros Hk; simpl.
  - rewrite Reminder_eqb_refl. reflexivity.
  - rewrite (Hk x (or_introl eq_refl)), IH; [reflexivity|].
    intros r Hr. apply Hk. right. exact Hr.
Qed.

(** A cycle whose saves go through takes out the rules that fire, fires
    each of them, and keeps the others, whatever happens to the
    notifications. *)
Lemma evaluate_filters w snap todo kept k evs :
  (forall j, reminders_saved w j = true) ->
  (forall r, In r kept -> fires snap r = false) ->
  exists evs' log,
    evaluate w snap todo k {| reminders := (kept ++ todo)%list; alert_events := evs |}
    = ({| reminders := (kept ++ filter (fun r => negb (fires snap r)) todo)%list;
          alert_events := evs' |}, log, true)
    /\ map fire_rule log = filter (fires snap) todo.
Proof.
  intros Hsaved. revert kept k evs.
  induction todo as [|rem rest IH]; intros kept k evs Hkept.
  - exists evs, []. split; reflexivity.
  - cbn [evaluate filter]. destruct (fires snap rem) eqn:Hf; cbn [negb reminders].
    + rewrite remove_after.
      * rewrite Hsaved.
        destruct (IH kept (S k)
                    (fold_left (fun evs0 e => record_event e evs0)
                       (if delivered w k
                        then [__build_event (clock w k) rem (current snap rem)]
                        else []) evs) Hkept)
          as (evs' & log & Hev & Hlog).
        cbn [alert_events]. rewrite Hev. eexists _, _. split; [reflexivity|].
        simpl. rewrite Hlog. reflexivity.
      * intros r Hr. destruct (Reminder_eqb r rem) eqn:Heq; [|reflexivity].
        apply Reminder_eqb_eq in Heq. subst r. rewrite (Hkept rem Hr) in Hf.
        discriminate.
    + destruct (IH (kept ++ [rem])%list k evs) as (evs' & log & Hev & Hlog).
      * intros r Hr. apply in_app_or in Hr. destruct Hr as [Hr|[<-|[]]];
          [apply Hkept; exact Hr | exact Hf].
      * rewrite <- !app_assoc in Hev. simpl in Hev.
        exists evs', log. split; assumption.
Qed.

(** C3, as amended.  Over any sequence of cycles every firing of a rule
    takes one occurrence of it out of the active collection, so a rule
    that stands there once fires at most once and is gone after it fired;
    a firing records exactly one event when the notification was
    delivered and none when it was not; and in a cycle whose saves go
    through every rule whose predicate matches is fired and removed,
    whether or not its notification was delivered. *)
Theorem fired_rule_removed_once :
  (forall cycles st st' log,
     watcher cycles st = (st', log) ->
     (forall rem,
        (occurrences rem (reminders st') + occurrences rem (map fire_rule log)
         = occurrences rem (reminders st))%nat)
     /\ (forall rem,
          occurrences rem (reminders st) = 1%nat ->
          In rem (map fire_rule log) ->
          occurrences rem (map fire_rule log) = 1%nat
          /\ ~ In rem (reminders st'))
     /\ Forall one_event_if_delivered log
     /\ alert_events st'
        = fold_left (fun evs e => record_event e evs) (recorded_events log)
                    (alert_events st))
  /\ (forall w snap st st' log finished,
       (forall j, reminders_saved w j = true) ->
       watcher_cycle w snap st = (st', log, finished) ->
       finished = true
       /\ reminders st' = filter (fun r => negb (fires snap r)) (reminders st)
       /\ map fire_rule log = filter (fires snap) (reminders st)).
Proof.
  split.
  - intros cycles st st' log Hw.
    destruct (watcher_conserves _ _ _ _ Hw) as (Hc & Hall & Hev).
    split; [exact Hc|]. split; [|split; assumption].
    intros rem Hone Hin. apply occurrences_In in Hin. specialize (Hc rem).
    split; [lia|]. rewrite occurrences_In. lia.
  - intros w snap st st' log finished Hsaved Hc. unfold watcher_cycle in Hc.
    destruct (evaluate_filters w snap (reminders st) [] 0 (alert_events st) Hsaved)
      as (evs' & log' & Hev & Hlog); [intros r []|].
    simpl in Hev. destruct st as [rems evs]. simpl in *. rewrite Hev in Hc.
    injection Hc as <- <- <-. simpl. auto.
Qed.

Lemma rule_fires : fires cache_above rule = true.
Proof. unfold fires, current, meets. cbn. float_cmp. reflexivity. Qed.

Lemma crossing_twice :
  watcher [(reachable_channel, cache_above); (reachable_channel, cache_above)]
          watching
  = (fired, [rule_fire]).
Proof.
  unfold watching, fired, rule_fire.
  cbn [watcher]. unfold watcher_cycle. cbn [reminders evaluate].
  rewrite rule_fires. cbn [remove]. rewrite Reminder_eqb_refl.
  reflexivity.
Qed.

Lemma fired_rule_removed_once_witness :
  occurrences rule (reminders watching) = 1%nat
  /\ In rule (map fire_rule [rule_fire])
  /\ occurrences rule (map fire_rule [rule_fire]) = 1%nat
  /\ ~ In rule (reminders fired).
Proof.
  assert (Hone : occurrences rule (reminders watching) = 1%nat).
  { unfold occurrences. cbn [filter reminders watching].
    rewrite Reminder_eqb_refl. reflexivity. }
  assert (Hin : In rule (map fire_rule [rule_fire])) by (left; reflexivity).
  split; [exact Hone|]. split; [exact Hin|].
  destruct (proj1 fired_rule_removed_once _ _ _ _ crossing_twice)
    as (_ & Honce & _).
  exact (Honce rule Hone Hin).
Defined.

(** C3, as stated, fails: the predicate of the rule matches and the rule
    is removed, but the notification does not go out and no event is
    recorded for the firing. *)
Lemma undelivered_fire_records_no_event :
  fires cache_above rule = true
  /\ watcher_cycle unreachable_channel cache_above watching
     = ({| reminders := []; alert_events := [] |},
        [{| fire_rule := rule; fire_delivered := false; fire_events := [] |}],
        true).
Proof.
  split; [exact rule_fires|].
  unfold watcher_cycle, watching. cbn [reminders evaluate].
  rewrite rule_fires. cbn [remove]. rewrite Reminder_eqb_refl.
  reflexivity.
Qed.

(** ** The payment watcher *)

Section PaymentFacts.
Context `{Builtins} `{Settings}.

Lemma no_reference_no_match reference inv tx :
  includes_reference tx reference = false ->
  try_except (tx_matches reference inv tx) false = false.
Proof.
  unfold includes_reference, tx_parts, tx_matches.
  destruct (get (or_ tx (JObj [])) "result") as [r|]; [cbn [bind]|reflexivity].
  destruct (get (or_ r (JObj [])) "transaction") as [t|]; [cbn [bind]|reflexivity].
  destruct (get (or_ r (JObj [])) "meta") as [m|]; [cbn [bind ret]|reflexivity].
  destruct (account_keys (or_ t (JObj []))) as [keys|]; [cbn [bind]|reflexivity].
  intros ->. reflexivity.
Qed.

Lemma native_match reference inv tx d :
  inv_asset inv = "SOL" ->
  includes_reference tx reference = true ->
  native_delta tx = Some d ->
  tx_matches reference inv tx = Some (Rleb (IZR (inv_amount_base inv)) d).
Proof.
  intros Hsol. unfold includes_reference, native_delta, tx_parts, tx_matches.
  rewrite Hsol. cbn [String.eqb Ascii.eqb Bool.eqb].
  destruct (get (or_ tx (JObj [])) "result") as [r|]; [cbn [bind]|discriminate].
  destruct (get (or_ r (JObj [])) "transaction") as [t|]; [cbn [bind]|discriminate].
  destruct (get (or_ r (JObj [])) "meta") as [m|]; [cbn [bind ret]|discriminate].
  destruct (account_keys (or_ t (JObj []))) as [keys|]; [cbn [bind]|discriminate].
  intros ->. cbn [negb].
  destruct (get (or_ m (JObj [])) "preBalances") as [pre0|]; [cbn [bind]|discriminate].
  destruct (get (or_ m (JObj [])) "postBalances") as [post0|]; [cbn [bind]|discriminate].
  destruct (wallet_index keys 0) as [idx|]; [|discriminate].
  destruct (balance_at (or_ pre0 (JList [])) idx) as [pre_bal|]; [cbn [bind]|discriminate].
  destruct (balance_at (or_ post0 (JList [])) idx) as [post_bal|]; [cbn [bind]|discriminate].
  destruct (number post_bal) as [a|] eqn:Ha; [cbn [bind]|discriminate].
  destruct (number pre_bal) as [b|] eqn:Hb; [cbn [bind ret]|discriminate].
  intros Hd. injection Hd as <-.
  destruct pre_bal, post_bal; try discriminate;
    cbn [number ret] in Ha, Hb; injection Ha as <-; injection Hb as <-;
    reflexivity.
Qed.

Lemma delta_at_gain pre_map post_map wallet idx :
  delta_at pre_map post_map wallet idx
  = match owned_delta pre_map post_map wallet idx with
    | Some d => Z.max 0 d
    | None => 0%Z
    end.
Proof.
  unfold delta_at, owned_delta.
  destruct (tb_get post_map idx) as [[[o a] d]|], (tb_get pre_map idx) as [[[o' a'] d']|];
    cbn [negb andb];
    repeat match goal with
    | |- context [eq_str ?x ?y] => destruct (eq_str x y); cbn [negb andb]
    | |- context [(?x =? 6)%Z] => destruct (x =? 6)%Z; cbn [negb andb]
    | |- context [(0 <? ?x)%Z] => destruct (Z.ltb_spec 0 x)
    end; try reflexivity; lia.
Qed.

Lemma sum_of_gains pre_map post_map wallet (l : list json) (acc : Z) :
  fold_left (fun total idx => (total + delta_at pre_map post_map wallet idx)%Z) l acc
  = (acc + fold_right Z.add 0%Z
             (map (fun idx => match owned_delta pre_map post_map wallet idx with
                              | Some d => Z.max 0 d
                              | None => 0%Z
                              end) l))%Z.
Proof.
  revert acc. induction l as [|idx l IH]; intros acc; simpl; [lia|].
  rewrite IH, delta_at_gain. lia.
Qed.

Lemma token_match reference inv tx :
  String.eqb (inv_asset inv) "SOL" = false ->
  includes_reference tx reference = true ->
  tx_matches reference inv tx
  = ('(pre_map, post_map) <- token_maps tx (inv_mint inv) ;;
     ret (inv_amount_base inv <=? gains pre_map post_map DONATION_WALLET)%Z).
Proof.
  intros Hsol. unfold includes_reference, token_maps, tx_parts, tx_matches.
  rewrite Hsol.
  destruct (get (or_ tx (JObj [])) "result") as [r|]; [cbn [bind]|discriminate].
  destruct (get (or_ r (JObj [])) "transaction") as [t|]; [cbn [bind]|discriminate].
  destruct (get (or_ r (JObj [])) "meta") as [m|]; [cbn [bind ret]|discriminate].
  destruct (account_keys (or_ t (JObj []))) as [keys|] eqn:Hk; [cbn [bind]|discriminate].
  intros ->. cbn [negb]. unfold _sum_usdc_delta_for_wallet. rewrite Hk. cbn [bind].
  destruct (get (or_ m (JObj [])) "preTokenBalances") as [pre0|]; [cbn [bind]|reflexivity].
  destruct (get (or_ m (JObj [])) "postTokenBalances") as [post0|]; [cbn [bind]|reflexivity].
  destruct (_tb_map (inv_mint inv) (or_ pre0 (JList []))) as [pre_map|];
    [cbn [bind]|reflexivity].
  destruct (_tb_map (inv_mint inv) (or_ post0 (JList []))) as [post_map|];
    [cbn [bind ret]|reflexivity].
  rewrite sum_of_gains. unfold gains. rewrite Z.add_0_l. reflexivity.
Qed.

Lemma scan_first_match ledger reference inv before ent after sig :
  (forall e, In e before ->
     exists s, get e "signature" = Some s
               /\ try_except (tx_matches reference inv (transaction ledger s)) false
                  = false) ->
  get ent "signature" = Some sig ->
  try_except (tx_matches reference inv (transaction ledger sig)) false = true ->
  scan ledger reference inv (before ++ ent :: after) = Some (Some sig).
Proof.
  intros Hbefore Hsig Hmatch. induction before as [|e before IH]; simpl.
  - rewrite Hsig. cbn [bind]. rewrite Hmatch. reflexivity.
  - destruct (Hbefore e (or_introl eq_refl)) as (s & Hs & Hno).
    rewrite Hs. cbn [bind]. rewrite Hno. apply IH.
    intros e' He'. apply Hbefore. right. exact He'.
Qed.

Lemma find_scans ledger reference inv kv entries :
  is_solana_address DONATION_WALLET = true ->
  signatures ledger = JObj kv ->
  lookup kv "result" = Some (JList entries) ->
  _find_matching_tx ledger reference inv = scan ledger reference inv entries.
Proof.
  intros Hw Hs Hl. unfold _find_matching_tx. rewrite Hw, Hs. cbn [negb].
  assert (truthy (JObj kv) = true) as -> by (destruct kv; [discriminate | reflexivity]).
  cbn [negb contains bind ret item_str]. rewrite Hl. reflexivity.
Qed.

Lemma expired_unchecked now ledger inv :
  inv_status inv = "pending" ->
  IZR PAY_EXPIRY_SEC < now - inv_created_ts inv ->
  check_invoice now ledger inv
  = Some (set_status inv "expired" (inv_tx_sig inv), true).
Proof.
  intros Hp He. unfold check_invoice. rewrite Hp. cbn [String.eqb Ascii.eqb Bool.eqb negb].
  replace (Rltb _ _) with true by (symmetry; apply Rltb_true; exact He).
  reflexivity.
Qed.

Lemma payments_cycle_reaches now ledgers base invs i inv :
  nth_error invs i = Some inv ->
  (forall j inv_j, (j < i)%nat -> nth_error invs j = Some inv_j ->
     check_invoice now (ledgers (base + j)%nat) inv_j <> None) ->
  forall inv' changed,
    check_invoice now (ledgers (base + i)%nat) inv = Some (inv', changed) ->
    nth_error (fst (fst (payments_cycle now ledgers base invs))) i = Some inv'.
Proof.
  revert base i. induction invs as [|x invs IH]; intros base i Hnth Hbefore inv' changed Hc.
  - destruct i; discriminate.
  - cbn [payments_cycle]. destruct i as [|i].
    + simpl in Hnth. injection Hnth as ->. rewrite Nat.add_0_r in Hc. rewrite Hc.
      destruct (payments_cycle now ledgers (S base) invs) as [[rest' ch'] fin]. reflexivity.
    + simpl in Hnth.
      destruct (check_invoice now (ledgers base) x) as [[x' ch]|] eqn:Hx.
      * specialize (IH (S base) i Hnth).
        destruct (payments_cycle now ledgers (S base) invs) as [[rest' ch'] fin].
        simpl. simpl in IH. apply (IH) with (changed := changed).
        -- intros j inv_j Hj Hnj. rewrite plus_n_Sm.
           apply Hbefore; [lia | exact Hnj].
        -- rewrite plus_n_Sm. exact Hc.
      * exfalso. apply (Hbefore 0%nat x); [lia | reflexivity |].
        rewrite Nat.add_0_r. exact Hx.
Qed.

End PaymentFacts.

Example shuffle_maps :
  token_maps shuffle (Some usdc) = Some (shuffle_before, shuffle_after)
  /\ includes_reference shuffle "ref-2" = true
  /\ net_delta shuffle_before shuffle_after sol_ca = 0%Z
  /\ gains shuffle_before shuffle_after sol_ca = 10%Z.
Proof. repeat split; reflexivity. Qed.

Example transfer_delta (pre post : Z) :
  includes_reference (transfer pre post) "ref-1" = true
  /\ native_delta (transfer pre post) = Some (IZR post - IZR pre).
Proof. split; reflexivity. Qed.

Section PaymentClaims.
Context `{Builtins} `{Settings}.

Lemma unexpired_checked now ledger inv :
  inv_status inv = "pending" ->
  now - inv_created_ts inv <= IZR PAY_EXPIRY_SEC ->
  check_invoice now ledger inv
  = (found <- _find_matching_tx ledger (inv_reference inv) inv ;;
     match found with
     | Some sig =>
       if truthy sig then ret (set_status inv "paid" sig, true)
       else ret (inv, false)
     | None => ret (inv, false)
     end).
Proof.
  intros Hp He. unfold check_invoice. rewrite Hp. cbn [String.eqb Ascii.eqb Bool.eqb negb].
  replace (Rltb _ _) with false by (symmetry; apply Rltb_false; exact He).
  reflexivity.
Qed.


(** C4.  A pending invoice older than the expiry duration becomes
    expired, with its signature field untouched, whatever the ledger
    holds: the ledger is not consulted for it.  This is what one cycle of
    the watcher leaves at the position of the invoice, provided the cycle
    gets to it (the scans for the invoices before it return). *)
Theorem expiry_takes_precedence :
  (forall now ledger inv,
     inv_status inv = "pending" ->
     IZR PAY_EXPIRY_SEC < now - inv_created_ts inv ->
     check_invoice now ledger inv
     = Some (set_status inv "expired" (inv_tx_sig inv), true))
  /\ (forall now ledgers invs i inv,
       nth_error invs i = Some inv ->
       inv_status inv = "pending" ->
       IZR PAY_EXPIRY_SEC < now - inv_created_ts inv ->
       (forall j inv_j, (j < i)%nat -> nth_error invs j = Some inv_j ->
          check_invoice now (ledgers j) inv_j <> None) ->
       exists inv',
         nth_error (fst (fst (payments_cycle now ledgers 0 invs))) i = Some inv'
         /\ inv' = set_status inv "expired" (inv_tx_sig inv)
         /\ inv_status inv' = "expired"
         /\ inv_tx_sig inv' = inv_tx_sig inv).
Proof.
  split.
  - exact expired_unchecked.
  - intros now ledgers invs i inv Hnth Hp He Hbefore.
    exists (set_status inv "expired" (inv_tx_sig inv)).
    split; [|repeat split].
    apply (payments_cycle_reaches now ledgers 0 invs i inv Hnth Hbefore _ true).
    apply expired_unchecked; assumption.
Qed.


Lemma gains_cover_net pre_map post_map wallet :
  (net_delta pre_map post_map wallet <= gains pre_map post_map wallet)%Z.
Proof.
  unfold net_delta, gains.
  induction (union_keys pre_map post_map) as [|idx l IH]; simpl; [lia|].
  destruct (owned_delta pre_map post_map wallet idx); lia.
Qed.

(** C6, as amended.  For an invoice in a token and a transaction that
    includes its reference, the test adds up, over the accounts of the
    transaction owned by the wallet for the mint of the invoice at six
    decimals, the post-minus-pre token balances that are gains (a balance
    that went down counts for nothing), and the transaction matches
    exactly when that sum is at least the requested amount; a summed delta
    that reaches the amount is therefore enough. *)
Theorem token_matching (reference : string) (inv : Invoice) (tx : json) :
  String.eqb (inv_asset inv) "SOL" = false ->
  includes_reference tx reference = true ->
  (try_except (tx_matches reference inv tx) false = true
   <-> exists pre_map post_map,
         token_maps tx (inv_mint inv) = Some (pre_map, post_map)
         /\ (inv_amount_base inv <= gains pre_map post_map DONATION_WALLET)%Z)
  /\ (forall pre_map post_map,
        token_maps tx (inv_mint inv) = Some (pre_map, post_map) ->
        (inv_amount_base inv <= net_delta pre_map post_map DONATION_WALLET)%Z ->
        try_except (tx_matches reference inv tx) false = true).
Proof.
  intros Hsol Href. rewrite (token_match reference inv tx Hsol Href).
  destruct (token_maps tx (inv_mint inv)) as [[pre_map post_map]|]; cbn [bind ret try_except].
  - split.
    + rewrite Z.leb_le. split.
      * intros Hle. exists pre_map, post_map. split; [reflexivity | exact Hle].
      * intros (p & q & Heq & Hle). injection Heq as <- <-. exact Hle.
    + intros p q Heq Hle. injection Heq as <- <-. apply Z.leb_le.
      pose proof (gains_cover_net pre_map post_map DONATION_WALLET). lia.
  - split.
    + split; [discriminate | intros (p & q & Heq & _); discriminate].
    + intros p q Heq. discriminate.
Qed.

End PaymentClaims.

(** ** The payment watcher on concrete ledgers *)

Lemma transfer_matches (pre post : Z) :
  IZR (inv_amount_base sol_invoice) <= IZR post - IZR pre ->
  try_except (tx_matches "ref-1" sol_invoice (transfer pre post)) false = true.
Proof.
  intros Hle. destruct (transfer_delta pre post) as [Href Hd].
  rewrite (native_match "ref-1" sol_invoice _ _ eq_refl Href Hd).
  cbn [try_except]. apply Rleb_true. exact Hle.
Qed.

Lemma paid_twice_found :
  _find_matching_tx paid_twice "ref-1" sol_invoice = Some (Some (JStr "sig-1")).
Proof.
  rewrite (find_scans paid_twice "ref-1" sol_invoice
             [("result", JList [JObj [("signature", JStr "sig-1")];
                                JObj [("signature", JStr "sig-2")]])]
             [JObj [("signature", JStr "sig-1")]; JObj [("signature", JStr "sig-2")]]);
    try reflexivity.
  apply (scan_first_match paid_twice "ref-1" sol_invoice []
           (JObj [("signature", JStr "sig-1")])
           [JObj [("signature", JStr "sig-2")]] (JStr "sig-1")).
  - intros e [].
  - reflexivity.
  - apply (transfer_matches 1000 6000). simpl. lra.
Qed.

Lemma expiry_takes_precedence_witness :
  _find_matching_tx paid_twice "ref-1" sol_invoice = Some (Some (JStr "sig-1"))
  /\ check_invoice 2000 paid_twice sol_invoice
     = Some (set_status sol_invoice "expired" (JStr ""), true).
Proof.
  split; [exact paid_twice_found|].
  apply (proj1 expiry_takes_precedence 2000 paid_twice sol_invoice).
  - reflexivity.
  - simpl. lra.
Defined.


Lemma token_matching_witness :
  try_except (tx_matches "ref-2" usdc_invoice shuffle) false = true.
Proof.
  apply (proj1 (token_matching "ref-2" usdc_invoice shuffle eq_refl
                  (proj1 (proj2 shuffle_maps)))).
  exists shuffle_before, shuffle_after. split.
  - exact (proj1 shuffle_maps).
  - change (5 <= gains shuffle_before shuffle_after sol_ca)%Z.
    rewrite (proj2 (proj2 (proj2 shuffle_maps))). lia.
Defined.

(** C6, as stated, fails: the token moved between two accounts of the
    wallet, the summed delta is zero and below the requested amount, yet
    the transaction matches. *)
Lemma shuffle_matches_without_net_gain :
  includes_reference shuffle (inv_reference usdc_invoice) = true
  /\ token_maps shuffle (inv_mint usdc_invoice) = Some (shuffle_before, shuffle_after)
  /\ net_delta shuffle_before shuffle_after sol_ca = 0%Z
  /\ (net_delta shuffle_before shuffle_after sol_ca < inv_amount_base usdc_invoice)%Z
  /\ try_except (tx_matches (inv_reference usdc_invoice) usdc_invoice shuffle) false
     = true.
Proof.
  destruct shuffle_maps as (Hmaps & Href & Hnet & Hgain).
  split; [exact Href|]. split; [exact Hmaps|]. split; [exact Hnet|].
  split; [rewrite Hnet; simpl; lia|].
  change (inv_reference usdc_invoice) with "ref-2".
  rewrite (token_match "ref-2" usdc_invoice shuffle eq_refl Href).
  change (inv_mint usdc_invoice) with (Some usdc). rewrite Hmaps.
  cbn [bind ret try_except]. change DONATION_WALLET with sol_ca.
  rewrite Hgain. reflexivity.
Qed.

(** * Further properties *)

Import Links Refresh Venues Solana Bot Notions Cases.

(** ** The payment watcher: what it never does *)

Section PaymentLaws.
Context `{Builtins} `{Settings}.

Lemma match_includes_reference reference inv tx :
  try_except (tx_matches reference inv tx) false = true ->
  includes_reference tx reference = true.
Proof.
  intros Hm. destruct (includes_reference tx reference) eqn:Hr; [reflexivity|].
  rewrite (no_reference_no_match reference inv tx Hr) in Hm. discriminate.
Qed.

Lemma native_match_inv reference inv tx :
  inv_asset inv = "SOL" ->
  try_except (tx_matches reference inv tx) false = true ->
  exists d, native_delta tx = Some d /\ IZR (inv_amount_base inv) <= d.
Proof.
  intros Hsol. unfold native_delta, tx_parts, tx_matches.
  rewrite Hsol. cbn [String.eqb Ascii.eqb Bool.eqb].
  destruct (get (or_ tx (JObj [])) "result") as [r|]; [cbn [bind]|discriminate].
  destruct (get (or_ r (JObj [])) "transaction") as [t|]; [cbn [bind]|discriminate].
  destruct (get (or_ r (JObj [])) "meta") as [m|]; [cbn [bind ret]|discriminate].
  destruct (account_keys (or_ t (JObj []))) as [keys|]; [cbn [bind]|discriminate].
  destruct (negb (existsb (fun k => eq_str k reference) keys)); [discriminate|].
  destruct (get (or_ m (JObj [])) "preBalances") as [pre0|]; [cbn [bind]|discriminate].
  destruct (get (or_ m (JObj [])) "postBalances") as [post0|]; [cbn [bind]|discriminate].
  destruct (wallet_index keys 0) as [idx|]; [|discriminate].
  destruct (balance_at (or_ pre0 (JList [])) idx) as [pre_bal|]; [cbn [bind]|discriminate].
  destruct (balance_at (or_ post0 (JList [])) idx) as [post_bal|]; [cbn [bind]|discriminate].
  destruct pre_bal, post_bal; try discriminate; cbn [number bind ret try_except];
    intros Hm; apply Rleb_true in Hm; eexists; (split; [reflexivity | exact Hm]).
Qed.

Lemma scan_found ledger reference inv entries sig :
  scan ledger reference inv entries = Some (Some sig) ->
  exists ent,
    In ent entries /\ get ent "signature" = Some sig
    /\ try_except (tx_matches reference inv (transaction ledger sig)) false = true.
Proof.
  induction entries as [|e entries IH]; simpl; [discriminate|].
  destruct (get e "signature") as [s|] eqn:Hs; [cbn [bind]|discriminate].
  destruct (try_except (tx_matches reference inv (transaction ledger s)) false) eqn:Hm.
  - intros Heq. injection Heq as <-. exists e. auto.
  - intros Hrec. destruct (IH Hrec) as (ent & Hin & Hsig & Hmatch).
    exists ent. auto.
Qed.

Lemma find_found ledger reference inv sig :
  _find_matching_tx ledger reference inv = Some (Some sig) ->
  is_solana_address DONATION_WALLET = true
  /\ exists entries,
       scanned ledger = Some entries
       /\ scan ledger reference inv entries = Some (Some sig).
Proof.
  unfold _find_matching_tx, scanned.
  destruct (is_solana_address DONATION_WALLET); [cbn [negb]|discriminate].
  destruct (truthy (signatures ledger)); [cbn [negb]|discriminate].
  destruct (contains (signatures ledger) "result") as [[|]|]; cbn [bind negb];
    try discriminate.
  destruct (item_str (signatures ledger) "result") as [result|]; [cbn [bind]|discriminate].
  destruct (iter result) as [entries|]; [cbn [bind]|discriminate].
  intros Hs. split; [reflexivity|]. exists entries. auto.
Qed.

End PaymentLaws.

Section PaymentExtras.
Context `{Builtins} `{Settings}.

Lemma same_request_set_status inv status sig :
  same_request inv (set_status inv status sig).
Proof. unfold same_request. simpl. repeat split. Qed.

Lemma check_invoice_cases now ledger inv inv' changed :
  check_invoice now ledger inv = Some (inv', changed) ->
  (inv' = inv /\ changed = false)
  \/ (inv_status inv = "pending"
      /\ IZR PAY_EXPIRY_SEC < now - inv_created_ts inv
      /\ inv' = set_status inv "expired" (inv_tx_sig inv) /\ changed = true)
  \/ (inv_status inv = "pending"
      /\ now - inv_created_ts inv <= IZR PAY_EXPIRY_SEC
      /\ exists sig,
           _find_matching_tx ledger (inv_reference inv) inv = Some (Some sig)
           /\ truthy sig = true
           /\ inv' = set_status inv "paid" sig /\ changed = true).
Proof.
  unfold check_invoice.
  destruct (String.eqb_spec (inv_status inv) "pending") as [Hp|Hp]; cbn [negb].
  - destruct (Rltb (IZR PAY_EXPIRY_SEC) (now - inv_created_ts inv)) eqn:He.
    + intros Heq. injection Heq as <- <-. right. left.
      apply Rltb_true in He. auto.
    + apply Rltb_false in He.
      destruct (_find_matching_tx ledger (inv_reference inv) inv) as [[sig|]|];
        cbn [bind ret]; try discriminate.
      * destruct (truthy sig) eqn:Ht; intros Heq; injection Heq as <- <-.
        -- right. right. split; [exact Hp|]. split; [exact He|]. exists sig. auto.
        -- left. auto.
      * intros Heq. injection Heq as <- <-. left. auto.
  - intros Heq. injection Heq as <- <-. left. auto.
Qed.

Lemma check_invoice_keeps now ledger inv inv' changed :
  check_invoice now ledger inv = Some (inv', changed) ->
  same_request inv inv' /\ (changed = false -> inv' = inv).
Proof.
  intros Hc.
  destruct (check_invoice_cases _ _ _ _ _ Hc)
    as [[-> ->]|[(Hp & He & -> & ->)|(Hp & He & sig & Hf & Ht & -> & ->)]].
  - split; [unfold same_request; repeat split | auto].
  - split; [apply same_request_set_status | discriminate].
  - split; [apply same_request_set_status | discriminate].
Qed.

(** X1.  The status of an invoice only moves from pending to expired or
    from pending to paid: an invoice that is not pending is left as it is
    and reported unchanged, and whatever the watcher does to an invoice it
    touches nothing but the status and the signature. *)
Theorem invoice_status_machine now ledger inv inv' changed :
  check_invoice now ledger inv = Some (inv', changed) ->
  same_request inv inv'
  /\ (inv_status inv <> "pending" -> inv' = inv /\ changed = false)
  /\ (changed = false -> inv' = inv)
  /\ (changed = true ->
      inv_status inv = "pending"
      /\ ((inv_status inv' = "expired" /\ inv_tx_sig inv' = inv_tx_sig inv)
          \/ (inv_status inv' = "paid" /\ truthy (inv_tx_sig inv') = true))).
Proof.
  intros Hc.
  destruct (check_invoice_cases _ _ _ _ _ Hc)
    as [[-> ->]|[(Hp & He & -> & ->)|(Hp & He & sig & Hf & Ht & -> & ->)]].
  - split; [unfold same_request; repeat split|]. split; [auto|]. split; [auto|].
    discriminate.
  - split; [apply same_request_set_status|]. split; [intros Hn; contradiction|].
    split; [discriminate|]. intros _. split; [exact Hp|]. left. simpl. auto.
  - split; [apply same_request_set_status|]. split; [intros Hn; contradiction|].
    split; [discriminate|]. intros _. split; [exact Hp|]. right. simpl. auto.
Qed.

(** X2.  An invoice is marked paid only on evidence: it was pending and
    not past its expiry, the wallet is a valid address, and the signature
    recorded is a non-empty signature of a scanned entry whose transaction
    includes the reference of the invoice and passes the amount test (for
    the native asset: the balance of the wallet went up by at least the
    requested amount). *)
Theorem paid_only_on_match now ledger inv inv' changed :
  check_invoice now ledger inv = Some (inv', changed) ->
  inv_status inv <> "paid" ->
  inv_status inv' = "paid" ->
  inv_status inv = "pending"
  /\ now - inv_created_ts inv <= IZR PAY_EXPIRY_SEC
  /\ is_solana_address DONATION_WALLET = true
  /\ truthy (inv_tx_sig inv') = true
  /\ (exists entries ent,
        scanned ledger = Some entries /\ In ent entries
        /\ get ent "signature" = Some (inv_tx_sig inv')
        /\ entry_matches ledger inv ent)
  /\ includes_reference (transaction ledger (inv_tx_sig inv')) (inv_reference inv)
     = true
  /\ (inv_asset inv = "SOL" ->
      exists d, native_delta (transaction ledger (inv_tx_sig inv')) = Some d
                /\ IZR (inv_amount_base inv) <= d).
Proof.
  intros Hc Hnot Hpaid.
  destruct (check_invoice_cases _ _ _ _ _ Hc)
    as [[-> ->]|[(Hp & He & -> & ->)|(Hp & He & sig & Hf & Ht & -> & ->)]].
  - contradiction.
  - simpl in Hpaid. discriminate.
  - destruct (find_found _ _ _ _ Hf) as (Hw & entries & Hsc & Hscan).
    destruct (scan_found _ _ _ _ _ Hscan) as (ent & Hin & Hsig & Hm).
    simpl. repeat split; try assumption.
    + exists entries, ent. repeat split; try assumption. exists sig. auto.
    + exact (match_includes_reference _ _ _ Hm).
    + intros Hsol. exact (native_match_inv _ _ _ Hsol Hm).
Qed.

(** X3.  Without a valid wallet address the watcher never marks an
    invoice paid and never fails: whatever the ledger replies, a pending
    invoice is expired when it is past its expiry and left alone
    otherwise. *)
Theorem no_wallet_no_payment now ledger inv :
  is_solana_address DONATION_WALLET = false ->
  check_invoice now ledger inv
  = Some (if (String.eqb (inv_status inv) "pending"
              && Rltb (IZR PAY_EXPIRY_SEC) (now - inv_created_ts inv))%bool
          then (set_status inv "expired" (inv_tx_sig inv), true)
          else (inv, false)).
Proof.
  intros Hw. unfold check_invoice, _find_matching_tx. rewrite Hw.
  destruct (String.eqb (inv_status inv) "pending"); cbn [negb andb]; [|reflexivity].
  destruct (Rltb (IZR PAY_EXPIRY_SEC) (now - inv_created_ts inv)); reflexivity.
Qed.

(** X4.  A cycle keeps the invoices in place, one for one, and when it
    reports no change the collection is exactly what it was, so nothing is
    lost by not saving it. *)
Theorem unchanged_cycle_keeps_invoices now ledgers i invoices invoices' changed finished :
  payments_cycle now ledgers i invoices = (invoices', changed, finished) ->
  List.length invoices' = List.length invoices
  /\ Forall2 same_request invoices invoices'
  /\ (changed = false -> invoices' = invoices).
Proof.
  revert i invoices' changed finished.
  induction invoices as [|inv rest IH]; intros i invoices' changed finished Hc.
  - simpl in Hc. injection Hc as <- <- <-. repeat split. constructor.
  - cbn [payments_cycle] in Hc.
    destruct (check_invoice now (ledgers i) inv) as [[inv1 ch1]|] eqn:Hinv.
    + destruct (payments_cycle now ledgers (S i) rest) as [[rest' ch'] fin'] eqn:Hrest.
      injection Hc as <- <- <-.
      destruct (IH _ _ _ _ Hrest) as (Hlen & Hsame & Hun).
      destruct (check_invoice_keeps _ _ _ _ _ Hinv) as (Hreq & Hkeep).
      split; [simpl; rewrite Hlen; reflexivity|]. split; [constructor; assumption|].
      intros Hch. apply orb_false_elim in Hch. destruct Hch as [-> ->].
      rewrite (Hkeep eq_refl), (Hun eq_refl). reflexivity.
    + injection Hc as <- <- <-. split; [reflexivity|]. split; [|reflexivity].
      clear. induction (inv :: rest) as [|x l IHl]; constructor; [|exact IHl].
      unfold same_request. repeat split.
Qed.

End PaymentExtras.

Section TokenExtras.
Context `{Builtins} `{Settings}.

Lemma tb_get_set (d : tb_dict) (k idx : json) (v e : tb_entry) :
  tb_get (tb_set d k v) idx = Some e -> e = v \/ tb_get d idx = Some e.
Proof.
  induction d as [|[k0 v0] d IH]; simpl.
  - destruct (key_eqb k idx); [|discriminate]. intros Heq. injection Heq as <-. auto.
  - destruct (key_eqb k0 k) eqn:Hk; simpl.
    + destruct (key_eqb k0 idx); [|auto]. intros Heq. injection Heq as <-. auto.
    + destruct (key_eqb k0 idx); [auto | exact IH].
Qed.

Lemma tb_record_owner mint tb idx owner amt dec :
  tb_record mint tb = Some (Some (idx, (owner, amt, dec))) ->
  exists m, get tb "mint" = Some m /\ differs_from_mint m mint = false
            /\ get tb "owner" = Some owner.
Proof.
  unfold tb_record.
  destruct (get tb "mint") as [m|]; [cbn [bind]|discriminate].
  destruct (differs_from_mint m mint) eqn:Hm; [discriminate|].
  destruct (get tb "accountIndex") as [i|]; [cbn [bind]|discriminate].
  destruct (get tb "owner") as [o|]; [cbn [bind]|discriminate].
  destruct (get tb "uiTokenAmount") as [u|]; [cbn [bind]|discriminate].
  destruct (get (or_ u (JObj [])) "decimals") as [d|]; [cbn [bind]|discriminate].
  destruct (int (or_ d (JInt 0))) as [dec'|]; [cbn [bind]|discriminate].
  destruct (get (or_ u (JObj [])) "amount") as [a|]; [cbn [bind]|discriminate].
  destruct (int (or_ a (JStr "0"))) as [amt'|]; [cbn [bind]|discriminate].
  destruct (hashable i); [|discriminate].
  intros Heq. injection Heq as <- <- <- <-. exists m. auto.
Qed.

Lemma tb_map_loop_foreign mint (l : list json) (out : tb_dict) :
  (forall tb, In tb l -> foreign mint tb) ->
  (forall idx o a d, tb_get out idx = Some (o, a, d) ->
     eq_str o DONATION_WALLET = false) ->
  forall idx o a d, tb_get (_tb_map_loop mint l out) idx = Some (o, a, d) ->
    eq_str o DONATION_WALLET = false.
Proof.
  revert out. induction l as [|tb l IH]; intros out Hl Hout; [exact Hout|].
  cbn [_tb_map_loop].
  assert (Hrest : forall tb', In tb' l -> foreign mint tb')
    by (intros tb' Hin; apply Hl; right; exact Hin).
  destruct (tb_record mint tb) as [[[k [[o0 a0] d0]]|]|] eqn:Hrec;
    try (apply IH; assumption).
  apply IH; [exact Hrest|]. intros idx o a d Hget.
  destruct (tb_get_set _ _ _ _ _ Hget) as [Heq|Hold]; [|exact (Hout _ _ _ _ Hold)].
  injection Heq as -> -> ->.
  destruct (tb_record_owner _ _ _ _ _ _ Hrec) as (m & Hm & Hsame & Ho).
  destruct (Hl tb (or_introl eq_refl) m o0 Hm Ho) as [Hd|Hd]; [congruence | exact Hd].
Qed.

Lemma gains_of_strangers (pre_map post_map : tb_dict) :
  (forall idx o a d, tb_get pre_map idx = Some (o, a, d) ->
     eq_str o DONATION_WALLET = false) ->
  (forall idx o a d, tb_get post_map idx = Some (o, a, d) ->
     eq_str o DONATION_WALLET = false) ->
  gains pre_map post_map DONATION_WALLET = 0%Z.
Proof.
  intros Hpre Hpost. unfold gains.
  induction (union_keys pre_map post_map) as [|idx l IH]; [reflexivity|].
  simpl. rewrite IH. unfold owned_delta.
  destruct (tb_get post_map idx) as [[[o a] d]|] eqn:Hp.
  - rewrite (Hpost _ _ _ _ Hp). reflexivity.
  - destruct (tb_get pre_map idx) as [[[o a] d]|] eqn:Hq; [|reflexivity].
    rewrite (Hpre _ _ _ _ Hq). reflexivity.
Qed.

Lemma token_maps_records tx mint :
  token_maps tx mint
  = ('(pre, post) <- token_records tx ;;
     ret (_tb_map_loop mint pre [], _tb_map_loop mint post [])).
Proof.
  unfold token_maps, token_records, _tb_map.
  destruct (tx_parts tx) as [[msg meta]|]; [cbn [bind]|reflexivity].
  destruct (get meta "preTokenBalances") as [pre0|]; [cbn [bind]|reflexivity].
  destruct (get meta "postTokenBalances") as [post0|]; [cbn [bind]|reflexivity].
  destruct (iter (or_ pre0 (JList []))) as [pre|]; [cbn [bind]|reflexivity].
  destruct (iter (or_ post0 (JList []))) as [post|]; reflexivity.
Qed.

(** X5.  A transaction whose token balance records are all for another
    mint or for accounts of other owners never matches an invoice for a
    positive amount of the token, whatever amounts it moves and even if it
    includes the reference. *)
Theorem foreign_tokens_never_match reference inv tx :
  String.eqb (inv_asset inv) "SOL" = false ->
  (0 < inv_amount_base inv)%Z ->
  (forall pre post tb,
     token_records tx = Some (pre, post) -> In tb (pre ++ post) ->
     foreign (inv_mint inv) tb) ->
  try_except (tx_matches reference inv tx) false = false.
Proof.
  intros Hsol Hpos Hforeign.
  destruct (includes_reference tx reference) eqn:Href;
    [|exact (no_reference_no_match _ _ _ Href)].
  rewrite (token_match reference inv tx Hsol Href), token_maps_records.
  destruct (token_records tx) as [[pre post]|]; [cbn [bind ret try_except]|reflexivity].
  rewrite gains_of_strangers.
  - apply Z.leb_gt. exact Hpos.
  - apply tb_map_loop_foreign; [|intros idx o a d Hn; discriminate].
    intros tb Hin. apply (Hforeign pre post); [reflexivity|].
    apply in_or_app. left. exact Hin.
  - apply tb_map_loop_foreign; [|intros idx o a d Hn; discriminate].
    intros tb Hin. apply (Hforeign pre post); [reflexivity|].
    apply in_or_app. right. exact Hin.
Qed.

End TokenExtras.

Lemma foreign_tokens_never_match_witness :
  try_except (tx_matches "ref-2" usdc_invoice to_stranger) false = false.
Proof.
  apply (foreign_tokens_never_match "ref-2" usdc_invoice to_stranger).
  - reflexivity.
  - reflexivity.
  - intros pre post tb Hrec Hin. injection Hrec as <- <-.
    destruct Hin as [<-|[]]. intros m o Hm Ho. right.
    injection Ho as <-. reflexivity.
Defined.

(** ** The consensus engine: order, range, selection *)

Lemma median_convex (P : R -> Prop) (l : list R) :
  (forall a b, P a -> P b -> P ((a + b) / 2)) ->
  l <> [] -> Forall P l -> P (median l).
Proof.
  intros Hmid Hne Hall. unfold median.
  assert (Hs : forall i, (i < List.length (sorted l))%nat -> P (nth i (sorted l) 0)).
  { intros i Hi. rewrite Forall_forall in Hall. apply Hall.
    apply (Permutation_in _ (Permutation_sym (sorted_perm l))).
    apply nth_In. exact Hi. }
  assert (Hn : (0 < List.length (sorted l))%nat).
  { rewrite sorted_length. destruct l; [contradiction | simpl; lia]. }
  set (n := List.length (sorted l)) in *.
  assert (Hhalf : (n / 2 < n)%nat) by (apply Nat.div_lt; lia).
  destruct (Nat.even n).
  - apply Hmid; apply Hs; lia.
  - apply Hs. exact Hhalf.
Qed.

Lemma consensus_base_nonempty (valid : list R) :
  valid <> [] ->
  (if (2 <=? List.length (surviving valid))%nat then surviving valid else valid) <> [].
Proof.
  intros Hne. destruct (Nat.leb_spec 2 (List.length (surviving valid))) as [H2|H2];
    [|exact Hne].
  intros Hnil. rewrite Hnil in H2. simpl in H2. lia.
Qed.

Lemma consensus_convex (P : R -> Prop) (valid : list R) :
  (forall a b, P a -> P b -> P ((a + b) / 2)) ->
  valid <> [] -> Forall P valid -> P (consensus valid).
Proof.
  intros Hmid Hne Hall. unfold consensus.
  assert (Hsurv : Forall P (surviving valid)).
  { rewrite Forall_forall in *. intros v Hv. apply Hall.
    unfold surviving in Hv. apply filter_In in Hv. tauto. }
  pose proof (consensus_base_nonempty valid Hne) as Hbase.
  destruct (3 <=? List.length valid)%nat;
    [|apply median_convex; assumption].
  destruct (2 <=? List.length (surviving valid))%nat;
    apply median_convex; assumption.
Qed.

(** X7.  The consensus does not depend on the order in which the quotes
    come: two samples that are rearrangements of one another have the same
    consensus. *)
Theorem consensus_of_rearranged `{Libm} (valid valid' : list R) :
  Permutation valid valid' -> consensus_of valid = consensus_of valid'.
Proof.
  intros Hp. unfold consensus_of.
  assert (Hlogs : sorted (map flog10 (filter (fun v => Rltb 0 v) valid))
                  = sorted (map flog10 (filter (fun v => Rltb 0 v) valid'))).
  { apply sorted_of_perm, Permutation_map, Permutation_filter. exact Hp. }
  rewrite Hlogs.
  assert (Hmed : _median valid = _median valid').
  { rewrite !median_refines, (median_of_perm _ _ Hp). reflexivity. }
  set (logs := sorted (map flog10 (filter (fun v => Rltb 0 v) valid'))).
  destruct (3 <=? List.length logs)%nat; [|exact Hmed].
  destruct (_percentile logs 0.25) as [q1|]; [cbn [bind]|reflexivity].
  destruct (_percentile logs 0.75) as [q3|]; [cbn [bind ret]|reflexivity].
  match goal with
  | |- context [(2 <=? ?n)%nat] => destruct (2 <=? n)%nat
  end; [reflexivity | exact Hmed].
Qed.

Lemma consensus_of_rearranged_witness :
  consensus_of [1000000; 110; 100; 105] = consensus_of [100; 105; 110; 1000000].
Proof.
  apply consensus_of_rearranged.
  apply Permutation_sym.
  apply (perm_trans (l' := [1000000; 100; 105; 110])).
  - change [100; 105; 110; 1000000] with ([100; 105; 110] ++ [1000000])%list.
    change [1000000; 100; 105; 110] with ([1000000] ++ [100; 105; 110])%list.
    apply Permutation_app_comm.
  - apply perm_skip.
    change [100; 105; 110] with ([100; 105] ++ [110])%list.
    change [110; 100; 105] with ([110] ++ [100; 105])%list.
    apply Permutation_app_comm.
Defined.

Lemma filter_exc_filter {A} (cond : A -> exc bool) (l l' : list A) :
  filter_exc cond l = Some l' ->
  l' = filter (fun a => match cond a with Some true => true | _ => false end) l.
Proof.
  revert l'. induction l as [|a l IH]; intros l' Hf; simpl in Hf.
  - injection Hf as <-. reflexivity.
  - destruct (cond a) as [b|] eqn:Ha; [cbn [bind] in Hf|discriminate].
    destruct (filter_exc cond l) as [r|]; [cbn [bind ret] in Hf|discriminate].
    injection Hf as <-. simpl. rewrite Ha, <- (IH r eq_refl). destruct b; reflexivity.
Qed.

Lemma filter_exc_raises {A} (cond : A -> exc bool) (l : list A) (a : A) :
  In a l -> cond a = None -> filter_exc cond l = None.
Proof.
  induction l as [|x l IH]; intros Hin Ha; [destruct Hin|].
  simpl. destruct Hin as [->|Hin].
  - rewrite Ha. reflexivity.
  - destruct (cond x); [cbn [bind]|reflexivity]. rewrite (IH Hin Ha). reflexivity.
Qed.

Lemma select_pairs_is_filter pairs ca filtered :
  select_pairs pairs ca = Some filtered -> filtered = filter (selected ca) pairs.
Proof.
  unfold select_pairs. fold (address_test ca).
  assert (Hfold : (if is_solana_address ca
                   then filter_exc (on_solana_with_address ca) pairs
                   else filter_exc (with_address_nocase (lower_string ca)) pairs)
                  = filter_exc (address_test ca) pairs)
    by (unfold address_test; destruct (is_solana_address ca); reflexivity).
  rewrite Hfold.
  destruct (filter_exc (address_test ca) pairs) as [f0|] eqn:H0; [cbn [bind]|discriminate].
  intros H1. apply filter_exc_filter in H0. apply filter_exc_filter in H1.
  subst f0 filtered. clear. induction pairs as [|p pairs IH]; [reflexivity|].
  cbn [filter]. unfold selected at 1.
  destruct (address_test ca p) as [[|]|]; try exact IH.
  cbn [filter]. destruct (_not_blacklisted p) as [[|]|]; try exact IH.
  f_equal. exact IH.
Qed.

(** X8.  The pairs [choose_consensus_pair] works on are, in feed order,
    exactly the pairs that pass the address test for the token identifier
    and are not on a blacklisted venue.  The selection as a whole fails as
    soon as the address test raises on one pair of the feed, as it does on
    a pair that is not a dict. *)
Theorem select_pairs_selects (pairs : list json) (ca : string) :
  (forall filtered,
     select_pairs pairs ca = Some filtered -> filtered = filter (selected ca) pairs)
  /\ (forall p, In p pairs -> address_test ca p = None ->
        select_pairs pairs ca = None)
  /\ (forall p, In p pairs -> (forall kv, p <> JObj kv) ->
        select_pairs pairs ca = None).
Proof.
  assert (Hraise : forall p, In p pairs -> address_test ca p = None ->
                             select_pairs pairs ca = None).
  { intros p Hin Hp. unfold select_pairs.
    assert ((if is_solana_address ca
             then filter_exc (on_solana_with_address ca) pairs
             else filter_exc (with_address_nocase (lower_string ca)) pairs) = None) as ->.
    { unfold address_test in Hp. destruct (is_solana_address ca);
        exact (filter_exc_raises _ _ _ Hin Hp). }
    reflexivity. }
  split; [intros filtered; apply select_pairs_is_filter|]. split; [exact Hraise|].
  intros p Hin Hnd. apply (Hraise p Hin).
  unfold address_test, on_solana_with_address, with_address_nocase.
  destruct p; try (destruct (is_solana_address ca); reflexivity).
  exfalso. apply (Hnd kv). reflexivity.
Qed.

Lemma select_pairs_selects_witness :
  feed = filter (selected evm_ca) feed
  /\ select_pairs [JInt 5] evm_ca = None.
Proof.
  split.
  - apply (proj1 (select_pairs_selects feed evm_ca) feed). reflexivity.
  - apply (proj2 (proj2 (select_pairs_selects [JInt 5] evm_ca)) (JInt 5)).
    + left. reflexivity.
    + intros kv Hkv. discriminate.
Defined.

(** Logarithm and power are taken without rounding here ([reals]). *)

Section BestExtras.
Context `{Builtins}.

Lemma usable_some mc m : usable mc = Some m -> mc = Some m.
Proof.
  destruct mc as [x|]; simpl; [|discriminate].
  destruct (negb (Reqb x 0) && Rltb 0 x)%bool; [|discriminate].
  intros Heq. injection Heq as <-. reflexivity.
Qed.

Lemma sample_of_some (cands : list candidate) (c : candidate) (m : R) :
  In c cands -> cand_value c = Some m -> In m (sample_of cands).
Proof.
  intros Hin Hv. unfold sample_of. apply in_flat_map. exists c.
  split; [exact Hin|]. rewrite Hv. left. reflexivity.
Qed.

Lemma chosen_pair_valued
    (pairs : list json) (ca : string)
    (best : option json) (consensus : R) (cands : list candidate) :
  choose_consensus_pair pairs ca = Some (best, consensus, cands) ->
  match best with
  | Some p =>
    In p pairs /\ selected ca p = true /\ 0 < consensus
    /\ exists m src, resolve_mc_value p ca = Some (Some m, src) /\ 0 < m
  | None => consensus = 0
  end.
Proof.
  unfold choose_consensus_pair. destruct pairs as [|p0 pairs'].
  { intros Hc. injection Hc as <- <- _. reflexivity. }
  destruct (select_pairs (p0 :: pairs') ca) as [filtered|] eqn:Hsel; [|discriminate].
  cbn [bind]. destruct filtered as [|q rest].
  { intros Hc. injection Hc as <- <- _. reflexivity. }
  destruct (collect (q :: rest) ca [] []) as [[cs valid]|] eqn:Hcol; [|discriminate].
  cbn [bind].
  destruct (collect_spec _ _ _ _ _ _ Hcol) as (new & Hcs & Hvalid & Hpairs & Hposall).
  simpl in Hcs, Hvalid. subst new.
  assert (Hres := collect_resolved _ _ _ _ _ _ Hcol (Forall_nil _)).
  rewrite Forall_forall in Hres, Hposall.
  destruct valid as [|v valid'].
  { intros Hc. injection Hc as <- <- _. reflexivity. }
  assert (Hpos : Forall (fun x => 0 < x) (v :: valid'))
    by (rewrite Hvalid; apply sample_of_positive; rewrite Forall_forall; exact Hposall).
  rewrite (consensus_refines _ Hpos). cbn [bind ret].
  intros Hc. injection Hc as <- <- <-.
  assert (Hcons : 0 < Spec.consensus (v :: valid')).
  { apply (consensus_convex (fun x => 0 < x)); [intros; lra | discriminate | exact Hpos]. }
  destruct (pick_best cs (Spec.consensus (v :: valid')) None) as [[p k]|] eqn:Hpick; simpl.
  - destruct (pick_best_some _ _ _ _ _ Hpick)
      as ([Heq|(c & m & Hin & Hcp & Hcv & Hk)] & _ & _); [discriminate|].
    assert (Hf : In p (q :: rest)).
    { rewrite <- Hpairs, <- Hcp. apply in_map. exact Hin. }
    pose proof (select_pairs_is_filter _ _ _ Hsel) as Hfilter.
    rewrite Hfilter in Hf. apply filter_In in Hf. destruct Hf as [Hpin Hselp].
    split; [exact Hpin|]. split; [exact Hselp|]. split; [exact Hcons|].
    destruct (Hres c Hin) as (mc & src & Hr & Hu).
    rewrite Hcv in Hu. symmetry in Hu. apply usable_some in Hu. subst mc.
    exists m, src. rewrite <- Hcp. split; [exact Hr|].
    specialize (Hposall c Hin). rewrite Hcv in Hposall. exact Hposall.
  - exfalso. destruct (pick_best_none _ _ _ Hpick) as [_ Hnone].
    assert (Hv : In v (sample_of cs)) by (rewrite <- Hvalid; left; reflexivity).
    unfold sample_of in Hv. apply in_flat_map in Hv. destruct Hv as (c & Hin & Hvc).
    rewrite (Hnone c Hin) in Hvc. destruct Hvc.
Qed.

(** X9.  When [choose_consensus_pair] names a best pair, that pair is one
    of the pairs of the feed that pass the selection, the consensus is
    positive, and [resolve_mc_value] on the best pair gives a strictly
    positive value: the value the callers then read from the best pair is
    never missing.  When it names none, the consensus is zero. *)
Theorem best_pair_has_value
    (pairs : list json) (ca : string)
    (best : option json) (consensus : R) (cands : list candidate) :
  choose_consensus_pair pairs ca = Some (best, consensus, cands) ->
  match best with
  | Some p =>
    In p pairs /\ selected ca p = true /\ 0 < consensus
    /\ exists m src, resolve_mc_value p ca = Some (Some m, src) /\ 0 < m
  | None => consensus = 0
  end.
Proof. exact (chosen_pair_valued pairs ca best consensus cands). Qed.

End BestExtras.

Lemma best_pair_has_value_witness :
  In (quoted 110 7 1) tied_feed /\ selected evm_ca (quoted 110 7 1) = true
  /\ 0 < 105
  /\ exists m src, resolve_mc_value (quoted 110 7 1) evm_ca = Some (Some m, src)
                   /\ 0 < m.
Proof.
  exact (best_pair_has_value tied_feed evm_ca (Some (quoted 110 7 1)) 105
           tied_candidates tied_feed_best).
Defined.

(** ** The alert commands *)

(** X10.  An alert set by [/mc] does not fire on the value it was set
    against, unless that value is the target itself; later it fires exactly
    when the value has come to the target from the side it was on.  Set
    while the value is unknown, it waits for the value to reach the target
    from below. *)
Theorem new_alert_fires_on_crossing (target mc later : R) :
  (meets (alert_direction target (Some mc)) (Some mc) target = true <-> mc = target)
  /\ (mc <> target ->
      (meets (alert_direction target (Some mc)) (Some later) target = true
       <-> (mc < target /\ target <= later) \/ (target < mc /\ later <= target)))
  /\ (meets (alert_direction target None) (Some later) target = true
      <-> target <= later).
Proof.
  unfold alert_direction, meets.
  destruct (Rltb target mc) eqn:Hlt;
    [apply Rltb_true in Hlt | apply Rltb_false in Hlt];
    cbn [String.eqb Ascii.eqb Bool.eqb]; rewrite !Rleb_true;
    repeat split; intros;
    repeat match goal with
    | Hd : _ \/ _ |- _ => destruct Hd
    end; lra.
Qed.

Lemma remove_keeps_others (rem : Reminder) (l l' : list Reminder)
                          (f : Reminder -> bool) :
  remove rem l = Some l' -> f rem = false -> filter f l' = filter f l.
Proof.
  revert l'. induction l as [|x l IH]; intros l' Hr Hf; simpl in Hr; [discriminate|].
  destruct (Reminder_eqb x rem) eqn:Hx.
  - injection Hr as <-. apply Reminder_eqb_eq in Hx. subst x. simpl.
    rewrite Hf. reflexivity.
  - destruct (remove rem l) as [r|]; [cbn [bind ret] in Hr|discriminate].
    injection Hr as <-. simpl. rewrite (IH r eq_refl Hf). reflexivity.
Qed.

(** X11.  What [/mc_remove] does to the alerts in memory, the replies
    to the user and the saving of the file aside.  With an index outside
    the alerts of the guild nothing changes and the index is found
    invalid.  With an index inside, asked by someone who neither created
    the alert at that index nor manages the guild, nothing changes and the
    request is denied.  Asked by the creator of that alert or by someone
    who manages the guild, one occurrence of the alert is taken out and
    nothing else: every other alert is there as often as before, and the
    alerts of other guilds keep their order. *)
Theorem mc_remove_spec (gid index user_id : Z) (can_manage : bool)
                       (reminders : list Reminder) :
  exists reminders' outcome,
    mc_remove gid index user_id can_manage reminders = Some (reminders', outcome)
    /\ match outcome with
       | Invalid =>
         reminders' = reminders
         /\ (index < 1
             \/ Z.of_nat (List.length
                            (filter (fun r => rem_guild_id r =? gid) reminders))
                < index)%Z
       | Denied =>
         reminders' = reminders
         /\ (1 <= index
             <= Z.of_nat (List.length
                            (filter (fun r => rem_guild_id r =? gid) reminders)))%Z
         /\ exists rem,
              nth_error (filter (fun r => (rem_guild_id r =? gid)%Z) reminders)
                        (Z.to_nat (index - 1)) = Some rem
              /\ user_id <> rem_creator_id rem
              /\ can_manage = false
       | Removed rem =>
         (1 <= index
          <= Z.of_nat (List.length
                         (filter (fun r => rem_guild_id r =? gid) reminders)))%Z
         /\ nth_error (filter (fun r => (rem_guild_id r =? gid)%Z) reminders)
                      (Z.to_nat (index - 1)) = Some rem
         /\ (user_id = rem_creator_id rem \/ can_manage = true)
         /\ (forall r, (occurrences r reminders'
                        + (if Reminder_eqb r rem then 1 else 0)
                        = occurrences r reminders)%nat)
         /\ filter (fun r => negb (rem_guild_id r =? gid)%Z) reminders'
            = filter (fun r => negb (rem_guild_id r =? gid)%Z) reminders
       end.
Proof.
  unfold mc_remove. set (sr := filter (fun r => (rem_guild_id r =? gid)%Z) reminders).
  destruct (Z.ltb_spec index 1) as [Hlow|Hlow]; cbn [orb].
  { exists reminders, Invalid. split; [reflexivity|]. split; [reflexivity | lia]. }
  destruct (Z.ltb_spec (Z.of_nat (List.length sr)) index) as [Hhigh|Hhigh].
  { exists reminders, Invalid. split; [reflexivity|]. split; [reflexivity | lia]. }
  assert (Hidx : exists rem, nth_error sr (Z.to_nat (index - 1)) = Some rem).
  { destruct (nth_error sr (Z.to_nat (index - 1))) as [rem|] eqn:Hn; [eauto|].
    apply nth_error_None in Hn. lia. }
  destruct Hidx as [rem Hrem].
  assert (Hpy : Py.index sr (index - 1) = Some rem).
  { unfold Py.index. destruct (Z.leb_spec 0 (index - 1)); [exact Hrem | lia]. }
  rewrite Hpy. cbn [bind].
  assert (Hin : In rem sr) by (eapply nth_error_In; exact Hrem).
  unfold sr in Hin. apply filter_In in Hin. destruct Hin as [Hin Hg].
  assert (Hrange : (1 <= index <= Z.of_nat (List.length sr))%Z) by lia.
  destruct (Z.eqb_spec user_id (rem_creator_id rem)) as [Hu|Hu]; cbn [negb andb].
  - destruct (remove_present rem reminders) as (l' & Hl' & Hcount);
      [apply occurrences_In; exact Hin|].
    rewrite Hl'. cbn [bind ret]. exists l', (Removed rem).
    split; [reflexivity|]. split; [exact Hrange|].
    split; [exact Hrem|]. split; [left; exact Hu|].
    split; [exact Hcount|]. apply (remove_keeps_others rem); [exact Hl'|].
    rewrite Hg. reflexivity.
  - destruct can_manage; cbn [negb].
    + destruct (remove_present rem reminders) as (l' & Hl' & Hcount);
        [apply occurrences_In; exact Hin|].
      rewrite Hl'. cbn [bind ret]. exists l', (Removed rem).
      split; [reflexivity|]. split; [exact Hrange|].
      split; [exact Hrem|]. split; [right; reflexivity|].
      split; [exact Hcount|]. apply (remove_keeps_others rem); [exact Hl'|].
      rewrite Hg. reflexivity.
    + exists reminders, Denied. split; [reflexivity|]. split; [reflexivity|].
      split; [exact Hrange|]. exists rem. split; [exact Hrem|].
      split; [exact Hu|reflexivity].
Qed.

Lemma new_alert_fires_on_crossing_witness :
  50 <> 100
  /\ (meets (alert_direction 100 (Some 50)) (Some 120) 100 = true
      <-> (50 < 100 /\ 100 <= 120) \/ (100 < 50 /\ 120 <= 100)).
Proof.
  assert (Hne : 50 <> 100) by lra.
  split; [exact Hne|].
  exact (proj1 (proj2 (new_alert_fires_on_crossing 100 50 120)) Hne).
Defined.

(** ** Histories read back and shown *)

Lemma insert_by_ts_perm (e : AlertEvent) (l : list AlertEvent) :
  Permutation (e :: l) (insert_by_ts e l).
Proof.
  induction l as [|y rest IH]; simpl; [reflexivity|].
  destruct (Rltb (ev_ts e) (ev_ts y)); [|reflexivity].
  rewrite perm_swap. apply perm_skip. exact IH.
Qed.

Lemma newest_first_perm (l : list AlertEvent) : Permutation l (newest_first l).
Proof.
  induction l as [|e rest IH]; simpl; [constructor|].
  rewrite <- insert_by_ts_perm. apply perm_skip. exact IH.
Qed.

Lemma insert_by_ts_ordered (e : AlertEvent) (l : list AlertEvent) :
  newest_first_ordered l -> newest_first_ordered (insert_by_ts e l).
Proof.
  unfold newest_first_ordered. induction 1 as [|y rest Hs IH Hall]; simpl.
  - constructor; constructor.
  - destruct (Rltb (ev_ts e) (ev_ts y)) eqn:Hlt.
    + apply Rltb_true in Hlt. constructor; [exact IH|].
      rewrite Forall_forall in *. intros z Hz.
      apply (Permutation_in z (Permutation_sym (insert_by_ts_perm e rest))) in Hz.
      destruct Hz as [<-|Hz]; [lra | apply Hall; exact Hz].
    + apply Rltb_false in Hlt. constructor; [constructor; assumption|].
      constructor; [exact Hlt|].
      rewrite Forall_forall in *. intros z Hz. specialize (Hall z Hz). lra.
Qed.

Lemma newest_first_is_ordered (l : list AlertEvent) :
  newest_first_ordered (newest_first l).
Proof.
  induction l as [|e rest IH]; simpl; [constructor|].
  apply insert_by_ts_ordered. exact IH.
Qed.

Lemma ordered_split (n : nat) (l : list AlertEvent) :
  newest_first_ordered l ->
  forall x y, In x (firstn n l) -> In y (skipn n l) -> ev_ts y <= ev_ts x.
Proof.
  unfold newest_first_ordered. intros Hs. revert n.
  induction Hs as [|a l Hs IH Hall]; intros n x y Hx Hy.
  - destruct n; destruct Hx.
  - destruct n as [|n]; [destruct Hx|]. simpl in Hx, Hy.
    destruct Hx as [<-|Hx]; [|exact (IH n x y Hx Hy)].
    rewrite Forall_forall in Hall. apply Hall.
    rewrite <- (firstn_skipn n l). apply in_or_app. right. exact Hy.
Qed.


(** X13.  [/mc_recent] shows between nothing and 50 events, whatever
    count is asked for (a missing or zero count is 5, a negative one is
    1): events of the guild, and of the user when one is given, newest
    first, none of them older than a matching event it leaves out. *)
Theorem mc_recent_spec (gid : Z) (user : option Z) (count : option Z)
                       (alert_events : list AlertEvent) :
  let shown := mc_recent gid user count alert_events in
  (List.length shown <= 50)%nat
  /\ newest_first_ordered shown
  /\ (forall e, In e shown ->
        In e alert_events /\ ev_guild_id e = gid
        /\ forall uid, user = Some uid -> ev_creator_id e = uid)
  /\ (forall e x, In e alert_events -> ev_guild_id e = gid ->
        (forall uid, user = Some uid -> ev_creator_id e = uid) ->
        In x shown -> In e shown \/ ev_ts e <= ev_ts x)
  /\ (count = None -> (List.length shown <= 5)%nat).
Proof.
  intros shown. unfold mc_recent in shown.
  set (matching := match user with
                   | Some uid => filter (fun e => (ev_creator_id e =? uid)%Z)
                                   (filter (fun e => (ev_guild_id e =? gid)%Z) alert_events)
                   | None => filter (fun e => (ev_guild_id e =? gid)%Z) alert_events
                   end) in *.
  set (n := Z.to_nat (Z.max 1 (Z.min (match count with
                                      | Some c => if (c =? 0)%Z then 5%Z else c
                                      | None => 5%Z
                                      end) 50))) in *.
  assert (Hmatch : forall e, In e matching <->
            In e alert_events /\ ev_guild_id e = gid
            /\ forall uid, user = Some uid -> ev_creator_id e = uid).
  { intros e. unfold matching. destruct user as [u|].
    - rewrite !filter_In, !Z.eqb_eq. split.
      + intros [[Hin Hg] Hu]. repeat split; try assumption.
        intros uid Heq. injection Heq as <-. exact Hu.
      + intros (Hin & Hg & Hu). repeat split; try assumption. apply Hu. reflexivity.
    - rewrite filter_In, Z.eqb_eq. split.
      + intros [Hin Hg]. repeat split; try assumption. discriminate.
      + intros (Hin & Hg & _). split; assumption. }
  split; [|split; [|split; [|split]]].
  - unfold shown. pose proof (firstn_le_length n (newest_first matching)). unfold n in *. lia.
  - unfold shown. apply StronglySorted_firstn, newest_first_is_ordered.
  - intros e He. apply Hmatch.
    apply (Permutation_in e (Permutation_sym (newest_first_perm matching))).
    unfold shown in He. rewrite <- (firstn_skipn n (newest_first matching)).
    apply in_or_app. left. exact He.
  - intros e x Hin Hg Hu Hx.
    assert (He : In e (newest_first matching)).
    { apply (Permutation_in e (newest_first_perm matching)). apply Hmatch. auto. }
    rewrite <- (firstn_skipn n (newest_first matching)) in He.
    apply in_app_or in He. destruct He as [He|He]; [left; exact He|].
    right. apply (ordered_split n (newest_first matching));
      [apply newest_first_is_ordered | exact Hx | exact He].
  - intros ->. unfold shown.
    pose proof (firstn_le_length n (newest_first matching)). unfold n in *.
    change (Z.to_nat (Z.max 1 (Z.min 5 50))) with 5%nat in *. lia.
Qed.


Lemma mc_recent_spec_witness :
  (List.length (mc_recent 2 None None [some_event; rule_event]) <= 5)%nat.
Proof.
  exact (proj2 (proj2 (proj2 (proj2
           (mc_recent_spec 2 None None [some_event; rule_event])))) eq_refl).
Defined.

(** ** The payment watcher on the ledger paid twice *)

Lemma sol_invoice_paid :
  check_invoice 100 paid_twice sol_invoice
  = Some (set_status sol_invoice "paid" (JStr "sig-1"), true).
Proof.
  rewrite (unexpired_checked 100 paid_twice sol_invoice eq_refl) by (simpl; lra).
  change (inv_reference sol_invoice) with "ref-1".
  rewrite paid_twice_found. reflexivity.
Qed.

Lemma invoice_status_machine_witness :
  same_request sol_invoice (set_status sol_invoice "paid" (JStr "sig-1"))
  /\ inv_status sol_invoice = "pending".
Proof.
  destruct (invoice_status_machine 100 paid_twice sol_invoice _ _ sol_invoice_paid)
    as (Hsame & _ & _ & Hchanged).
  split; [exact Hsame|]. exact (proj1 (Hchanged eq_refl)).
Defined.

Lemma paid_only_on_match_witness :
  includes_reference (transaction paid_twice (JStr "sig-1")) "ref-1" = true
  /\ exists d, native_delta (transaction paid_twice (JStr "sig-1")) = Some d
               /\ IZR (inv_amount_base sol_invoice) <= d.
Proof.
  destruct (paid_only_on_match 100 paid_twice sol_invoice _ _ sol_invoice_paid)
    as (_ & _ & _ & _ & _ & Href & Hd).
  - discriminate.
  - reflexivity.
  - split; [exact Href|]. exact (Hd eq_refl).
Defined.

Lemma no_wallet_no_payment_witness :
  check_invoice (H0 := no_wallet) 100 paid_twice sol_invoice
  = Some (sol_invoice, false).
Proof.
  rewrite (no_wallet_no_payment (H0 := no_wallet) 100 paid_twice sol_invoice eq_refl).
  cbn [inv_status sol_invoice String.eqb Ascii.eqb Bool.eqb andb].
  replace (Rltb _ _) with false; [reflexivity|].
  symmetry. apply Rltb_false. simpl. lra.
Defined.

Lemma unchanged_cycle_keeps_invoices_witness :
  List.length [set_status sol_invoice "paid" (JStr "sig-1")] = 1%nat
  /\ Forall2 same_request [sol_invoice] [set_status sol_invoice "paid" (JStr "sig-1")].
Proof.
  assert (Hc : payments_cycle 100 (fun _ => paid_twice) 0 [sol_invoice]
               = ([set_status sol_invoice "paid" (JStr "sig-1")], true, true)).
  { cbn [payments_cycle]. rewrite sol_invoice_paid. reflexivity. }
  destruct (unchanged_cycle_keeps_invoices _ _ _ _ _ _ _ Hc) as (Hlen & Hsame & _).
  split; assumption.
Defined.

(** ** The refresh of the cache *)

(** Logarithm and power are taken without rounding here ([reals]). *)

Section RefreshExtras.
Context `{Builtins}.

Lemma build_token_url_default ca : build_token_url ca None = Some (default_link ca).
Proof. unfold build_token_url, default_link. destruct (is_solana_address ca); reflexivity. Qed.

(** X14.  When the provider gives nothing for a token (the fetch failed,
    or the reply has no pairs) the refresh does not fail and writes a
    snapshot without a value: source "none", consensus zero, no delta, and
    the default link of the token.  No alert fires on such a snapshot,
    whatever its direction and target. *)
Theorem refresh_without_pairs (now : R) (data : json) (ca : string) :
  no_pairs data ->
  refresh now data ca
  = Some {| tok_mc := None; tok_url := default_link ca; tok_updated_ts := now;
            tok_source := "none"; tok_dex := JStr ""; tok_chain := JStr "";
            tok_quote := ""; tok_consensus := 0; tok_delta := None;
            tok_image_url := "" |}
  /\ forall s, refresh now data ca = Some s ->
       forall dir_ target, meets dir_ (tok_mc s) target = false.
Proof.
  intros Hno.
  match goal with
  | |- ?A /\ _ => assert (Hr : A); [|split; [exact Hr|];
                    intros s Hs; rewrite Hr in Hs;
                    apply (f_equal (option_map tok_mc)) in Hs; simpl in Hs;
                    assert (tok_mc s = None) as -> by congruence; reflexivity]
  end.
  unfold refresh.
  assert (Hdef : forall (d : exc (option R * string * json * json * json * string * R * string)),
            d = ret (None, "none", JNull, JStr "", JStr "", "", 0, "") ->
            ('(mc_val, src, link, dex, chain, quote, cons', img) <- d ;;
             url <- (if truthy link then ret link else build_token_url ca None) ;;
             ret {| tok_mc := mc_val; tok_url := url; tok_updated_ts := now;
                    tok_source := src; tok_dex := dex; tok_chain := chain;
                    tok_quote := quote; tok_consensus := cons';
                    tok_delta := deviation_of mc_val cons'; tok_image_url := img |})
            = Some {| tok_mc := None; tok_url := default_link ca; tok_updated_ts := now;
                      tok_source := "none"; tok_dex := JStr ""; tok_chain := JStr "";
                      tok_quote := ""; tok_consensus := 0; tok_delta := None;
                      tok_image_url := "" |}).
  { intros d ->. cbn [bind ret truthy]. rewrite build_token_url_default. reflexivity. }
  apply Hdef. destruct data; try reflexivity.
  unfold no_pairs in Hno. unfold get, get_default. cbn [bind ret].
  destruct (lookup kv "pairs") as [v|]; [rewrite Hno|]; reflexivity.
Qed.

Lemma resolve_source pair ca m src :
  resolve_mc_value pair ca = Some (Some m, src) -> src <> "none".
Proof.
  destruct pair as [| | | | | |kv]; try discriminate.
  destruct (resolve_order kv ca) as (a & b & Hab & ->).
  assert (Ha : a <> "none" /\ b <> "none").
  { destruct (prefers_fdv kv ca); injection Hab as -> ->; split; discriminate. }
  destruct (field_value (JObj kv) a) as [[f|]|]; cbn [bind ret]; try discriminate.
  - intros Heq. injection Heq as _ <-. tauto.
  - destruct (field_value (JObj kv) b) as [[f|]|]; cbn [bind ret]; try discriminate.
    + intros Heq. injection Heq as _ <-. tauto.
    + destruct (computed_value (JObj kv)); intros Heq; injection Heq as Hm <-;
        discriminate.
Qed.

Lemma default_link_truthy ca : truthy (default_link ca) = true.
Proof. unfold default_link. destruct (is_solana_address ca); reflexivity. Qed.

(** X15.  A snapshot written by the refresh always has a link and the
    time of the refresh.  If it has a value, the value and the consensus
    are strictly positive, the delta is the distance between them and the
    source names where the value came from; if it has none, it has no
    delta and its source is "none". *)
Theorem refresh_snapshot_sound (now : R) (data : json) (ca : string) (s : Snapshot) :
  refresh now data ca = Some s ->
  tok_updated_ts s = now
  /\ truthy (tok_url s) = true
  /\ match tok_mc s with
     | Some m =>
       0 < m /\ 0 < tok_consensus s
       /\ tok_delta s = Some (Rabs (m - tok_consensus s))
       /\ tok_source s <> "none"
     | None => tok_delta s = None /\ tok_source s = "none"
     end.
Proof.
  unfold refresh.
  assert (Hfin : forall mc_val src link dex chain quote cons' img,
    match mc_val with
    | Some m => 0 < m /\ 0 < cons' /\ src <> "none"
    | None => src = "none"
    end ->
    (url <- (if truthy link then ret link else build_token_url ca None) ;;
     ret {| tok_mc := mc_val; tok_url := url; tok_updated_ts := now;
            tok_source := src; tok_dex := dex; tok_chain := chain;
            tok_quote := quote; tok_consensus := cons';
            tok_delta := deviation_of mc_val cons'; tok_image_url := img |}) = Some s ->
    tok_updated_ts s = now
    /\ truthy (tok_url s) = true
    /\ match tok_mc s with
       | Some m =>
         0 < m /\ 0 < tok_consensus s
         /\ tok_delta s = Some (Rabs (m - tok_consensus s))
         /\ tok_source s <> "none"
       | None => tok_delta s = None /\ tok_source s = "none"
       end).
  { intros mc_val src link dex chain quote cons' img Hgood Hs.
    assert (Hurl : exists url,
              (if truthy link then ret link else build_token_url ca None) = Some url
              /\ truthy url = true).
    { destruct (truthy link) eqn:Hl; [exists link; auto|].
      exists (default_link ca). split; [apply build_token_url_default|].
      apply default_link_truthy. }
    destruct Hurl as (url & Hu & Ht). rewrite Hu in Hs. cbn [bind ret] in Hs.
    injection Hs as <-. cbn. split; [reflexivity|]. split; [exact Ht|].
    destruct mc_val as [m|]; [|auto].
    destruct Hgood as (Hm & Hc & Hsrc). repeat split; try assumption.
    unfold deviation_of.
    replace (Reqb m 0) with false by (symmetry; apply Reqb_false; lra).
    replace (Reqb cons' 0) with false by (symmetry; apply Reqb_false; lra).
    reflexivity. }
  assert (Hnone : forall cons',
    (url <- (if truthy JNull then ret JNull else build_token_url ca None) ;;
     ret {| tok_mc := None; tok_url := url; tok_updated_ts := now;
            tok_source := "none"; tok_dex := JStr ""; tok_chain := JStr "";
            tok_quote := ""; tok_consensus := cons';
            tok_delta := deviation_of None cons'; tok_image_url := "" |}) = Some s ->
    tok_updated_ts s = now
    /\ truthy (tok_url s) = true
    /\ match tok_mc s with
       | Some m =>
         0 < m /\ 0 < tok_consensus s
         /\ tok_delta s = Some (Rabs (m - tok_consensus s))
         /\ tok_source s <> "none"
       | None => tok_delta s = None /\ tok_source s = "none"
       end).
  { intros cons'. apply Hfin. reflexivity. }
  destruct data as [| | | | | |kv]; cbn [bind ret]; try apply Hnone.
  change (get (JObj kv) "pairs")
    with (Some (match lookup kv "pairs" with Some v => v | None => JNull end)).
  cbn [bind].
  destruct (truthy (match lookup kv "pairs" with Some v => v | None => JNull end));
    cbn [bind ret]; [|apply Hnone].
  destruct (choose_on _ ca) as [[[best consensus] cands]|] eqn:Hch;
    [cbn [bind]|cbn [bind]; discriminate].
  destruct best as [b|]; [|cbn [bind ret]; apply Hnone].
  destruct (truthy b); [|cbn [bind ret]; apply Hnone].
  assert (Hval : 0 < consensus
                 /\ exists m src, resolve_mc_value b ca = Some (Some m, src) /\ 0 < m).
  { unfold choose_on in Hch.
    destruct (match lookup kv "pairs" with Some v => v | None => JNull end);
      try discriminate.
    pose proof (chosen_pair_valued _ _ _ _ _ Hch) as Hb. simpl in Hb. tauto. }
  destruct Hval as (Hc & m & src & Hres & Hm). rewrite Hres. cbn [bind].
  destruct (build_token_url ca (Some b)) as [link|]; [cbn [bind]|cbn [bind]; discriminate].
  destruct (get_default b "dexId" (JStr "")) as [dex|]; [cbn [bind]|cbn [bind]; discriminate].
  destruct (get_default b "chainId" (JStr "")) as [chain|]; [cbn [bind]|cbn [bind]; discriminate].
  destruct (get b "quoteToken") as [q|]; [cbn [bind]|cbn [bind]; discriminate].
  destruct (get (or_ q (JObj [])) "symbol") as [sym|]; [cbn [bind]|cbn [bind]; discriminate].
  destruct (upper (or_ sym (JStr ""))) as [quote|]; [cbn [bind]|cbn [bind]; discriminate].
  destruct (get_image_url b ca) as [img|]; [cbn [bind ret]|cbn [bind]; discriminate].
  apply Hfin. repeat split; try assumption.
  exact (resolve_source _ _ _ _ Hres).
Qed.

End RefreshExtras.

Lemma refresh_without_pairs_witness :
  refresh 7 JNull evm_ca
  = Some {| tok_mc := None; tok_url := default_link evm_ca; tok_updated_ts := 7;
            tok_source := "none"; tok_dex := JStr ""; tok_chain := JStr "";
            tok_quote := ""; tok_consensus := 0; tok_delta := None;
            tok_image_url := "" |}.
Proof. exact (proj1 (refresh_without_pairs 7 JNull evm_ca I)). Defined.

Lemma tied_reply_refreshed : refresh 7 tied_reply evm_ca = Some tied_snapshot.
Proof.
  unfold refresh, tied_reply.
  change (get (JObj [("pairs", JList tied_feed)]) "pairs") with (Some (JList tied_feed)).
  cbn [bind]. change (truthy (JList tied_feed)) with true. cbn [choose_on].
  rewrite tied_feed_best. cbn [bind].
  change (truthy (quoted 110 7 1)) with true. cbv iota.
  rewrite (proj1 (quoted_resolves 110 7 1 ltac:(lia))). cbn [bind].
  change (build_token_url evm_ca (Some (quoted 110 7 1)))
    with (Some (JStr "https://dexscreener.com")).
  cbn [bind].
  change (get_default (quoted 110 7 1) "dexId" (JStr "")) with (Some (JStr "uniswap")).
  cbn [bind].
  change (get_default (quoted 110 7 1) "chainId" (JStr "")) with (Some (JStr "ethereum")).
  cbn [bind].
  change (get (quoted 110 7 1) "quoteToken") with (Some JNull). cbn [bind].
  change (get (or_ JNull (JObj [])) "symbol") with (Some JNull). cbn [bind].
  change (upper (or_ JNull (JStr ""))) with (Some ""). cbn [bind].
  change (get_image_url (quoted 110 7 1) evm_ca)
    with (Some "https://robohash.org/0xabc.png?size=200x200&set=set1").
  cbn [bind ret String.eqb Ascii.eqb Bool.eqb truthy negb].
  unfold deviation_of. float_cmp. reflexivity.
Qed.

Lemma refresh_snapshot_sound_witness :
  tok_updated_ts tied_snapshot = 7
  /\ truthy (tok_url tied_snapshot) = true
  /\ 0 < 110 /\ 0 < 105
  /\ tok_delta tied_snapshot = Some (Rabs (110 - 105))
  /\ tok_source tied_snapshot <> "none".
Proof.
  exact (refresh_snapshot_sound 7 tied_reply evm_ca tied_snapshot tied_reply_refreshed).
Defined.

(** ** Liquidity venues *)

Lemma upsert_names (agg : list (string * Totals)) v init step :
  (In v (map fst agg) /\ map fst (upsert agg v init step) = map fst agg)
  \/ (~ In v (map fst agg)
      /\ map fst (upsert agg v init step) = (map fst agg ++ [v])%list).
Proof.
  induction agg as [|[v0 a0] agg IH]; cbn [upsert map fst app].
  - right. split; [intros []|reflexivity].
  - destruct (String.eqb v0 v) eqn:E.
    + apply String.eqb_eq in E. subst v0. left. split; [left; reflexivity|reflexivity].
    + apply String.eqb_neq in E. cbn [map fst].
      destruct IH as [[Hin Heq]|[Hin Heq]].
      * left. split; [right; exact Hin | rewrite Heq; reflexivity].
      * right. split; [intros [Hv|Hv]; [exact (E Hv)|exact (Hin Hv)]
                      | rewrite Heq; reflexivity].
Qed.

Lemma upsert_in (agg : list (string * Totals)) v init step v' a' :
  NoDup (map fst agg) ->
  In (v', a') (upsert agg v init step) ->
  (v' <> v /\ In (v', a') agg)
  \/ (v' = v
      /\ ((~ In v (map fst agg) /\ a' = step init)
          \/ exists a0, In (v, a0) agg /\ a' = step a0)).
Proof.
  induction agg as [|[v0 a0] agg IH]; cbn [upsert map fst]; intros Hnd.
  - intros [Heq|[]]. injection Heq as <- <-. right. split; [reflexivity|].
    left. split; [intros []|reflexivity].
  - inversion Hnd as [|x l Hnotin Hnd']; subst x l.
    destruct (String.eqb v0 v) eqn:E.
    + apply String.eqb_eq in E. subst v0. intros [Heq|Hin].
      * injection Heq as <- <-. right. split; [reflexivity|].
        right. exists a0. split; [left; reflexivity|reflexivity].
      * left. split; [|right; exact Hin].
        intros ->. apply Hnotin. apply (in_map fst) in Hin. exact Hin.
    + apply String.eqb_neq in E. intros [Heq|Hin].
      * injection Heq as <- <-. left. split; [exact E|left; reflexivity].
      * destruct (IH Hnd' Hin) as [[Hne Hin']|[-> [[Hn Ha]|[a1 [Hin' Ha]]]]].
        -- left. split; [exact Hne|right; exact Hin'].
        -- right. split; [reflexivity|]. left. split; [|exact Ha].
           intros [Hv|Hv]; [exact (E Hv)|exact (Hn Hv)].
        -- right. split; [reflexivity|]. right. exists a1.
           split; [right; exact Hin'|exact Ha].
Qed.

Lemma upsert_nodup (agg : list (string * Totals)) v init step :
  NoDup (map fst agg) -> NoDup (map fst (upsert agg v init step)).
Proof.
  intros Hnd. destruct (upsert_names agg v init step) as [[_ ->]|[Hn ->]].
  - exact Hnd.
  - apply NoDup_app; [exact Hnd | constructor; [intros []|constructor] |].
    intros x Hx [<-|[]]. exact (Hn Hx).
Qed.

Lemma filter_none {A} (f : A -> bool) (l : list A) :
  existsb f l = false -> filter f l = [].
Proof.
  induction l as [|x l IH]; [reflexivity|]. cbn [existsb filter].
  destruct (f x); [discriminate|]. exact IH.
Qed.

Lemma sum_R_snoc f ps p : sum_R f (ps ++ [p]) = sum_R f ps + f p.
Proof. unfold sum_R. rewrite fold_left_app. reflexivity. Qed.

Lemma sum_Z_snoc f ps p : sum_Z f (ps ++ [p]) = (sum_Z f ps + f p)%Z.
Proof. unfold sum_Z. rewrite fold_left_app. reflexivity. Qed.

Section VenueTotals.
Context `{Builtins} `{Tables}.

Lemma aggregate_tallies (flt : list json) (ca : string) :
  forall done agg agg',
    tallied done agg ->
    aggregate flt ca agg = Some agg' ->
    tallied (done ++ flt) agg'.
Proof.
  induction flt as [|p rest IH]; intros done agg agg' Hinv Hagg.
  - cbn [aggregate] in Hagg. injection Hagg as <-. rewrite app_nil_r. exact Hinv.
  - cbn [aggregate] in Hagg.
    destruct (_dex_alias p) as [venue|] eqn:Hal; [cbn [bind] in Hagg|discriminate].
    replace (done ++ p :: rest)%list with ((done ++ [p]) ++ rest)%list
      by (rewrite <- app_assoc; reflexivity).
    destruct Hinv as (Hnd & Hnames & Htot).
    destruct (existsb (String.eqb venue) LP_VENUES) eqn:Hlp; cbn [negb] in Hagg.
    + (* a venue that is reported on *)
      assert (Hven : In venue LP_VENUES).
      { apply existsb_exists in Hlp. destruct Hlp as (x & Hx & E).
        apply String.eqb_eq in E. subst x. exact Hx. }
      destruct (_liq_vol_tx p) as [[[liq' vol'] txc]|] eqn:Hlvt;
        [cbn [bind] in Hagg|discriminate].
      destruct (get p "quoteToken") as [q|]; [cbn [bind] in Hagg|discriminate].
      destruct (get (or_ q (JObj [])) "symbol") as [sym|];
        [cbn [bind] in Hagg|discriminate].
      destruct (upper (or_ sym (JStr ""))) as [quote|];
        [cbn [bind] in Hagg|discriminate].
      destruct (get p "url") as [u|]; [cbn [bind] in Hagg|discriminate].
      destruct (if truthy u then ret u else build_token_url ca (Some p)) as [url|];
        [cbn [bind] in Hagg|discriminate].
      eapply IH; [|exact Hagg].
      assert (Hon : forall v, on_venue v p = String.eqb venue v)
        by (intros v; unfold on_venue; rewrite Hal; reflexivity).
      split; [apply upsert_nodup; exact Hnd|]. split.
      * intros v. rewrite existsb_app. cbn [existsb]. rewrite Hon, orb_false_r.
        destruct (upsert_names agg venue
                    {| pools := 0; liq := 0; vol := 0; tx := 0; quotes := [];
                       best_url := url; best_liq := 0 |}
                    (fun a => add_pool a liq' vol' txc quote url))
          as [[Hin ->]|[Hn ->]].
        -- rewrite Hnames. destruct (String.eqb venue v) eqn:E.
           ++ apply String.eqb_eq in E. subst v. rewrite orb_true_r.
              apply Hnames in Hin. tauto.
           ++ rewrite orb_false_r. tauto.
        -- rewrite in_app_iff. cbn [In]. rewrite Hnames.
           destruct (String.eqb venue v) eqn:E.
           ++ apply String.eqb_eq in E. subst v. rewrite orb_true_r. tauto.
           ++ apply String.eqb_neq in E. rewrite orb_false_r. tauto.
      * intros v a Hin. cbv zeta. rewrite filter_app. cbn [filter]. rewrite Hon.
        apply upsert_in in Hin; [|exact Hnd].
        destruct Hin as [[Hne Hin]|[-> [[Hn ->]|[a0 [Hin ->]]]]].
        -- assert (E : String.eqb venue v = false)
             by (apply String.eqb_neq; intros ->; apply Hne; reflexivity).
           rewrite E, app_nil_r. exact (Htot v a Hin).
        -- rewrite String.eqb_refl.
           assert (Hnone : filter (on_venue venue) done = []).
           { apply filter_none. destruct (existsb (on_venue venue) done) eqn:E;
               [|reflexivity].
             exfalso. apply Hn. apply Hnames. split; [exact Hven|exact E]. }
           rewrite Hnone. cbn [app List.length add_pool pools liq vol tx].
           unfold sum_R, sum_Z, liq_of, vol_of, tx_of. cbn [fold_left].
           rewrite Hlvt. repeat split; reflexivity.
        -- rewrite String.eqb_refl.
           destruct (Htot venue a0 Hin) as (Hp & Hl & Hv & Ht).
           cbn [add_pool pools liq vol tx].
           rewrite length_app, sum_R_snoc, sum_R_snoc, sum_Z_snoc.
           cbn [List.length]. rewrite Hp, Hl, Hv, Ht.
           unfold liq_of, vol_of, tx_of. rewrite Hlvt.
           repeat split; try reflexivity. lia.
    + (* a venue that is not reported on *)
      eapply IH; [|exact Hagg].
      assert (Hoff : forall v, In v LP_VENUES -> on_venue v p = false).
      { intros v Hv. unfold on_venue. rewrite Hal. apply String.eqb_neq.
        intros ->. assert (Ht : existsb (String.eqb v) LP_VENUES = true).
        { apply existsb_exists. exists v. split; [exact Hv|apply String.eqb_refl]. }
        rewrite Ht in Hlp. discriminate. }
      split; [exact Hnd|]. split.
      * intros v. rewrite Hnames, existsb_app. cbn [existsb].
        split; intros [Hv He]; (split; [exact Hv|]).
        -- rewrite He. reflexivity.
        -- rewrite (Hoff v Hv) in He. cbn [orb] in He.
           rewrite orb_false_r in He. exact He.
      * intros v a Hin. cbv zeta. rewrite filter_app. cbn [filter].
        assert (Hv : In v LP_VENUES).
        { apply (in_map fst) in Hin. apply Hnames in Hin. tauto. }
        rewrite (Hoff v Hv), app_nil_r. exact (Htot v a Hin).
Qed.

Lemma with_scores_spec (agg : list (string * Totals)) scored :
  with_scores agg = Some scored ->
  map fst scored = map fst agg
  /\ forall v a s, In (v, (a, s)) scored ->
       In (v, a) agg /\ _lp_score (liq a) (vol a) (tx a) = Some s.
Proof.
  revert scored. induction agg as [|[v0 a0] agg IH]; intros scored Hs.
  - cbn [with_scores] in Hs. injection Hs as <-. split; [reflexivity|intros ? ? ? []].
  - cbn [with_scores] in Hs.
    destruct (_lp_score (liq a0) (vol a0) (tx a0)) as [s0|] eqn:Hsc;
      [cbn [bind] in Hs|discriminate].
    destruct (with_scores agg) as [rest'|]; [cbn [bind] in Hs|discriminate].
    injection Hs as <-. destruct (IH rest' eq_refl) as [Hn Hin]. split.
    + cbn [map fst]. rewrite Hn. reflexivity.
    + intros v a s [Heq|Hin'].
      * injection Heq as <- <- <-. split; [left; reflexivity|exact Hsc].
      * destruct (Hin v a s Hin') as [Hi Hscore]. split; [right; exact Hi|exact Hscore].
Qed.

End VenueTotals.

Section VenueSummary.
Context `{Builtins} `{Tables}.

Lemma summarize_unfolded (pairs : list json) (ca : string) scored best :
  summarize_lp_venues pairs ca = Some (scored, best) ->
  best = hd_error (ranked scored)
  /\ exists agg, aggregate (filter (selected ca) pairs) ca [] = Some agg
                 /\ with_scores agg = Some scored.
Proof.
  unfold summarize_lp_venues. intros Hs.
  destruct (select_pairs pairs ca) as [flt|] eqn:Hsel; [cbn [bind] in Hs|discriminate].
  apply select_pairs_is_filter in Hsel. rewrite <- Hsel.
  destruct flt as [|p flt].
  - injection Hs as <- <-. split; [reflexivity|]. exists []. split; reflexivity.
  - destruct (aggregate (p :: flt) ca []) as [agg|]; [cbn [bind] in Hs|discriminate].
    destruct (with_scores agg) as [sc|] eqn:Hsc; [cbn [bind] in Hs|discriminate].
    injection Hs as <- <-. split; [reflexivity|]. exists agg. split; [reflexivity|exact Hsc].
Qed.

(** X16.  When [summarize_lp_venues] returns, the venues of its table are
    distinct and are exactly the venues of [LP_VENUES] on which a selected
    pair of the feed is listed, aliases resolved.  For each of them [pools]
    is the number of its selected pairs, [liq], [vol] and [tx] are the sums
    of their liquidity, 24-hour volume and 24-hour transaction count, and
    the score is [_lp_score] of these three sums. *)
Theorem venue_totals (pairs : list json) (ca : string) scored best :
  summarize_lp_venues pairs ca = Some (scored, best) ->
  let flt := filter (selected ca) pairs in
  NoDup (map fst scored)
  /\ (forall v, In v (map fst scored)
                <-> In v LP_VENUES /\ existsb (on_venue v) flt = true)
  /\ (forall v a s, In (v, (a, s)) scored ->
        let ps := filter (on_venue v) flt in
        pools a = Z.of_nat (List.length ps)
        /\ liq a = sum_R liq_of ps
        /\ vol a = sum_R vol_of ps
        /\ tx a = sum_Z tx_of ps
        /\ _lp_score (liq a) (vol a) (tx a) = Some s).
Proof.
  intros Hs flt. apply summarize_unfolded in Hs.
  destruct Hs as (_ & agg & Hagg & Hsc). fold flt in Hagg.
  assert (Hinv : tallied flt agg).
  { apply (aggregate_tallies flt ca [] [] agg); [|exact Hagg].
    split; [constructor|]. split.
    - intros v. cbn [map In existsb]. split; [intros []|intros [_ Hf]; discriminate].
    - intros v a []. }
  destruct Hinv as (Hnd & Hnames & Htot).
  destruct (with_scores_spec agg scored Hsc) as [Hn Hin].
  rewrite Hn. split; [exact Hnd|]. split; [exact Hnames|].
  intros v a s Hvs. destruct (Hin v a s Hvs) as [Hi Hscore].
  destruct (Htot v a Hi) as (Hp & Hl & Hv & Ht). cbv zeta.
  repeat split; assumption.
Qed.

Lemma hd_insert_ranked e l :
  hd_error (insert_ranked e l)
  = match l with
    | [] => Some e
    | y :: _ => if key_lt (rank_key y) (rank_key e) then Some y else Some e
    end.
Proof. destruct l as [|y l]; [reflexivity|]. cbn [insert_ranked]. destruct (key_lt _ _); reflexivity. Qed.

Lemma ranked_head l :
  match hd_error (ranked l) with
  | Some e => In e l /\ forall e', In e' l -> key_le (rank_key e) (rank_key e')
  | None => l = []
  end.
Proof.
  induction l as [|x l IH]; [reflexivity|].
  cbn [ranked]. rewrite hd_insert_ranked.
  destruct (ranked l) as [|y r]; cbn [hd_error] in IH.
  - subst l. split; [left; reflexivity|]. intros e' [<-|[]]. apply key_le_refl.
  - destruct IH as [Hy Hmin]. destruct (key_lt (rank_key y) (rank_key x)) eqn:E.
    + split; [right; exact Hy|]. intros e' [<-|He'].
      * apply key_less_le, key_lt_true. exact E.
      * apply Hmin. exact He'.
    + apply key_lt_false in E. split; [left; reflexivity|]. intros e' [<-|He'].
      * apply key_le_refl.
      * eapply key_le_trans; [exact E|apply Hmin; exact He'].
Qed.

Lemma rank_key_le e e' : key_le (rank_key e) (rank_key e') -> ranks_before e e'.
Proof.
  destruct e as [v [a s]], e' as [v' [a' s']]. unfold key_le, rank_key, ranks_before.
  intros [Hlt|[Heq [Hlt|[Heq' Hle]]]].
  - left. lra.
  - right. split; [lra|]. left. lra.
  - right. split; [lra|]. right. split; lra.
Qed.

(** X17.  The venue [summarize_lp_venues] recommends is an entry of its
    table, and no entry has a higher score, or the same score with more
    liquidity, or the same score and liquidity with more volume.  There is
    no recommendation only when the table is empty. *)
Theorem best_venue_ranks_first (pairs : list json) (ca : string) scored best :
  summarize_lp_venues pairs ca = Some (scored, best) ->
  match best with
  | Some e => In e scored /\ forall e', In e' scored -> ranks_before e e'
  | None => scored = []
  end.
Proof.
  intros Hs. apply summarize_unfolded in Hs. destruct Hs as (-> & _).
  pose proof (ranked_head scored) as Hh.
  destruct (hd_error (ranked scored)) as [e|]; [|exact Hh].
  destruct Hh as [He Hmin]. split; [exact He|].
  intros e' He'. apply rank_key_le, Hmin. exact He'.
Qed.

End VenueSummary.

Lemma math_log10_some (x : R) : 0 < x -> math_log10 x = Some (log10 x).
Proof. intros Hx. unfold math_log10. replace (Rltb 0 x) with true by (symmetry; apply Rltb_true; exact Hx). reflexivity. Qed.

Lemma log10_1 : log10 1 = 0.
Proof. unfold log10. rewrite ln_1. field. apply Rgt_not_eq, ln_10_pos. Qed.

Lemma log10_monotone (x y : R) : 0 < x -> x <= y -> log10 x <= log10 y.
Proof.
  intros Hx [Hlt| ->]; [left; apply log10_increasing; assumption|right; reflexivity].
Qed.

(** X18.  On totals that are not negative [_lp_score] returns a score,
    which is not negative and does not decrease when liquidity, volume and
    transaction count do not decrease. *)
Theorem lp_score_monotone (liq vol liq' vol' : R) (tx tx' : Z) :
  0 <= liq <= liq' -> 0 <= vol <= vol' -> (0 <= tx <= tx')%Z ->
  exists s s',
    _lp_score liq vol tx = Some s /\ _lp_score liq' vol' tx' = Some s'
    /\ 0 <= s <= s'.
Proof.
  intros Hl Hv Ht.
  assert (Ht0 : 0 <= IZR tx) by (apply IZR_le; lia).
  assert (Ht1 : IZR tx <= IZR tx') by (apply IZR_le; lia).
  unfold _lp_score.
  rewrite !math_log10_some by lra. cbn [bind ret].
  eexists. eexists. split; [reflexivity|]. split; [reflexivity|].
  pose proof (log10_monotone 1 (1 + liq) ltac:(lra) ltac:(lra)) as A0.
  pose proof (log10_monotone 1 (1 + vol) ltac:(lra) ltac:(lra)) as B0.
  pose proof (log10_monotone 1 (1 + IZR tx) ltac:(lra) ltac:(lra)) as C0.
  pose proof (log10_monotone (1 + liq) (1 + liq') ltac:(lra) ltac:(lra)) as A1.
  pose proof (log10_monotone (1 + vol) (1 + vol') ltac:(lra) ltac:(lra)) as B1.
  pose proof (log10_monotone (1 + IZR tx) (1 + IZR tx') ltac:(lra) ltac:(lra)) as C1.
  rewrite log10_1 in A0, B0, C0. lra.
Qed.

Lemma venue_scores_differ :
  log10 (1 + (0 + 4 + 5)) * 0.5 + log10 (1 + (0 + 1 + 1)) * 0.4 + log10 (1 + 6) * 0.2
  < log10 (1 + (0 + 99)) * 0.5 + log10 (1 + (0 + 2)) * 0.4 + log10 (1 + 3) * 0.2.
Proof.
  replace (1 + (0 + 4 + 5)) with 10 by lra.
  replace (1 + (0 + 99)) with 100 by lra.
  replace (1 + (0 + 1 + 1)) with 3 by lra.
  replace (1 + (0 + 2)) with 3 by lra.
  replace (1 + 6) with 7 by lra. replace (1 + 3) with 4 by lra.
  destruct log10_of_samples as (H100 & _).
  pose proof (log10_increasing 7 10 ltac:(lra) ltac:(lra)) as H7.
  pose proof (log10_increasing 1 4 ltac:(lra) ltac:(lra)) as H4.
  rewrite log10_10 in *. rewrite log10_1 in H4. rewrite H100. lra.
Qed.

Lemma aggregate_listed (dex venue : string) (l v : Z) rest agg :
  _dex_alias (listed dex l v) = Some venue ->
  _liq_vol_tx (listed dex l v) = Some (IZR l, IZR v, 3%Z) ->
  aggregate (listed dex l v :: rest) evm_ca agg
  = if negb (existsb (String.eqb venue) LP_VENUES) then aggregate rest evm_ca agg
    else aggregate rest evm_ca
           (upsert agg venue
              {| pools := 0; liq := 0; vol := 0; tx := 0; quotes := [];
                 best_url := JStr "https://dexscreener.com"; best_liq := 0 |}
              (fun a => add_pool a (IZR l) (IZR v) 3 "WETH"
                                 (JStr "https://dexscreener.com"))).
Proof.
  intros Hal Hlvt. cbn [aggregate]. rewrite Hal, Hlvt. cbn [bind].
  destruct (negb (existsb (String.eqb venue) LP_VENUES)); reflexivity.
Qed.

Lemma venue_feed_summary :
  summarize_lp_venues venue_feed evm_ca
  = Some ([uniswap_entry; sushiswap_entry], Some sushiswap_entry).
Proof.
  unfold summarize_lp_venues.
  change (select_pairs venue_feed evm_ca) with (Some venue_feed).
  cbn [bind]. unfold venue_feed.
  rewrite (aggregate_listed "Uniswap_V3" "uniswap" 4 1) by reflexivity.
  change (negb (existsb (String.eqb "uniswap") LP_VENUES)) with false.
  change (negb (existsb (String.eqb "sushiswap") LP_VENUES)) with false.
  change (negb (existsb (String.eqb "elsewhere") LP_VENUES)) with true.
  cbv iota.
  rewrite (aggregate_listed "sushiswap" "sushiswap" 99 2) by reflexivity.
  change (negb (existsb (String.eqb "uniswap") LP_VENUES)) with false.
  change (negb (existsb (String.eqb "sushiswap") LP_VENUES)) with false.
  change (negb (existsb (String.eqb "elsewhere") LP_VENUES)) with true.
  cbv iota.
  rewrite (aggregate_listed "uniswap" "uniswap" 5 1) by reflexivity.
  change (negb (existsb (String.eqb "uniswap") LP_VENUES)) with false.
  change (negb (existsb (String.eqb "sushiswap") LP_VENUES)) with false.
  change (negb (existsb (String.eqb "elsewhere") LP_VENUES)) with true.
  cbv iota.
  rewrite (aggregate_listed "elsewhere" "elsewhere" 50 50) by reflexivity.
  change (negb (existsb (String.eqb "uniswap") LP_VENUES)) with false.
  change (negb (existsb (String.eqb "sushiswap") LP_VENUES)) with false.
  change (negb (existsb (String.eqb "elsewhere") LP_VENUES)) with true.
  cbv iota. cbn [aggregate upsert String.eqb Ascii.eqb Bool.eqb ret bind].
  assert (Hu : add_pool
                 (add_pool
                    {| pools := 0; liq := 0; vol := 0; tx := 0; quotes := [];
                       best_url := JStr "https://dexscreener.com"; best_liq := 0 |}
                    4 1 3 "WETH" (JStr "https://dexscreener.com"))
                 5 1 3 "WETH" (JStr "https://dexscreener.com")
               = fst (snd uniswap_entry)).
  { unfold add_pool. cbn [pools liq vol tx quotes best_url best_liq].
    float_cmp. reflexivity. }
  assert (Hs : add_pool
                 {| pools := 0; liq := 0; vol := 0; tx := 0; quotes := [];
                    best_url := JStr "https://dexscreener.com"; best_liq := 0 |}
                 99 2 3 "WETH" (JStr "https://dexscreener.com")
               = fst (snd sushiswap_entry)).
  { unfold add_pool. cbn [pools liq vol tx quotes best_url best_liq].
    float_cmp. reflexivity. }
  rewrite Hu, Hs. cbn [with_scores].
  unfold uniswap_entry at 1 2 3, sushiswap_entry at 1 2 3.
  cbn [fst snd liq vol tx]. unfold _lp_score.
  rewrite !math_log10_some by lra. cbn [bind ret].
  change (ret ([uniswap_entry; sushiswap_entry],
               hd_error (ranked [uniswap_entry; sushiswap_entry]))
          = Some ([uniswap_entry; sushiswap_entry], Some sushiswap_entry)).
  cbn [ranked insert_ranked].
  assert (Hlt : key_lt (rank_key sushiswap_entry) (rank_key uniswap_entry) = true).
  { pose proof venue_scores_differ as Hd.
    unfold key_lt, rank_key, uniswap_entry, sushiswap_entry.
    match goal with
    | |- context [Reqb ?x ?y] =>
      replace (Reqb x y) with false by (symmetry; apply Reqb_false; lra)
    end.
    cbn [negb]. apply Rltb_true. lra. }
  rewrite Hlt. reflexivity.
Qed.

Lemma venue_totals_witness :
  NoDup (map fst [uniswap_entry; sushiswap_entry])
  /\ (forall v, In v (map fst [uniswap_entry; sushiswap_entry])
                <-> In v LP_VENUES
                    /\ existsb (on_venue v) (filter (selected evm_ca) venue_feed) = true)
  /\ (forall v a s, In (v, (a, s)) [uniswap_entry; sushiswap_entry] ->
        let ps := filter (on_venue v) (filter (selected evm_ca) venue_feed) in
        pools a = Z.of_nat (List.length ps)
        /\ liq a = sum_R liq_of ps
        /\ vol a = sum_R vol_of ps
        /\ tx a = sum_Z tx_of ps
        /\ _lp_score (liq a) (vol a) (tx a) = Some s).
Proof.
  exact (venue_totals venue_feed evm_ca _ _ venue_feed_summary).
Defined.

Lemma best_venue_ranks_first_witness :
  In sushiswap_entry [uniswap_entry; sushiswap_entry]
  /\ forall e', In e' [uniswap_entry; sushiswap_entry] -> ranks_before sushiswap_entry e'.
Proof.
  exact (best_venue_ranks_first venue_feed evm_ca _ _ venue_feed_summary).
Defined.

Lemma lp_score_monotone_witness :
  exists s s',
    _lp_score 9 2 6 = Some s /\ _lp_score 99 2 6 = Some s' /\ 0 <= s <= s'.
Proof.
  apply lp_score_monotone; [lra | lra | lia].
Defined.

(** ** Base-58 references *)

Lemma all_chars_app f s t :
  all_chars f (s ++ t) = (all_chars f s && all_chars f t)%bool.
Proof.
  induction s as [|c s IH]; [reflexivity|]. cbn [append all_chars].
  rewrite IH. apply andb_assoc.
Qed.

Lemma length_app_string s t :
  String.length (s ++ t) = (String.length s + String.length t)%nat.
Proof. induction s as [|c s IH]; [reflexivity|]. cbn [append String.length]. rewrite IH. reflexivity. Qed.

Lemma app_string_assoc (s : string) c out : (s ++ String c "") ++ out = s ++ String c out.
Proof. induction s as [|d s IH]; [reflexivity|]. cbn [append]. rewrite IH. reflexivity. Qed.

Lemma length_list_ascii s : List.length (list_ascii_of_string s) = String.length s.
Proof. induction s as [|c s IH]; [reflexivity|]. cbn. rewrite IH. reflexivity. Qed.

Lemma all_chars_nth f s i c :
  all_chars f s = true -> nth_error (list_ascii_of_string s) i = Some c -> f c = true.
Proof.
  revert i. induction s as [|d s IH]; intros i Hall Hn.
  - destruct i; discriminate.
  - cbn [all_chars] in Hall. apply andb_true_iff in Hall. destruct Hall as [Hd Hs].
    destruct i as [|i]; cbn in Hn.
    + injection Hn as <-. exact Hd.
    + exact (IH i Hs Hn).
Qed.

Lemma char_at_alphabet alphabet (r : Z) :
  (58 <= String.length alphabet)%nat ->
  all_chars base58_char alphabet = true ->
  (0 <= r < 58)%Z ->
  exists c, char_at alphabet r = Some c /\ base58_char c = true.
Proof.
  intros Hlen Hall Hr. unfold char_at, Py.index.
  replace (0 <=? r)%Z with true by (symmetry; apply Z.leb_le; lia).
  destruct (nth_error (list_ascii_of_string alphabet) (Z.to_nat r)) as [c|] eqn:E.
  - exists c. split; [reflexivity|]. exact (all_chars_nth _ _ _ _ Hall E).
  - apply nth_error_None in E. rewrite length_list_ascii in E. lia.
Qed.

Section Encoding.
Variable alphabet : string.
Hypothesis alphabet_long : (58 <= String.length alphabet)%nat.
Hypothesis alphabet_base58 : all_chars base58_char alphabet = true.

Lemma encode_digits (fuel : nat) :
  forall n out,
    (0 <= n < 2 ^ Z.of_nat fuel)%Z ->
    exists s,
      encode alphabet fuel n out = Some (s ++ out)
      /\ all_chars base58_char s = true
      /\ (n = 0%Z -> s = "")
      /\ ((0 < n)%Z ->
          (58 ^ (Z.of_nat (String.length s) - 1) <= n
           < 58 ^ Z.of_nat (String.length s))%Z).
Proof.
  induction fuel as [|fuel IH]; intros n out Hn.
  - assert (n = 0%Z) as -> by (cbn in Hn; lia).
    exists "". cbn. repeat split; try reflexivity; lia.
  - cbn [encode]. destruct (0 <? n)%Z eqn:Hpos.
    + apply Z.ltb_lt in Hpos.
      destruct (char_at_alphabet alphabet (n mod 58) alphabet_long alphabet_base58)
        as (c & Hc & Hb).
      { apply Z.mod_pos_bound. lia. }
      rewrite Hc. cbn [bind].
      assert (Hdiv : (0 <= n / 58 < 2 ^ Z.of_nat fuel)%Z).
      { split; [apply Z.div_pos; lia|].
        apply Z.div_lt_upper_bound; [lia|].
        rewrite Nat2Z.inj_succ, Z.pow_succ_r in Hn by lia.
        assert (0 < 2 ^ Z.of_nat fuel)%Z by (apply Z.pow_pos_nonneg; lia). lia. }
      destruct (IH (n / 58)%Z (String c out) Hdiv) as (s & Hs & Hall & Hzero & Hlen).
      exists (s ++ String c ""). rewrite app_string_assoc. split; [exact Hs|].
      split; [rewrite all_chars_app, Hall; cbn [all_chars]; rewrite Hb; reflexivity|].
      split; [lia|]. intros _.
      rewrite length_app_string. cbn [String.length].
      pose proof (Z.div_mod n 58 ltac:(lia)) as Hdm.
      pose proof (Z.mod_pos_bound n 58 ltac:(lia)) as Hmod.
      destruct (Z.eq_dec (n / 58) 0) as [Hq|Hq].
      * rewrite (Hzero Hq). cbn [String.length]. cbn. lia.
      * assert (Hq' : (0 < n / 58)%Z) by lia.
        destruct (Hlen Hq') as [Hlo Hhi].
        assert (Hl1 : (1 <= Z.of_nat (String.length s))%Z).
        { destruct s; [cbn in Hhi; lia|]. cbn [String.length]. lia. }
        replace (Z.of_nat (String.length s + 1) - 1)%Z
          with (Z.succ (Z.of_nat (String.length s) - 1)) by lia.
        replace (Z.of_nat (String.length s + 1))
          with (Z.succ (Z.of_nat (String.length s))) by lia.
        rewrite !Z.pow_succ_r by lia. lia.
    + apply Z.ltb_ge in Hpos. assert (n = 0%Z) as -> by lia.
      exists "". cbn. repeat split; try reflexivity; lia.
Qed.

End Encoding.

Lemma from_bytes_acc (l : list Byte.byte) (acc : Z) :
  fold_left (fun acc b => (acc * 256 + Z.of_N (Byte.to_N b))%Z) l acc
  = (acc * 256 ^ Z.of_nat (List.length l) + from_bytes l)%Z.
Proof.
  unfold from_bytes. revert acc. induction l as [|b l IH]; intros acc.
  - cbn. lia.
  - cbn [fold_left List.length]. rewrite IH. rewrite (IH (0 * 256 + _)%Z).
    rewrite Nat2Z.inj_succ, Z.pow_succ_r by lia. ring.
Qed.

Lemma from_bytes_cons (b : Byte.byte) (l : list Byte.byte) :
  from_bytes (b :: l)
  = (Z.of_N (Byte.to_N b) * 256 ^ Z.of_nat (List.length l) + from_bytes l)%Z.
Proof. unfold from_bytes at 1. cbn [fold_left]. rewrite from_bytes_acc. ring. Qed.

Lemma from_bytes_bound (l : list Byte.byte) :
  (0 <= from_bytes l < 256 ^ Z.of_nat (List.length l))%Z.
Proof.
  induction l as [|b l IH]; [cbn; lia|].
  rewrite from_bytes_cons. cbn [List.length].
  rewrite Nat2Z.inj_succ, Z.pow_succ_r by lia.
  pose proof (Byte.to_N_bounded b) as Hb.
  assert (0 < 256 ^ Z.of_nat (List.length l))%Z by (apply Z.pow_pos_nonneg; lia).
  nia.
Qed.

Lemma byte_zero (b : Byte.byte) :
  Byte.eqb b Byte.x00 = (Z.of_N (Byte.to_N b) =? 0)%Z.
Proof. destruct b; reflexivity. Qed.

Lemma lstrip_zeros_spec (raw : list Byte.byte) :
  from_bytes (lstrip_zeros raw) = from_bytes raw
  /\ (List.length (lstrip_zeros raw) <= List.length raw)%nat
  /\ (lstrip_zeros raw = []
      \/ exists b tl, lstrip_zeros raw = b :: tl /\ (0 < Z.of_N (Byte.to_N b))%Z).
Proof.
  induction raw as [|b raw IH]; [cbn; auto|].
  cbn [lstrip_zeros]. rewrite byte_zero.
  destruct (Z.of_N (Byte.to_N b) =? 0)%Z eqn:E.
  - apply Z.eqb_eq in E. destruct IH as (Hv & Hl & Hc).
    rewrite from_bytes_cons, E, Hv. cbn [List.length].
    split; [lia|]. split; [lia|exact Hc].
  - apply Z.eqb_neq in E. split; [reflexivity|]. split; [lia|].
    right. exists b, raw. split; [reflexivity|]. lia.
Qed.

Lemma powers_256_58 (k : Z) :
  (0 <= k <= 31)%Z -> (256 ^ (k + 1) <= 58 ^ (k + 13))%Z.
Proof.
  intros Hk.
  assert (Hall : forallb (fun k => (256 ^ (k + 1) <=? 58 ^ (k + 13))%Z)
                         (map Z.of_nat (seq 0 32)) = true) by (vm_compute; reflexivity).
  rewrite forallb_forall in Hall. apply Z.leb_le. apply Hall.
  apply in_map_iff. exists (Z.to_nat k). split; [lia|]. apply in_seq. lia.
Qed.

Lemma length_ones k : String.length (ones k) = k.
Proof. induction k as [|k IH]; [reflexivity|]. cbn. rewrite IH. reflexivity. Qed.

Lemma all_chars_ones k : all_chars base58_char (ones k) = true.
Proof. induction k as [|k IH]; [reflexivity|]. cbn [ones all_chars]. rewrite IH. reflexivity. Qed.

Lemma base58_is_address (s : string) :
  all_chars base58_char s = true ->
  (32 <= String.length s <= 44)%nat ->
  is_solana_address s = true.
Proof.
  intros Hall Hlen. unfold is_solana_address.
  destruct s as [|c s]; [cbn in Hlen; lia|].
  assert (Hne : String.eqb (String c s) "" = false) by reflexivity.
  rewrite Hne.
  assert (Hpre : String.prefix "0x" (String c s) = false).
  { cbn [all_chars] in Hall. apply andb_true_iff in Hall. destruct Hall as [Hc _].
    cbn [String.prefix]. destruct (ascii_dec "0" c) as [<-|Hd]; [discriminate|reflexivity]. }
  rewrite Hpre. cbn [orb negb]. rewrite Hall.
  replace (Nat.leb 32 (String.length (String c s))) with true
    by (symmetry; apply Nat.leb_le; lia).
  replace (Nat.leb (String.length (String c s)) 44) with true
    by (symmetry; apply Nat.leb_le; lia).
  reflexivity.
Qed.

Lemma substring_prefix_length (n : nat) (s : string) :
  (n <= String.length s)%nat -> String.length (substring 0 n s) = n.
Proof.
  revert s. induction n as [|n IH]; intros s Hn.
  - destruct s; reflexivity.
  - destruct s as [|c s]; [cbn in Hn; lia|]. cbn [substring String.length].
    rewrite IH; [reflexivity|]. cbn in Hn. lia.
Qed.

Lemma substring_prefix_chars f (n : nat) (s : string) :
  all_chars f s = true -> all_chars f (substring 0 n s) = true.
Proof.
  revert s. induction n as [|n IH]; intros s Hall.
  - destruct s; reflexivity.
  - destruct s as [|c s]; [reflexivity|]. cbn [substring all_chars] in *.
    apply andb_true_iff in Hall. destruct Hall as [Hc Hs]. rewrite Hc, (IH s Hs). reflexivity.
Qed.

(** X19.  With an alphabet of at least 58 characters, all of them in the
    class [is_solana_address] accepts, [_random_pubkey] never fails on 32
    bytes, whatever they are, and its result is a valid Solana address;
    the invoice id cut from it has exactly 6 characters of that class. *)
Theorem random_pubkey_is_address (alphabet : string) (raw : list Byte.byte) :
  (58 <= String.length alphabet)%nat ->
  all_chars base58_char alphabet = true ->
  List.length raw = 32%nat ->
  exists s id,
    _random_pubkey alphabet raw = Some s
    /\ is_solana_address s = true
    /\ new_invoice_id alphabet raw = Some id
    /\ String.length id = 6%nat
    /\ all_chars base58_char id = true.
Proof.
  intros Hlong Hb58 Hraw.
  assert (Hs : exists s, _random_pubkey alphabet raw = Some s
                         /\ all_chars base58_char s = true
                         /\ (32 <= String.length s <= 44)%nat).
  { unfold _random_pubkey.
    pose proof (from_bytes_bound raw) as Hn.
    destruct (encode_digits alphabet Hlong Hb58 (8 * List.length raw)
                (from_bytes raw) "") as (out & Henc & Hall & Hzero & Hlen).
    { split; [lia|]. rewrite Hraw in *.
      change (2 ^ Z.of_nat (8 * 32))%Z with (256 ^ Z.of_nat 32)%Z. lia. }
    rewrite Henc. cbn [bind ret].
    assert (Hout : out ++ "" = out)
      by (clear; induction out as [|c o IH]; [reflexivity|cbn [append]; rewrite IH; reflexivity]).
    rewrite Hout. eexists. split; [reflexivity|].
    destruct (lstrip_zeros_spec raw) as (Hv & Hl & Hc).
    rewrite all_chars_app, all_chars_ones, length_app_string, length_ones.
    destruct Hc as [Hnil|(b & tl & Hcons & Hpos)].
    - (* only zero bytes *)
      rewrite Hnil in *. cbn [List.length] in *.
      assert (Hz : from_bytes raw = 0%Z) by (rewrite <- Hv; reflexivity).
      rewrite (Hzero Hz). cbn [String.eqb String.length all_chars andb].
      split; [reflexivity|]. rewrite Hraw. cbn. lia.
    - rewrite Hcons in *. cbn [List.length] in *.
      assert (Hk : (List.length tl <= 31)%nat) by lia.
      assert (Hlo : (256 ^ Z.of_nat (List.length tl) <= from_bytes raw)%Z).
      { rewrite <- Hv, from_bytes_cons. pose proof (from_bytes_bound tl) as Ht.
        assert (0 < 256 ^ Z.of_nat (List.length tl))%Z by (apply Z.pow_pos_nonneg; lia).
        nia. }
      assert (Hhi : (from_bytes raw < 256 ^ (Z.of_nat (List.length tl) + 1))%Z).
      { rewrite <- Hv. pose proof (from_bytes_bound (b :: tl)) as Ht.
        cbn [List.length] in Ht. rewrite Nat2Z.inj_succ in Ht. exact (proj2 Ht). }
      assert (Hnpos : (0 < from_bytes raw)%Z).
      { assert (0 < 256 ^ Z.of_nat (List.length tl))%Z by (apply Z.pow_pos_nonneg; lia). lia. }
      destruct (Hlen Hnpos) as [Hdlo Hdhi].
      set (k := List.length tl) in *. set (d := String.length out) in *.
      assert (Hd1 : (k + 1 <= d)%nat).
      { destruct (le_lt_dec (k + 1) d) as [Hok|Hbad]; [exact Hok|exfalso].
        assert (58 ^ Z.of_nat d <= 58 ^ Z.of_nat k)%Z by (apply Z.pow_le_mono_r; lia).
        assert (58 ^ Z.of_nat k <= 256 ^ Z.of_nat k)%Z by (apply Z.pow_le_mono_l; lia).
        lia. }
      assert (Hd2 : (d <= k + 13)%nat).
      { destruct (le_lt_dec d (k + 13)) as [Hok|Hbad]; [exact Hok|exfalso].
        assert (58 ^ (Z.of_nat k + 13) <= 58 ^ (Z.of_nat d - 1))%Z
          by (apply Z.pow_le_mono_r; lia).
        pose proof (powers_256_58 (Z.of_nat k) ltac:(lia)). lia. }
      assert (Hne : String.eqb out "" = false).
      { destruct out as [|c o]; [subst d; cbn in Hd1; lia|reflexivity]. }
      rewrite Hne, Hall. split; [reflexivity|]. fold d. lia. }
  destruct Hs as (s & Hs & Hall & Hlen).
  exists s, (substring 0 6 s). split; [exact Hs|].
  split; [apply base58_is_address; assumption|].
  split; [unfold new_invoice_id; rewrite Hs; reflexivity|].
  split; [apply substring_prefix_length; lia|].
  apply substring_prefix_chars. exact Hall.
Qed.

Lemma digit_of_nth (l : list ascii) :
  forall (m r : nat) (c : ascii),
    NoDup (firstn m l) -> (r < m)%nat -> nth_error l r = Some c ->
    digit_of c l = Z.of_nat r.
Proof.
  induction l as [|d l IH]; intros m r c Hnd Hr Hn.
  - destruct r; discriminate.
  - destruct m as [|m]; [lia|]. cbn [firstn] in Hnd.
    inversion Hnd as [|x xs Hnotin Hnd']; subst x xs.
    destruct r as [|r]; cbn [nth_error digit_of] in *.
    + injection Hn as <-. rewrite Ascii.eqb_refl. reflexivity.
    + destruct (Ascii.eqb d c) eqn:E.
      * apply Ascii.eqb_eq in E. subst d. exfalso. apply Hnotin.
        assert (Hf : nth_error (firstn m l) r = Some c).
        { rewrite nth_error_firstn. replace (r <? m)%nat with true
            by (symmetry; apply Nat.ltb_lt; lia). exact Hn. }
        exact (nth_error_In _ _ Hf).
      * rewrite (IH m r c Hnd' ltac:(lia) Hn). lia.
Qed.

Lemma value_acc alphabet (l : list ascii) (acc : Z) :
  fold_left (fun acc c => (acc * 58 + digit_of c (list_ascii_of_string alphabet))%Z) l acc
  = (acc * 58 ^ Z.of_nat (List.length l)
     + fold_left (fun acc c => (acc * 58 + digit_of c (list_ascii_of_string alphabet))%Z)
                 l 0)%Z.
Proof.
  revert acc. induction l as [|c l IH]; intros acc.
  - cbn. lia.
  - cbn [fold_left List.length]. rewrite IH. rewrite (IH (0 * 58 + _)%Z).
    rewrite Nat2Z.inj_succ, Z.pow_succ_r by lia. ring.
Qed.

Lemma list_ascii_app s t :
  list_ascii_of_string (s ++ t) = (list_ascii_of_string s ++ list_ascii_of_string t)%list.
Proof. induction s as [|c s IH]; [reflexivity|]. cbn. rewrite IH. reflexivity. Qed.

Lemma value_app alphabet s t :
  base58_value alphabet (s ++ t)
  = (base58_value alphabet s * 58 ^ Z.of_nat (String.length t) + base58_value alphabet t)%Z.
Proof.
  unfold base58_value. rewrite list_ascii_app, fold_left_app, value_acc.
  rewrite length_list_ascii. reflexivity.
Qed.

Lemma append_inv_tail (s s' t : string) : s ++ t = s' ++ t -> s = s'.
Proof.
  intros H. assert (Hl : list_ascii_of_string s = list_ascii_of_string s').
  { apply (f_equal list_ascii_of_string) in H. rewrite !list_ascii_app in H.
    exact (app_inv_tail _ _ _ H). }
  rewrite <- (string_of_list_ascii_of_string s), <- (string_of_list_ascii_of_string s').
  rewrite Hl. reflexivity.
Qed.

Section Decoding.
Variable alphabet : string.
Hypothesis alphabet_distinct : NoDup (firstn 58 (list_ascii_of_string alphabet)).

Lemma encode_value (fuel : nat) :
  forall n out res,
    (0 <= n)%Z ->
    encode alphabet fuel n out = Some res ->
    exists s, res = s ++ out /\ base58_value alphabet s = n.
Proof.
  induction fuel as [|fuel IH]; intros n out res Hn Henc.
  - cbn [encode] in Henc. destruct (0 <? n)%Z eqn:Hpos; [discriminate|].
    apply Z.ltb_ge in Hpos. injection Henc as <-. exists "". split; [reflexivity|].
    cbn. lia.
  - cbn [encode] in Henc. destruct (0 <? n)%Z eqn:Hpos.
    + apply Z.ltb_lt in Hpos.
      destruct (char_at alphabet (n mod 58)) as [c|] eqn:Hc; [cbn [bind] in Henc|discriminate].
      destruct (IH (n / 58)%Z (String c out) res ltac:(apply Z.div_pos; lia) Henc)
        as (s & -> & Hv).
      exists (s ++ String c ""). split; [rewrite app_string_assoc; reflexivity|].
      rewrite value_app, Hv. cbn [String.length].
      pose proof (Z.mod_pos_bound n 58 ltac:(lia)) as Hmod.
      unfold char_at, Py.index in Hc.
      replace (0 <=? n mod 58)%Z with true in Hc by (symmetry; apply Z.leb_le; lia).
      unfold base58_value. cbn [list_ascii_of_string fold_left].
      rewrite (digit_of_nth _ 58 (Z.to_nat (n mod 58)) c alphabet_distinct ltac:(lia) Hc).
      pose proof (Z.div_mod n 58 ltac:(lia)). change (58 ^ Z.of_nat 1)%Z with 58%Z. lia.
    + apply Z.ltb_ge in Hpos. injection Henc as <-. exists "". split; [reflexivity|].
      cbn. lia.
Qed.

End Decoding.

Lemma byte_to_N_inj (b b' : Byte.byte) : Byte.to_N b = Byte.to_N b' -> b = b'.
Proof.
  intros Hb. pose proof (Byte.of_to_N b) as H1. pose proof (Byte.of_to_N b') as H2.
  rewrite Hb in H1. congruence.
Qed.

Lemma from_bytes_inj (l l' : list Byte.byte) :
  List.length l = List.length l' -> from_bytes l = from_bytes l' -> l = l'.
Proof.
  revert l'. induction l as [|b l IH]; intros [|b' l'] Hlen Hv; try discriminate.
  - reflexivity.
  - cbn [List.length] in Hlen. injection Hlen as Hlen.
    rewrite !from_bytes_cons, <- Hlen in Hv.
    pose proof (from_bytes_bound l) as Hl. pose proof (from_bytes_bound l') as Hl'.
    rewrite <- Hlen in Hl'.
    assert (Hb : Z.of_N (Byte.to_N b) = Z.of_N (Byte.to_N b')) by nia.
    rewrite Hb in Hv. f_equal.
    + apply byte_to_N_inj. lia.
    + apply IH; [exact Hlen|lia].
Qed.

Lemma value_ones alphabet k :
  char_at alphabet 0 = Some "1"%char -> base58_value alphabet (ones k) = 0%Z.
Proof.
  intros H1. unfold char_at, Py.index in H1. cbn in H1.
  destruct (list_ascii_of_string alphabet) as [|d l] eqn:E; [discriminate|].
  cbn in H1. injection H1 as ->.
  unfold base58_value. rewrite E. induction k as [|k IH]; [reflexivity|].
  cbn [ones list_ascii_of_string fold_left digit_of]. rewrite Ascii.eqb_refl. exact IH.
Qed.

(** X20.  With an alphabet whose first 58 characters are distinct and
    begin with "1", the encoding of [_random_pubkey] loses nothing: two
    byte strings of the same length that give the same reference are the
    same byte string. *)
Theorem random_pubkey_injective (alphabet : string) (raw raw' : list Byte.byte) (s : string) :
  NoDup (firstn 58 (list_ascii_of_string alphabet)) ->
  char_at alphabet 0 = Some "1"%char ->
  List.length raw = List.length raw' ->
  _random_pubkey alphabet raw = Some s ->
  _random_pubkey alphabet raw' = Some s ->
  raw = raw'.
Proof.
  intros Hnd H1 Hlen Hs Hs'.
  assert (Hval : forall r, _random_pubkey alphabet r = Some s ->
                           base58_value alphabet s = from_bytes r).
  { intros r Hr. unfold _random_pubkey in Hr.
    destruct (encode alphabet (8 * List.length r) (from_bytes r) "") as [out|] eqn:Henc;
      [cbn [bind ret] in Hr|discriminate].
    injection Hr as <-.
    destruct (encode_value alphabet Hnd _ _ _ _ (proj1 (from_bytes_bound r)) Henc)
      as (t & -> & Hv).
    assert (Ht : t ++ "" = t)
      by (clear; induction t as [|c t IH]; [reflexivity|cbn [append]; rewrite IH; reflexivity]).
    rewrite Ht, value_app, (value_ones _ _ H1).
    destruct (String.eqb t "") eqn:E.
    - apply String.eqb_eq in E. subst t. rewrite <- Hv.
      change "1" with (ones 1). rewrite (value_ones alphabet 1 H1). cbn. lia.
    - rewrite Hv. lia. }
  apply from_bytes_inj; [exact Hlen|].
  rewrite <- (Hval raw Hs), <- (Hval raw' Hs'). reflexivity.
Qed.

Lemma random_pubkey_is_address_witness :
  exists s id,
    _random_pubkey base58 one_raw = Some s
    /\ is_solana_address s = true
    /\ new_invoice_id base58 one_raw = Some id
    /\ String.length id = 6%nat
    /\ all_chars base58_char id = true.
Proof.
  apply random_pubkey_is_address; [cbn; lia | reflexivity | reflexivity].
Defined.

Lemma random_pubkey_injective_witness : one_raw = one_raw.
Proof.
  apply (random_pubkey_injective base58 one_raw one_raw
           "11111111111111111111111111111112").
  - repeat constructor; cbn; intuition discriminate.
  - reflexivity.
  - reflexivity.
  - vm_compute. reflexivity.
  - vm_compute. reflexivity.
Defined.

(** ** Listings *)

Lemma enumerate_In {A} (l : list A) :
  forall (start i : Z) (x : A),
    In (i, x) (enumerate l start)
    <-> (start <= i)%Z /\ nth_error l (Z.to_nat (i - start)) = Some x.
Proof.
  induction l as [|y l IH]; intros start i x; cbn [enumerate].
  - split; [intros []|]. intros [_ Hn]. destruct (Z.to_nat (i - start)); discriminate.
  - cbn [In]. rewrite IH. split.
    + intros [Heq|[Hle Hn]].
      * injection Heq as <- <-. split; [lia|]. rewrite Z.sub_diag. reflexivity.
      * split; [lia|]. replace (Z.to_nat (i - start)) with (S (Z.to_nat (i - (start + 1))))
          by lia. exact Hn.
    + intros [Hle Hn]. destruct (Z.eq_dec i start) as [->|Hne].
      * left. rewrite Z.sub_diag in Hn. cbn in Hn. injection Hn as <-. reflexivity.
      * right. split; [lia|].
        replace (Z.to_nat (i - start)) with (S (Z.to_nat (i - (start + 1)))) in Hn
          by lia. exact Hn.
Qed.

(** X21.  Listed without a user filter, every alert of the guild has a
    row in [/mc_list], the breakouts are the rows whose direction is
    "above", and the index a row shows is the index with which
    [/mc_remove], asked by the creator of the alert or by someone who
    manages the guild, removes the alert of that row. *)
Theorem mc_list_index_removes (gid : Z) (reminders : list Reminder) rows_ge rows_le :
  mc_list gid None reminders = Some (rows_ge, rows_le) ->
  (forall r, In r reminders -> rem_guild_id r = gid ->
             exists i, In (i, r) (rows_ge ++ rows_le))
  /\ (forall i r, In (i, r) (rows_ge ++ rows_le) ->
        (In (i, r) rows_ge <-> rem_direction r = "above")
        /\ forall user_id can_manage,
             user_id = rem_creator_id r \/ can_manage = true ->
             exists reminders',
               mc_remove gid i user_id can_manage reminders
               = Some (reminders', Removed r)).
Proof.
  unfold mc_list. set (sr := filter (fun r => (rem_guild_id r =? gid)%Z) reminders).
  intros Hl.
  assert (Hrows : rows_ge = filter (fun ir => String.eqb (rem_direction (snd ir)) "above")
                                   (enumerate sr 1)
                  /\ rows_le = filter (fun ir => negb (String.eqb (rem_direction (snd ir))
                                                                  "above"))
                                      (enumerate sr 1)).
  { destruct sr; [discriminate|]. injection Hl as <- <-. split; reflexivity. }
  clear Hl. destruct Hrows as [-> ->].
  assert (Hmem : forall i r,
             In (i, r) (filter (fun ir => String.eqb (rem_direction (snd ir)) "above")
                               (enumerate sr 1)
                        ++ filter (fun ir => negb (String.eqb (rem_direction (snd ir))
                                                              "above"))
                                  (enumerate sr 1))
             <-> In (i, r) (enumerate sr 1)).
  { intros i r. rewrite in_app_iff, !filter_In. cbn [snd].
    destruct (String.eqb (rem_direction r) "above"); cbn [negb]; intuition discriminate. }
  split.
  - intros r Hin Hg.
    assert (Hsr : In r sr) by (apply filter_In; split; [exact Hin|apply Z.eqb_eq; exact Hg]).
    apply In_nth_error in Hsr. destruct Hsr as [n Hn].
    exists (Z.of_nat n + 1)%Z. apply Hmem. apply enumerate_In.
    split; [lia|]. replace (Z.to_nat (Z.of_nat n + 1 - 1)) with n by lia. exact Hn.
  - intros i r Hir. split.
    + rewrite filter_In. cbn [snd]. rewrite String.eqb_eq. apply Hmem in Hir. tauto.
    + intros user_id can_manage Hperm.
      apply Hmem in Hir. apply enumerate_In in Hir. destruct Hir as [Hi Hn].
      unfold mc_remove. fold sr.
      assert (Hlen : (Z.to_nat (i - 1) < List.length sr)%nat)
        by (apply nth_error_Some; rewrite Hn; discriminate).
      replace (i <? 1)%Z with false by (symmetry; apply Z.ltb_ge; lia).
      replace (Z.of_nat (List.length sr) <? i)%Z with false
        by (symmetry; apply Z.ltb_ge; lia).
      cbn [orb].
      assert (Hpy : Py.index sr (i - 1) = Some r).
      { unfold Py.index. replace (0 <=? i - 1)%Z with true
          by (symmetry; apply Z.leb_le; lia). exact Hn. }
      rewrite Hpy. cbn [bind].
      assert (Hdeny : (negb (user_id =? rem_creator_id r)%Z && negb can_manage)%bool = false).
      { destruct Hperm as [->| ->]; [rewrite Z.eqb_refl; reflexivity|].
        apply andb_false_r. }
      rewrite Hdeny.
      assert (Hin : In r reminders).
      { apply nth_error_In in Hn. unfold sr in Hn. apply filter_In in Hn. tauto. }
      destruct (remove_present r reminders) as (l' & Hl' & _);
        [apply occurrences_In; exact Hin|].
      rewrite Hl'. cbn [bind ret]. exists l'. reflexivity.
Qed.

Lemma latest_from_spec (l : list Invoice) :
  forall best,
    In (latest_from best l) (best :: l)
    /\ forall i, In i (best :: l) ->
                 inv_created_ts i <= inv_created_ts (latest_from best l).
Proof.
  induction l as [|x l IH]; intros best; cbn [latest_from].
  - split; [left; reflexivity|]. intros i [<-|[]]. lra.
  - destruct (Rltb (inv_created_ts best) (inv_created_ts x)) eqn:E.
    + apply Rltb_true in E. destruct (IH x) as [Hin Hmax]. split.
      * right. exact Hin.
      * intros i [<-|Hi]; [|exact (Hmax i Hi)].
        pose proof (Hmax x (or_introl eq_refl)). lra.
    + apply Rltb_false in E. destruct (IH best) as [Hin Hmax]. split.
      * destruct Hin as [<-|Hin]; [left; reflexivity|right; right; exact Hin].
      * intros i [<-|[<-|Hi]].
        -- exact (Hmax _ (or_introl eq_refl)).
        -- pose proof (Hmax best (or_introl eq_refl)). lra.
        -- exact (Hmax i (or_intror Hi)).
Qed.

(** X22.  [/pay_status] never reports an invoice of another user or of
    another guild, and reports nothing only when the user has no invoice
    in the guild.  It reports an invoice with the id asked for whenever the
    user has one, and otherwise one of the user's invoices than which none
    is more recent. *)
Theorem pay_status_own (gid user_id : Z) (invoice_id : option string)
                       (invoices : list Invoice) :
  match pay_status gid user_id invoice_id invoices with
  | None => forall i, ~ own_invoice gid user_id invoices i
  | Some inv =>
    own_invoice gid user_id invoices inv
    /\ ((exists id, invoice_id = Some id /\ id <> "" /\ inv_id inv = id)
        \/ ((forall id i, invoice_id = Some id -> id <> "" ->
                          own_invoice gid user_id invoices i -> inv_id i <> id)
            /\ forall i, own_invoice gid user_id invoices i ->
                         inv_created_ts i <= inv_created_ts inv))
  end.
Proof.
  unfold own_invoice, pay_status.
  set (mine := filter (fun i => ((inv_guild_id i =? gid)%Z
                                 && (inv_user_id i =? user_id)%Z)%bool) invoices).
  assert (Hmine : forall i, In i mine
                            <-> In i invoices /\ inv_guild_id i = gid
                                /\ inv_user_id i = user_id).
  { intros i. unfold mine. rewrite filter_In, andb_true_iff, !Z.eqb_eq. tauto. }
  destruct mine as [|first rest] eqn:Em.
  - intros i Hi. apply Hmine in Hi. exact Hi.
  - assert (Hlatest :
              In (latest_from first rest) (first :: rest)
              /\ forall i, In i (first :: rest) ->
                           inv_created_ts i <= inv_created_ts (latest_from first rest))
      by apply latest_from_spec.
    destruct Hlatest as [Hin Hmax].
    assert (Hnone : forall i,
               In i invoices /\ inv_guild_id i = gid /\ inv_user_id i = user_id ->
               inv_created_ts i <= inv_created_ts (latest_from first rest))
      by (intros i Hi; apply Hmax, Hmine; exact Hi).
    destruct invoice_id as [id|].
    + destruct (String.eqb id "") eqn:Eid; cbn [negb].
      * apply String.eqb_eq in Eid. split; [apply Hmine; exact Hin|].
        right. split; [|exact Hnone]. intros id' i Heq Hne. congruence.
      * apply String.eqb_neq in Eid.
        destruct (find (fun i => String.eqb (inv_id i) id) (first :: rest)) as [i|] eqn:Ef.
        -- apply find_some in Ef. destruct Ef as [Hi Hid]. apply String.eqb_eq in Hid.
           split; [apply Hmine; exact Hi|]. left. exists id. auto.
        -- split; [apply Hmine; exact Hin|]. right. split; [|exact Hnone].
           intros id' i Heq _ Hown Hid. injection Heq as <-.
           apply Hmine in Hown. pose proof (find_none _ _ Ef i Hown) as Hf.
           cbn beta in Hf. apply String.eqb_neq in Hf. exact (Hf Hid).
    + split; [apply Hmine; exact Hin|]. right. split; [|exact Hnone].
      intros id i Heq. discriminate.
Qed.

Lemma insert_by_created_perm (e : Invoice) (l : list Invoice) :
  Permutation (e :: l) (insert_by_created e l).
Proof.
  induction l as [|y rest IH]; simpl; [reflexivity|].
  destruct (Rltb (inv_created_ts e) (inv_created_ts y)); [|reflexivity].
  rewrite perm_swap. apply perm_skip. exact IH.
Qed.

Lemma newest_invoices_perm (l : list Invoice) : Permutation l (newest_invoices l).
Proof.
  induction l as [|e rest IH]; simpl; [constructor|].
  rewrite <- insert_by_created_perm. apply perm_skip. exact IH.
Qed.

Lemma insert_by_created_ordered (e : Invoice) (l : list Invoice) :
  newest_invoices_ordered l -> newest_invoices_ordered (insert_by_created e l).
Proof.
  unfold newest_invoices_ordered. induction 1 as [|y rest Hs IH Hall]; simpl.
  - constructor; constructor.
  - destruct (Rltb (inv_created_ts e) (inv_created_ts y)) eqn:Hlt.
    + apply Rltb_true in Hlt. constructor; [exact IH|].
      rewrite Forall_forall in *. intros z Hz.
      apply (Permutation_in z (Permutation_sym (insert_by_created_perm e rest))) in Hz.
      destruct Hz as [<-|Hz]; [lra | apply Hall; exact Hz].
    + apply Rltb_false in Hlt. constructor; [constructor; assumption|].
      constructor; [exact Hlt|].
      rewrite Forall_forall in *. intros z Hz. specialize (Hall z Hz). lra.
Qed.

Lemma newest_invoices_is_ordered (l : list Invoice) :
  newest_invoices_ordered (newest_invoices l).
Proof.
  induction l as [|e rest IH]; simpl; [constructor|].
  apply insert_by_created_ordered. exact IH.
Qed.

Lemma firstn_ordered (n : nat) (l : list Invoice) :
  newest_invoices_ordered l ->
  newest_invoices_ordered (firstn n l)
  /\ forall x y, In x (firstn n l) -> In y l -> In y (firstn n l)
                 \/ inv_created_ts y <= inv_created_ts x.
Proof.
  unfold newest_invoices_ordered. intros Hs. revert n.
  induction Hs as [|a l Hs IH Hall]; intros n.
  - rewrite firstn_nil. split; [constructor|]. intros x y [].
  - destruct n as [|n]; [split; [constructor|intros x y []]|].
    cbn [firstn]. destruct (IH n) as [Ho Hsplit]. split.
    + constructor; [exact Ho|]. rewrite Forall_forall in *.
      intros z Hz. apply Hall. rewrite <- (firstn_skipn n l). apply in_or_app. left. exact Hz.
    + intros x y [<-|Hx] [<-|Hy].
      * left. left. reflexivity.
      * right. rewrite Forall_forall in Hall. exact (Hall y Hy).
      * left. left. reflexivity.
      * destruct (Hsplit x y Hx Hy) as [Hin|Hle]; [left; right; exact Hin|right; exact Hle].
Qed.

Lemma slice_to_firstn {A} (l : list A) (k : Z) :
  exists n, slice_to l k = firstn n l /\ ((0 < k)%Z -> n = Z.to_nat k).
Proof.
  unfold slice_to. destruct (0 <=? k)%Z eqn:E.
  - eexists. split; [reflexivity|]. reflexivity.
  - apply Z.leb_gt in E. eexists. split; [reflexivity|]. lia.
Qed.

(** X23.  [/pay_list] refuses only a server-wide request of a user who
    does not manage the guild.  What it shows are invoices of the guild
    with the status asked for, the user's own unless the request is
    server-wide, newest first and none of them older than a requested
    invoice it leaves out; at most 15 without a limit, and at most the
    limit when that is positive. *)
Theorem pay_list_private (gid user_id : Z) (member_ok : bool)
                         (scope status : option string) (limit : option Z)
                         (invoices : list Invoice) :
  scope = None \/ scope = Some "mine" \/ scope = Some "server" ->
  match pay_list gid user_id member_ok scope status limit invoices with
  | Refused => scope = Some "server" /\ member_ok = false
  | Nothing => True
  | Shown records =>
    (scope = Some "server" -> member_ok = true)
    /\ (forall i, In i records ->
          requested_invoice gid user_id scope status invoices i)
    /\ newest_invoices_ordered records
    /\ (forall x y, In x records ->
          requested_invoice gid user_id scope status invoices y ->
          In y records \/ inv_created_ts y <= inv_created_ts x)
    /\ (limit = None -> (List.length records <= 15)%nat)
    /\ (forall l, limit = Some l -> (0 < l)%Z -> (Z.of_nat (List.length records) <= l)%Z)
  end.
Proof.
  unfold requested_invoice. intros Hscope. unfold pay_list.
  set (scope_val := match scope with Some v => v | None => "mine" end).
  assert (Hserver : String.eqb scope_val "server" = true <-> scope = Some "server").
  { unfold scope_val. destruct Hscope as [->|[->| ->]]; cbn; split;
      intros; try discriminate; reflexivity. }
  assert (Hmine : String.eqb scope_val "mine" = true <-> scope <> Some "server").
  { unfold scope_val. destruct Hscope as [->|[->| ->]]; cbn; split;
      intros; try discriminate; try reflexivity; congruence. }
  destruct (String.eqb scope_val "server" && negb member_ok)%bool eqn:Eref.
  { apply andb_true_iff in Eref. destruct Eref as [Hs Hm]. split; [apply Hserver; exact Hs|].
    destruct member_ok; [discriminate|reflexivity]. }
  set (r1 := filter (fun i => (inv_guild_id i =? gid)%Z) invoices).
  set (r2 := if String.eqb scope_val "mine"
             then filter (fun i => (inv_user_id i =? user_id)%Z) r1 else r1).
  set (r3 := match status with
             | Some v => filter (fun i => String.eqb (inv_status i) v) r2
             | None => r2
             end).
  assert (H3 : forall i, In i r3
                         <-> In i invoices /\ inv_guild_id i = gid
                             /\ (scope <> Some "server" -> inv_user_id i = user_id)
                             /\ (forall v, status = Some v -> inv_status i = v)).
  { intros i.
    assert (H1 : In i r1 <-> In i invoices /\ inv_guild_id i = gid)
      by (unfold r1; rewrite filter_In, Z.eqb_eq; tauto).
    assert (H2 : In i r2 <-> In i r1 /\ (scope <> Some "server" -> inv_user_id i = user_id)).
    { unfold r2. destruct (String.eqb scope_val "mine") eqn:Em.
      - rewrite filter_In, Z.eqb_eq. tauto.
      - split; [|tauto]. intros Hi. split; [exact Hi|]. intros Hn.
        apply Hmine in Hn. discriminate. }
    unfold r3. destruct status as [v|].
    - rewrite filter_In, String.eqb_eq, H2, H1. split.
      + intros [[[? ?] ?] ?]. repeat split; try assumption. intros v' Hv. congruence.
      + intros (? & ? & ? & Hv). repeat split; try assumption. apply Hv. reflexivity.
    - rewrite H2, H1. split.
      + intros [[? ?] ?]. repeat split; try assumption. intros v Hv. discriminate.
      + tauto. }
  set (wanted := match limit with
                 | Some l => if (l =? 0)%Z then 15%Z else l
                 | None => 15%Z
                 end).
  destruct (slice_to_firstn (newest_invoices r3) wanted) as (n & Hslice & Hn).
  rewrite Hslice.
  destruct (firstn_ordered n (newest_invoices r3) (newest_invoices_is_ordered r3))
    as [Hord Hsplit].
  assert (Hsub : forall i, In i (firstn n (newest_invoices r3)) -> In i r3).
  { intros i Hi. apply (Permutation_in i (Permutation_sym (newest_invoices_perm r3))).
    rewrite <- (firstn_skipn n (newest_invoices r3)). apply in_or_app. left. exact Hi. }
  destruct (firstn n (newest_invoices r3)) as [|x shown] eqn:Ef; [exact I|].
  split.
  { intros Hs. apply Hserver in Hs. rewrite Hs in Eref. cbn in Eref.
    destruct member_ok; [reflexivity|discriminate]. }
  split; [intros i Hi; apply H3, Hsub; exact Hi|].
  split; [exact Hord|].
  split.
  { intros a b Ha Hb. apply Hsplit; [exact Ha|].
    apply (Permutation_in b (newest_invoices_perm r3)). apply H3. exact Hb. }
  assert (Hlen : (List.length (x :: shown) <= n)%nat)
    by (rewrite <- Ef; apply firstn_le_length).
  split.
  - intros ->. subst wanted. rewrite (Hn ltac:(lia)) in Hlen. lia.
  - intros l -> Hl. subst wanted.
    replace (l =? 0)%Z with false in Hn by (symmetry; apply Z.eqb_neq; lia).
    rewrite (Hn Hl) in Hlen. lia.
Qed.

Lemma mc_list_index_removes_witness :
  (forall r, In r [rule] -> rem_guild_id r = 2%Z ->
             exists i, In (i, r) ([(1%Z, rule)] ++ []))
  /\ (forall i r, In (i, r) ([(1%Z, rule)] ++ []) ->
        (In (i, r) [(1%Z, rule)] <-> rem_direction r = "above")
        /\ forall user_id can_manage,
             user_id = rem_creator_id r \/ can_manage = true ->
             exists reminders',
               mc_remove 2 i user_id can_manage [rule]
               = Some (reminders', Removed r)).
Proof.
  exact (mc_list_index_removes 2 [rule] [(1%Z, rule)] [] eq_refl).
Defined.

Lemma pay_list_private_witness :
  match pay_list 2 3 false None None None [sol_invoice] with
  | Refused => @None string = Some "server" /\ false = false
  | Nothing => True
  | Shown records =>
    (@None string = Some "server" -> false = true)
    /\ (forall i, In i records ->
          requested_invoice 2 3 None None [sol_invoice] i)
    /\ newest_invoices_ordered records
    /\ (forall x y, In x records ->
          requested_invoice 2 3 None None [sol_invoice] y ->
          In y records \/ inv_created_ts y <= inv_created_ts x)
    /\ (@None Z = None -> (List.length records <= 15)%nat)
    /\ (forall l, @None Z = Some l -> (0 < l)%Z ->
                  (Z.of_nat (List.length records) <= l)%Z)
  end.
Proof.
  exact (pay_list_private 2 3 false None None None [sol_invoice] (or_introl eq_refl)).
Defined.
